(** * mscclpp: the device-wide barrier [DeviceSyncer] and the GPU memory helpers

    A shallow embedding of [include/mscclpp/concurrency_device.hpp] and
    [include/mscclpp/gpu_utils.hpp].

    - [Module Syncer] embeds [DeviceSyncer::sync] as a transition system.
      A block is one agent: its threads store to the payload before they
      call [sync] and load from it after they have returned, and inside
      [sync] thread 0 is the only thread that touches the object, while the
      others wait at the two [__syncthreads()].  Every access to the three
      shared fields ([flag_], [count_], [isIncFlag_]) is one atomic step of
      the calling block, and an execution is an interleaving of such steps
      chosen by a schedule.
      The three fields are accessed atomically ([atomicInc]) or one word
      at a time and are kept in one sequentially consistent memory.  The
      payload that the barrier is there to order is ordinary global memory:
      a store to it becomes visible to the other threads of the block at a
      [__syncthreads()] and to the other blocks at the [__threadfence()] of
      the block's thread 0, and not before unless the hardware propagates it
      earlier.
    - [Module GpuUtils] embeds the allocation, free and copy helpers and
      the makers of objects in host memory over a small model of the CUDA
      runtime (device and host heaps, streams, the thread's stream-capture
      mode), with C++ exceptions as an error result and scope exit
      (destructors) written out. *)

From Stdlib Require Import ZArith List Lia Bool.
From stdpp Require Import base numbers list gmap.

Module Syncer.

(** ** The object *)

(** [struct DeviceSyncer]: the private fields, in declaration order.
    [flag_] is a [volatile int], [count_] an [unsigned int], [isIncFlag_] an
    [int]; each is kept as the integer it denotes. *)
Record DeviceSyncer : Type := mkDeviceSyncer {
  flag_ : Z;
  count_ : Z;
  isIncFlag_ : Z
}.

(** [DeviceSyncer() = default;] the constructor has no member initialisers
    and no body: the object representation it is run on is what the object
    holds afterwards. *)
Definition DeviceSyncer_ctor (storage : DeviceSyncer) : DeviceSyncer := storage.

(** The two ways in which C++ constructs a [DeviceSyncer] in a piece of
    memory.  Default-initialisation ([DeviceSyncer x;],
    [new (p) DeviceSyncer]) runs the constructor on the memory as it is.
    Value-initialisation ([DeviceSyncer()], [new (p) DeviceSyncer()]) is the
    form of the construction expressions of [gpu_utils.hpp],
    [new (ptr.get()) T(std::forward<Args>(args)...)] without arguments and
    [new (&ptr[i]) TElem()]: the constructor is defaulted on its first
    declaration, hence not user-provided, so the object is zero-initialised
    first and the constructor runs on that. *)
Definition default_initialize (storage : DeviceSyncer) : DeviceSyncer :=
  DeviceSyncer_ctor storage.

Definition value_initialize (storage : DeviceSyncer) : DeviceSyncer :=
  DeviceSyncer_ctor (mkDeviceSyncer 0 0 0).

(** [int64_t maxSpinCount = 100000000], the default argument of [sync]. *)
Definition default_maxSpinCount : Z := 100000000.

(** [unsigned int maxOldCnt = blockNum - 1;] with the conversion to a 32-bit
    unsigned written out. *)
Definition maxOldCnt (blockNum : Z) : Z := (blockNum - 1) mod 2 ^ 32.

(** CUDA's [atomicInc(addr, val)]: reads [old], stores
    [(old >= val) ? 0 : old + 1], returns [old].  The pair is
    (stored value, returned value). *)
Definition atomicInc (old val : Z) : Z * Z :=
  (if (val <=? old)%Z then 0%Z else (old + 1)%Z, old).

(** ** Thread 0 of one block *)

(** Program points of the coordinator (thread 0) of a block, one per access
    to shared memory.  [tmp], [old] and the spin counter are the locals of
    [sync] that are live at the point. *)
Inductive pc_t : Type :=
| Work                     (* outside [sync]; next: the caller's store *)
| AtCall                   (* next: first [__syncthreads()], [blockNum == 1] test *)
| Entered                  (* next: [__threadfence(); tmp = isIncFlag_ ^ 1] *)
| HaveTmp (tmp : Z)        (* next: [atomicInc(&count_, maxOldCnt)] *)
| GotOld (tmp old : Z)     (* next: [== maxOldCnt] test and the store to [flag_] *)
| Poll (tmp spin : Z)      (* next: one evaluation of the polling condition *)
| Leave (tmp : Z)          (* next: [isIncFlag_ = tmp;], second [__syncthreads()], return *)
| Trapped.                 (* the assertion of the poll failed *)

(** A block: where its coordinator is, and how many calls of [sync] it has
    returned from (history variable). *)
Record block : Type := mkBlock {
  pc : pc_t;
  rounds : nat
}.

(** Observable events, tagged with the block and the index of its call. *)
Inductive event : Type :=
| EvWrite (b k : nat)
| EvCall (b k : nat)
| EvTarget (b k : nat) (tmp : Z)
| EvArrive (b k : nat) (old : Z)
| EvSetFlag (b k : nat) (v : Z)
| EvObserve (b k : nat) (v : Z)
| EvTrap (b k : nat)
| EvReturn (b k : nat).

(** ** Payload memory

    One word of ordinary global memory per block, which the threads of that
    block store to before they call [sync] and which every block loads from
    between two calls.  A store is not visible everywhere at once:
    - [in_flight]: issued by a thread of the owning block and not yet past a
      [__syncthreads()]; the other threads of the block, thread 0 among
      them, need not have seen it;
    - [in_block]: past a [__syncthreads()] of the owning block, so seen by
      all its threads, but not yet past a [__threadfence()] of its thread 0;
      other blocks need not have seen it;
    - [device]: the newest store that every thread of the device sees.
    A store that is still on its way may or may not be found by a load: the
    hardware is free to propagate it before anything forces it to.
    [barriers] counts the [__syncthreads()] that the owning block has
    completed (history variable): among several blocks a thread other than
    thread 0 does nothing in [sync] but wait at the two barriers, so it is
    back from its call number [k] once the block has completed
    [2 * (k + 1)] of them. *)
Record cell : Type := mkCell {
  in_flight : option nat;
  in_block : option nat;
  device : nat;
  barriers : nat
}.

(** A thread of the owning block stores [v]. *)
Definition store (v : nat) (c : cell) : cell :=
  mkCell (Some v) (in_block c) (device c) (barriers c).

(** [__syncthreads()] of the owning block: every thread of the block has
    arrived, and the stores they issued before the barrier are visible to
    all threads of the block. *)
Definition block_barrier (c : cell) : cell :=
  match in_flight c with
  | Some v => mkCell None (Some v) (device c) (S (barriers c))
  | None => mkCell None (in_block c) (device c) (S (barriers c))
  end.

(** [__threadfence()] of the owning block's thread 0: the stores the thread
    has seen are visible to all threads of the device before any store
    the thread issues after the fence. *)
Definition fence (c : cell) : cell :=
  match in_block c with
  | Some v => mkCell (in_flight c) None v (barriers c)
  | None => c
  end.


(** The kernel: the shared [DeviceSyncer], the blocks, one payload cell per
    block (what a block stores before it calls [sync]), and two history
    variables: the number of stores to [flag_] so far, and the events so far
    (newest first). *)
Record kernel : Type := mkKernel {
  syncer : DeviceSyncer;
  blocks : list block;
  data : list cell;
  flips : nat;
  trace : list event
}.

Definition set_pc (b : nat) (p : pc_t) (k : nat) (s : kernel) : kernel :=
  mkKernel (syncer s) (<[b := mkBlock p k]> (blocks s)) (data s) (flips s) (trace s).

Definition set_syncer (d : DeviceSyncer) (s : kernel) : kernel :=
  mkKernel d (blocks s) (data s) (flips s) (trace s).

Definition emit (e : event) (s : kernel) : kernel :=
  mkKernel (syncer s) (blocks s) (data s) (flips s) (e :: trace s).

Definition set_cell (b : nat) (f : cell -> cell) (s : kernel) : kernel :=
  mkKernel (syncer s) (blocks s) (alter f b (data s)) (flips s) (trace s).

(** The caller's store to the cell of block [b], and the two CUDA
    primitives of [sync] as they act on the stores of block [b]. *)
Definition store_data (b v : nat) (s : kernel) : kernel := set_cell b (store v) s.

Definition syncthreads (b : nat) (s : kernel) : kernel := set_cell b block_barrier s.

Definition threadfence (b : nat) (s : kernel) : kernel := set_cell b fence s.



Definition count_flip (s : kernel) : kernel :=
  mkKernel (syncer s) (blocks s) (data s) (S (flips s)) (trace s).

(** The two branches of [if (tmp) ... else ...]: the value the releaser
    stores to [flag_], and the condition under which the poll keeps
    spinning ([!flag_] in the first branch, [flag_] in the second). *)
Definition release_value (tmp : Z) : Z :=
  if (tmp =? 0)%Z then 0%Z else 1%Z.

Definition poll_cond (tmp flag : Z) : bool :=
  if (tmp =? 0)%Z then negb (flag =? 0)%Z else (flag =? 0)%Z.

(** What one evaluation of the polling condition leads to: [PollExit]
    leaves the loop, [PollSpin c] goes round again with [c] iterations
    elapsed, [PollTrap] is the fatal failure. *)
Inductive poll_result : Type :=
| PollExit
| PollSpin (spin : Z)
| PollTrap.

(** Modelled from the spec: the macro [POLL_MAYBE_JAILBREAK] of
    [poll_device.hpp], which is not among the sources.  Section 4.1, step 3e:
    the coordinator "spins, re-reading roundFlag, until it observes the
    target value, or until maxSpinCount iterations have elapsed with the
    bound enabled -- in which case the call fails fatally"; "a negative value
    disables the bound (spin forever)".  [cond] is the condition under which
    the loop goes on, [spin] the number of iterations elapsed; with the
    bound disabled nothing is counted. *)
Definition POLL_MAYBE_JAILBREAK (cond : bool) (maxSpinCount spin : Z) : poll_result :=
  if cond then
    if (0 <=? maxSpinCount)%Z then
      if (spin =? maxSpinCount)%Z then PollTrap else PollSpin (spin + 1)
    else PollSpin spin
  else PollExit.

(** One step of block [b]: the store of its threads before the call, or a
    step of its coordinator inside [sync(blockNum, maxSpinCount)].  The
    first [__syncthreads()] passes the block's store on to thread 0, whose
    [__threadfence()] passes it on to the device; the second
    [__syncthreads()] is where the threads of the block leave [sync]
    together.  A block index out of range and a trapped block do
    nothing. *)
Definition sync_step (blockNum maxSpinCount : Z) (b : nat) (s : kernel) : kernel :=
  match blocks s !! b with
  | None => s
  | Some bl =>
    let k := rounds bl in
    let d := syncer s in
    match pc bl with
    | Work =>
        emit (EvWrite b k) (set_pc b AtCall k (store_data b (S k) s))
    | AtCall =>
        if (blockNum =? 1)%Z
        then emit (EvReturn b k) (emit (EvCall b k) (set_pc b Work (S k) (syncthreads b s)))
        else emit (EvCall b k) (set_pc b Entered k (syncthreads b s))
    | Entered =>
        let tmp := Z.lxor (isIncFlag_ d) 1 in
        emit (EvTarget b k tmp) (set_pc b (HaveTmp tmp) k (threadfence b s))
    | HaveTmp tmp =>
        let '(new, old) := atomicInc (count_ d) (maxOldCnt blockNum) in
        emit (EvArrive b k old)
          (set_pc b (GotOld tmp old) k
             (set_syncer (mkDeviceSyncer (flag_ d) new (isIncFlag_ d)) s))
    | GotOld tmp old =>
        if (old =? maxOldCnt blockNum)%Z
        then emit (EvSetFlag b k (release_value tmp))
               (count_flip
                  (set_pc b (Poll tmp 0) k
                     (set_syncer
                        (mkDeviceSyncer (release_value tmp) (count_ d) (isIncFlag_ d)) s)))
        else set_pc b (Poll tmp 0) k s
    | Poll tmp spin =>
        match POLL_MAYBE_JAILBREAK (poll_cond tmp (flag_ d)) maxSpinCount spin with
        | PollExit => emit (EvObserve b k (flag_ d)) (set_pc b (Leave tmp) k s)
        | PollSpin spin' => set_pc b (Poll tmp spin') k s
        | PollTrap => emit (EvTrap b k) (set_pc b Trapped k s)
        end
    | Leave tmp =>
        emit (EvReturn b k)
          (set_pc b Work (S k)
             (syncthreads b (set_syncer (mkDeviceSyncer (flag_ d) (count_ d) tmp) s)))
    | Trapped => s
    end
  end.

(** A finite schedule names the block that moves at each step, first
    first. *)
Fixpoint run (blockNum maxSpinCount : Z) (sched : list nat) (s : kernel) : kernel :=
  match sched with
  | [] => s
  | b :: rest => run blockNum maxSpinCount rest (sync_step blockNum maxSpinCount b s)
  end.


(** The kernel at launch: [n] blocks outside [sync], the [DeviceSyncer]
    [d] that they share, payload cells at zero with no store on its way. *)
Definition launch (d : DeviceSyncer) (n : nat) : kernel :=
  mkKernel d (replicate n (mkBlock Work 0)) (replicate n (mkCell None None 0 0)) 0 [].

Definition zeroed : DeviceSyncer := mkDeviceSyncer 0 0 0.

(** ** Counting blocks *)

Fixpoint count_if (p : block -> bool) (l : list block) : nat :=
  match l with
  | [] => 0
  | x :: l' => Nat.b2n (p x) + count_if p l'
  end.

(** Sum of a measure over the blocks. *)
Fixpoint total_of (f : block -> nat) (l : list block) : nat :=
  match l with
  | [] => 0
  | x :: l' => f x + total_of f l'
  end.

Lemma count_if_le p l : count_if p l <= length l.
Proof.
  induction l as [|x l IH]; simpl; [lia|].
  destruct (p x); simpl; lia.
Qed.

Lemma count_if_insert p l b bl bl' :
  l !! b = Some bl ->
  count_if p (<[b := bl']> l) + Nat.b2n (p bl) = count_if p l + Nat.b2n (p bl').
Proof.
  revert b. induction l as [|x l IH]; intros [|b] Hb; simpl in *; try discriminate.
  - injection Hb as ->. lia.
  - specialize (IH b Hb). lia.
Qed.

Lemma count_if_none p l :
  (forall b bl, l !! b = Some bl -> p bl = false) -> count_if p l = 0.
Proof.
  induction l as [|x l IH]; intros H; simpl; [reflexivity|].
  rewrite (H 0 x eq_refl). simpl. apply IH. intros b bl Hb. apply (H (S b) bl Hb).
Qed.

Lemma count_if_zero p l b bl :
  count_if p l = 0 -> l !! b = Some bl -> p bl = false.
Proof.
  revert b. induction l as [|x l IH]; intros [|b] H0 Hb; simpl in *; try discriminate.
  - injection Hb as ->. destruct (p bl); simpl in H0; [lia|reflexivity].
  - apply (IH b); [|exact Hb]. destruct (p x); simpl in H0; lia.
Qed.

Lemma count_if_full p l b bl :
  count_if p l = length l -> l !! b = Some bl -> p bl = true.
Proof.
  revert b. induction l as [|x l IH]; intros [|b] Hf Hb; simpl in *; try discriminate.
  - injection Hb as ->. pose proof (count_if_le p l).
    destruct (p bl); simpl in Hf; [reflexivity|lia].
  - apply (IH b); [|exact Hb]. pose proof (count_if_le p l).
    destruct (p x); simpl in Hf; lia.
Qed.

Lemma count_if_all p l :
  (forall b bl, l !! b = Some bl -> p bl = true) -> count_if p l = length l.
Proof.
  induction l as [|x l IH]; intros H; simpl; [reflexivity|].
  rewrite (H 0 x eq_refl). simpl. f_equal.
  apply IH. intros b bl Hb. apply (H (S b) bl Hb).
Qed.

Lemma count_if_pos p l :
  0 < count_if p l -> exists b bl, l !! b = Some bl /\ p bl = true.
Proof.
  induction l as [|x l IH]; simpl; intros H; [lia|].
  destruct (p x) eqn:E.
  - exists 0, x. split; [reflexivity|exact E].
  - destruct (IH H) as (b & bl & Hb & Hp). exists (S b), bl. split; assumption.
Qed.

Lemma count_if_one p l b1 b2 bl1 bl2 :
  count_if p l <= 1 ->
  l !! b1 = Some bl1 -> p bl1 = true ->
  l !! b2 = Some bl2 -> p bl2 = true -> b1 = b2.
Proof.
  revert b1 b2. induction l as [|x l IH]; intros [|b1] [|b2] H1 Hb1 Hp1 Hb2 Hp2;
    simpl in *; try discriminate; try reflexivity.
  - injection Hb1 as ->. rewrite Hp1 in H1. simpl in H1.
    assert (H0 : count_if p l = 0) by lia.
    rewrite (count_if_zero p l b2 bl2 H0 Hb2) in Hp2. discriminate.
  - injection Hb2 as ->. rewrite Hp2 in H1. simpl in H1.
    assert (H0 : count_if p l = 0) by lia.
    rewrite (count_if_zero p l b1 bl1 H0 Hb1) in Hp1. discriminate.
  - f_equal. apply IH; try assumption. lia.
Qed.

Lemma total_of_insert f l b bl bl' :
  l !! b = Some bl ->
  total_of f (<[b := bl']> l) + f bl = total_of f l + f bl'.
Proof.
  revert b. induction l as [|x l IH]; intros [|b] Hb; simpl in *; try discriminate.
  - injection Hb as ->. lia.
  - specialize (IH b Hb). lia.
Qed.


(** Either some block satisfies a test or none does. *)
Lemma find_block p (l : list block) :
  (exists b bl, l !! b = Some bl /\ p bl = true) \/
  (forall b bl, l !! b = Some bl -> p bl = false).
Proof.
  destruct (count_if p l) eqn:E.
  - right. intros b bl Hb. exact (count_if_zero p l b bl E Hb).
  - left. apply count_if_pos. lia.
Qed.

Lemma count_if_lt p l b bl :
  l !! b = Some bl -> p bl = false -> count_if p l < length l.
Proof.
  revert b. induction l as [|x l IH]; intros [|b] Hb Hp; simpl in *; try discriminate.
  - injection Hb as ->. rewrite Hp. pose proof (count_if_le p l). simpl. lia.
  - specialize (IH b Hb Hp). destruct (p x); simpl; lia.
Qed.

(** ** The sense values *)

(** The value of [flag_] after [g] stores to it, starting from zero, and
    the target of a block's [k]-th call (counting from 0). *)
Definition flag_after (g : nat) : Z := if Nat.even g then 0%Z else 1%Z.

Definition target_of (k : nat) : Z := flag_after (S k).

Lemma flag_after_S g : flag_after (S g) = Z.lxor (flag_after g) 1.
Proof.
  unfold flag_after. rewrite Nat.even_succ, <- Nat.negb_even.
  destruct (Nat.even g); reflexivity.
Qed.

Lemma flag_after_bit g : flag_after g = 0%Z \/ flag_after g = 1%Z.
Proof. unfold flag_after. destruct (Nat.even g); auto. Qed.

Lemma flag_after_S_neq g : flag_after (S g) <> flag_after g.
Proof.
  unfold flag_after. rewrite Nat.even_succ, <- Nat.negb_even.
  destruct (Nat.even g); simpl; lia.
Qed.

Lemma release_value_target g : release_value (flag_after g) = flag_after g.
Proof. destruct (flag_after_bit g) as [-> | ->]; reflexivity. Qed.

Lemma poll_cond_waiting g : poll_cond (flag_after (S g)) (flag_after g) = true.
Proof.
  unfold poll_cond, flag_after. rewrite Nat.even_succ, <- Nat.negb_even.
  destruct (Nat.even g); reflexivity.
Qed.

Lemma poll_cond_released g : poll_cond (flag_after g) (flag_after g) = false.
Proof. unfold poll_cond, flag_after. destruct (Nat.even g); reflexivity. Qed.

Ltac at_block b Hne H :=
  match type of H with
  | <[b := _]> ?l !! ?b' = Some _ =>
      destruct (decide (b' = b)) as [->|Hne];
      [ rewrite list_lookup_insert_eq in H by (eapply lookup_lt_Some; eassumption);
        injection H as <-
      | rewrite list_lookup_insert_ne in H by auto ]
  end.


(** ** What the trace records *)

(** How far into its current call a block is: 1 after the caller's store,
    2 after entering [sync], 3 with [tmp] computed, 4 once its [atomicInc]
    is done. *)
Definition stage (p : pc_t) : nat :=
  match p with
  | Work => 0
  | AtCall => 1
  | Entered => 2
  | HaveTmp _ => 3
  | GotOld _ _ | Poll _ _ | Leave _ | Trapped => 4
  end.

(** Block [bl] has reached stage [n] of its call number [k]. *)
Definition reached (bl : block) (k n : nat) : Prop :=
  k < rounds bl \/ (k = rounds bl /\ n <= stage (pc bl)).

(** The call indices of the stores to [flag_] in a trace, newest first. *)
Fixpoint set_rounds (tr : list event) : list nat :=
  match tr with
  | [] => []
  | EvSetFlag _ k _ :: tr' => k :: set_rounds tr'
  | _ :: tr' => set_rounds tr'
  end.

Lemma set_rounds_app l1 l2 : set_rounds (l1 ++ l2) = set_rounds l1 ++ set_rounds l2.
Proof.
  induction l1 as [|e l1 IH]; simpl; [reflexivity|].
  destruct e; simpl; rewrite ?IH; reflexivity.
Qed.

Lemma set_rounds_In b k v tr : List.In (EvSetFlag b k v) tr -> List.In k (set_rounds tr).
Proof.
  induction tr as [|e tr IH]; simpl; [tauto|].
  intros [->|H]; [left; reflexivity|].
  destruct e; simpl; auto.
Qed.

Lemma set_rounds_In_inv k tr :
  List.In k (set_rounds tr) -> exists b v, List.In (EvSetFlag b k v) tr.
Proof.
  induction tr as [|e tr IH]; simpl; [tauto|].
  destruct e; simpl; intros H;
    try (destruct (IH H) as (b' & v' & H'); exists b', v'; right; exact H').
  destruct H as [->|H].
  - eexists _, _. left. reflexivity.
  - destruct (IH H) as (b' & v' & H'). exists b', v'. right. exact H'.
Qed.

(** When the rounds of the stores are pairwise distinct, a store is the
    only one of its round. *)
Lemma set_rounds_split l1 l2 b k v :
  List.NoDup (set_rounds (l1 ++ EvSetFlag b k v :: l2)) ->
  (forall b' v', ~ List.In (EvSetFlag b' k v') l1) /\
  (forall b' v', ~ List.In (EvSetFlag b' k v') l2).
Proof.
  rewrite set_rounds_app. simpl. intros H.
  apply List.NoDup_remove_2 in H.
  split; intros b' v' Hin; apply H, List.in_or_app;
    [left|right]; eapply set_rounds_In; eassumption.
Qed.

Lemma set_rounds_unique tr b k v b' v' :
  List.NoDup (set_rounds tr) ->
  List.In (EvSetFlag b k v) tr -> List.In (EvSetFlag b' k v') tr ->
  b = b' /\ v = v'.
Proof.
  intros Hnd H1 H2.
  destruct (List.in_split _ _ H1) as (l1 & l2 & ->).
  destruct (set_rounds_split _ _ _ _ _ Hnd) as [Hl1 Hl2].
  apply List.in_app_or in H2 as [H2|[H2|H2]].
  - destruct (Hl1 _ _ H2).
  - injection H2 as <- <-. auto.
  - destruct (Hl2 _ _ H2).
Qed.

Lemma rev_seq_S n : List.rev (List.seq 0 (S n)) = n :: List.rev (List.seq 0 n).
Proof. rewrite List.seq_S, List.rev_app_distr. reflexivity. Qed.

Lemma In_rev_seq k n : List.In k (List.rev (List.seq 0 n)) <-> k < n.
Proof.
  split; intros H.
  - apply (proj2 (List.in_rev _ _)) in H. apply List.in_seq in H. lia.
  - apply (proj1 (List.in_rev _ _)). apply List.in_seq. lia.
Qed.

Lemma rev_seq_NoDup n : List.NoDup (List.rev (List.seq 0 n)).
Proof. apply List.NoDup_rev, List.seq_NoDup. Qed.

Lemma decide_lookup_insert (l : list block) b b' x y :
  <[b := x]> l !! b' = Some y ->
  (b' = b /\ x = y) \/ (b' <> b /\ l !! b' = Some y).
Proof.
  intros H. destruct (decide (b' = b)) as [->|Hne].
  - left. split; [reflexivity|].
    destruct (decide (b < length l)) as [Hlt|Hge].
    + rewrite list_lookup_insert_eq in H by exact Hlt. congruence.
    + rewrite list_insert_ge in H by lia.
      apply lookup_lt_Some in H. lia.
  - right. split; [exact Hne|]. rewrite list_lookup_insert_ne in H by auto. exact H.
Qed.

Ltac at_block_somewhere H Hne :=
  match type of H with
  | <[?b := _]> _ !! _ = Some _ => at_block b Hne H
  end.

(** ** Steps of one block, for any arguments of [sync] *)

Definition event_block (e : event) : nat :=
  match e with
  | EvWrite b _ | EvCall b _ | EvTarget b _ _ | EvArrive b _ _
  | EvSetFlag b _ _ | EvObserve b _ _ | EvTrap b _ | EvReturn b _ => b
  end.

Definition some_trapped (s : kernel) : Prop :=
  exists b bl, blocks s !! b = Some bl /\ pc bl = Trapped.

(** How often block [b] is scheduled in [sched]. *)
Fixpoint turns (b : nat) (sched : list nat) : nat :=
  match sched with
  | [] => 0
  | b' :: rest => (if Nat.eqb b' b then 1 else 0) + turns b rest
  end.

(** Throughout [sched], started in [s], the poll of a block whose target is
    [tmp] would find its condition true: its flag value never shows. *)
Definition waiting (blockNum maxSpinCount : Z) (tmp : Z) (sched : list nat) (s : kernel) : Prop :=
  forall n, poll_cond tmp (flag_ (syncer (run blockNum maxSpinCount (take n sched) s))) = true.

Section Steps.

Variables blockNum maxSpinCount : Z.

Lemma step_other b b' s :
  b' <> b -> blocks (sync_step blockNum maxSpinCount b' s) !! b = blocks s !! b.
Proof.
  intros Hne. unfold sync_step.
  destruct (blocks s !! b') as [[p k]|]; [|reflexivity].
  destruct p; simpl;
    repeat match goal with
           | |- context [if ?c then _ else _] => destruct c; simpl
           | |- context [match POLL_MAYBE_JAILBREAK ?a ?b ?c with _ => _ end] =>
               destruct (POLL_MAYBE_JAILBREAK a b c); simpl
           end;
    try reflexivity; apply list_lookup_insert_ne; exact Hne.
Qed.

Lemma step_trace b' s e :
  List.In e (trace (sync_step blockNum maxSpinCount b' s)) ->
  List.In e (trace s) \/ event_block e = b'.
Proof.
  unfold sync_step.
  destruct (blocks s !! b') as [[p k]|]; [|auto].
  destruct p; simpl;
    repeat match goal with
           | |- context [if ?c then _ else _] => destruct c; simpl
           | |- context [match POLL_MAYBE_JAILBREAK ?a ?b ?c with _ => _ end] =>
               destruct (POLL_MAYBE_JAILBREAK a b c); simpl
           end;
    intuition (subst; auto).
Qed.

Lemma step_trapped b s k :
  blocks s !! b = Some (mkBlock Trapped k) -> sync_step blockNum maxSpinCount b s = s.
Proof. intros Hb. unfold sync_step. rewrite Hb. reflexivity. Qed.

Lemma trapped_stays b k sched s :
  blocks s !! b = Some (mkBlock Trapped k) ->
  blocks (run blockNum maxSpinCount sched s) !! b = Some (mkBlock Trapped k).
Proof.
  revert s. induction sched as [|b' sched IH]; intros s Hb; simpl; [exact Hb|].
  apply IH. destruct (decide (b' = b)) as [->|Hne].
  - rewrite (step_trapped _ _ _ Hb). exact Hb.
  - rewrite step_other by exact Hne. exact Hb.
Qed.


(** With the bound disabled no step traps. *)
Lemma no_trap_step b s :
  (maxSpinCount < 0)%Z -> ~ some_trapped s ->
  ~ some_trapped (sync_step blockNum maxSpinCount b s).
Proof.
  intros Hm Hno (b' & bl' & Hb' & Hp). apply Hno. unfold sync_step in Hb'.
  destruct (blocks s !! b) as [[p k]|] eqn:Hb; [|exists b', bl'; auto].
  assert (Hold : forall x, (b' = b /\ x = bl') \/ (b' <> b /\ blocks s !! b' = Some bl') ->
                 pc x <> Trapped -> some_trapped s).
  { intros x [[_ <-]|[_ H]] Hx; [contradiction|]. exists b', bl'. auto. }
  destruct p; simpl in Hb'.
  - apply decide_lookup_insert in Hb'. apply (Hold _ Hb'). discriminate.
  - destruct (blockNum =? 1)%Z; simpl in Hb';
      apply decide_lookup_insert in Hb'; apply (Hold _ Hb'); discriminate.
  - apply decide_lookup_insert in Hb'. apply (Hold _ Hb'). discriminate.
  - apply decide_lookup_insert in Hb'. apply (Hold _ Hb'). discriminate.
  - destruct (old =? maxOldCnt blockNum)%Z; simpl in Hb';
      apply decide_lookup_insert in Hb'; apply (Hold _ Hb'); discriminate.
  - unfold POLL_MAYBE_JAILBREAK in Hb'.
    destruct (Z.leb_spec 0 maxSpinCount); [lia|].
    destruct (poll_cond tmp (flag_ (syncer s))); simpl in Hb';
      apply decide_lookup_insert in Hb'; apply (Hold _ Hb'); discriminate.
  - apply decide_lookup_insert in Hb'. apply (Hold _ Hb'). discriminate.
  - exists b', bl'. auto.
Qed.

Lemma no_trap_run sched s :
  (maxSpinCount < 0)%Z -> ~ some_trapped s ->
  ~ some_trapped (run blockNum maxSpinCount sched s).
Proof.
  intros Hm. revert s. induction sched as [|b sched IH]; intros s H0; simpl; [exact H0|].
  apply IH, no_trap_step; assumption.
Qed.


Lemma waiting_now tmp sched s :
  waiting blockNum maxSpinCount tmp sched s -> poll_cond tmp (flag_ (syncer s)) = true.
Proof. intros H. apply (H 0). Qed.

Lemma waiting_tail tmp b sched s :
  waiting blockNum maxSpinCount tmp (b :: sched) s ->
  waiting blockNum maxSpinCount tmp sched (sync_step blockNum maxSpinCount b s).
Proof. intros H n. apply (H (S n)). Qed.

(** One evaluation of the poll by a block whose flag value does not show. *)
Lemma poll_step_waiting b tmp c k s :
  blocks s !! b = Some (mkBlock (Poll tmp c) k) ->
  poll_cond tmp (flag_ (syncer s)) = true ->
  blocks (sync_step blockNum maxSpinCount b s) !! b =
  Some (mkBlock (match POLL_MAYBE_JAILBREAK true maxSpinCount c with
                 | PollSpin c' => Poll tmp c'
                 | PollTrap => Trapped
                 | PollExit => Leave tmp
                 end) k).
Proof.
  intros Hb Hc. unfold sync_step. rewrite Hb. simpl. rewrite Hc.
  assert (Hlt : b < length (blocks s)) by (eapply lookup_lt_Some; exact Hb).
  unfold POLL_MAYBE_JAILBREAK.
  destruct (0 <=? maxSpinCount)%Z; [destruct (c =? maxSpinCount)%Z|]; simpl;
    apply list_lookup_insert_eq; exact Hlt.
Qed.

(** With the bound enabled, a block that polls a flag that never shows
    spins until its counter is [maxSpinCount] and traps at its next turn. *)
Lemma bounded_poll b tmp k sched :
  (0 <= maxSpinCount)%Z ->
  forall s c, (0 <= c <= maxSpinCount)%Z ->
  blocks s !! b = Some (mkBlock (Poll tmp c) k) ->
  waiting blockNum maxSpinCount tmp sched s ->
  blocks (run blockNum maxSpinCount sched s) !! b =
  Some (mkBlock (if (c + Z.of_nat (turns b sched) <=? maxSpinCount)%Z
                 then Poll tmp (c + Z.of_nat (turns b sched)) else Trapped) k).
Proof.
  intros Hm. induction sched as [|b' sched IH]; intros s c Hc Hb Hw.
  - simpl. rewrite Z.add_0_r. destruct (Z.leb_spec c maxSpinCount); [exact Hb|lia].
  - cbn [run turns]. destruct (Nat.eqb_spec b' b) as [->|Hne].
    + pose proof (poll_step_waiting b tmp c k s Hb (waiting_now _ _ _ Hw)) as Hstep.
      unfold POLL_MAYBE_JAILBREAK in Hstep.
      destruct (Z.leb_spec 0 maxSpinCount); [|lia].
      destruct (Z.eqb_spec c maxSpinCount) as [->|Hn].
      * rewrite (trapped_stays _ _ _ _ Hstep).
        destruct (Z.leb_spec (maxSpinCount + Z.of_nat (1 + turns b sched)) maxSpinCount);
          [lia|reflexivity].
      * rewrite (IH _ (c + 1)%Z ltac:(lia) Hstep (waiting_tail _ _ _ _ Hw)).
        replace (c + 1 + Z.of_nat (turns b sched))%Z
          with (c + Z.of_nat (1 + turns b sched))%Z by lia.
        reflexivity.
    + rewrite (IH _ c Hc); [reflexivity| |apply waiting_tail; exact Hw].
      rewrite step_other by exact Hne. exact Hb.
Qed.

(** With the bound disabled the same block waits for ever. *)
Lemma unbounded_poll b tmp c k sched :
  (maxSpinCount < 0)%Z ->
  forall s,
  blocks s !! b = Some (mkBlock (Poll tmp c) k) ->
  waiting blockNum maxSpinCount tmp sched s ->
  blocks (run blockNum maxSpinCount sched s) !! b = Some (mkBlock (Poll tmp c) k).
Proof.
  intros Hm. induction sched as [|b' sched IH]; intros s Hb Hw; [exact Hb|].
  cbn [run]. apply IH; [|apply waiting_tail; exact Hw].
  destruct (decide (b' = b)) as [->|Hne].
  - rewrite (poll_step_waiting b tmp c k s Hb (waiting_now _ _ _ Hw)).
    unfold POLL_MAYBE_JAILBREAK. destruct (Z.leb_spec 0 maxSpinCount); [lia|reflexivity].
  - rewrite step_other by exact Hne. exact Hb.
Qed.




(** An [EvArrive] in the trace is the [atomicInc] of a block that has
    reached stage 4 of that call. *)
Definition Arrived (s : kernel) : Prop :=
  forall b k old, List.In (EvArrive b k old) (trace s) ->
  exists bl, blocks s !! b = Some bl /\ reached bl k 4.

Lemma Arrived_move s b bl bl' d' dat' g' tr' :
  Arrived s -> blocks s !! b = Some bl ->
  (forall k, reached bl k 4 -> reached bl' k 4) ->
  (forall b1 k old, List.In (EvArrive b1 k old) tr' ->
     List.In (EvArrive b1 k old) (trace s) \/
     (b1 = b /\ k = rounds bl' /\ 4 <= stage (pc bl'))) ->
  Arrived (mkKernel d' (<[b := bl']> (blocks s)) dat' g' tr').
Proof.
  intros Ha Hb Hmono Htr b1 k old Hin. simpl in *.
  assert (Hlt : b < length (blocks s)) by (eapply lookup_lt_Some; exact Hb).
  destruct (Htr _ _ _ Hin) as [Hold|(-> & -> & Hst)].
  - destruct (Ha _ _ _ Hold) as (bl1 & H1 & Hr1).
    destruct (decide (b1 = b)) as [->|Hne].
    + exists bl'. split; [apply list_lookup_insert_eq; exact Hlt|].
      apply Hmono. congruence.
    + exists bl1. split; [|exact Hr1]. rewrite list_lookup_insert_ne by auto. exact H1.
  - exists bl'. split; [apply list_lookup_insert_eq; exact Hlt|]. unfold reached. auto.
Qed.

Lemma Arrived_step b s :
  Arrived s -> Arrived (sync_step blockNum maxSpinCount b s).
Proof.
  intros Ha. unfold sync_step.
  destruct (blocks s !! b) as [[p k]|] eqn:Hb; [|exact Ha].
  destruct p; simpl pc; simpl rounds; cbv iota;
    repeat match goal with
           | |- context [if ?c then _ else _] => destruct c
           | |- context [match POLL_MAYBE_JAILBREAK ?a ?b ?c with _ => _ end] =>
               destruct (POLL_MAYBE_JAILBREAK a b c)
           | |- context [let '(_, _) := atomicInc ?a ?b in _] => unfold atomicInc
           end;
    try exact Ha;
    (eapply Arrived_move; [exact Ha|exact Hb| |]);
    try (intros k0; unfold reached; simpl; lia);
    simpl; intros b1 k1 old1 He;
    repeat (destruct He as [He|He]; [try discriminate He|]);
    try (left; exact He).
  all: injection He as <- <- <-; right; simpl; auto.
Qed.

Lemma Arrived_run sched s :
  Arrived s -> Arrived (run blockNum maxSpinCount sched s).
Proof.
  revert s. induction sched as [|b sched IH]; intros s H; simpl; [exact H|].
  apply IH, Arrived_step, H.
Qed.

End Steps.

(** ** The invariant of a kernel of [N] blocks that all call
    [sync(N, maxSpinCount)] round after round *)

Section Protocol.

Variable N : nat.
Variable maxSpinCount : Z.

Definition arrived_pc (p : pc_t) : bool :=
  match p with
  | GotOld _ _ | Poll _ _ | Trapped => true
  | _ => false
  end.

(** Blocks that have done the [atomicInc] of round [g] and have not been
    released from it. *)
Definition arrived_in (g : nat) (bl : block) : bool :=
  Nat.eqb (rounds bl) g && arrived_pc (pc bl).

(** Blocks of round [g] whose [atomicInc] returned [N - 1] and that have
    not yet stored to [flag_]. *)
Definition releasing_in (g : nat) (bl : block) : bool :=
  Nat.eqb (rounds bl) g &&
  match pc bl with
  | GotOld _ old => (old =? Z.of_nat N - 1)%Z
  | _ => false
  end.

Definition spin_ok (c : Z) : Prop :=
  (0 <= c)%Z /\ (0 <= maxSpinCount -> c <= maxSpinCount)%Z /\
  (maxSpinCount < 0 -> c = 0)%Z.

(** A block in round [g], the round that the next store to [flag_] ends. *)
Definition pc_current (g : nat) (p : pc_t) : Prop :=
  match p with
  | Work | AtCall | Entered | Trapped => True
  | HaveTmp t => t = target_of g
  | GotOld t _ => t = target_of g
  | Poll t c => t = target_of g /\ spin_ok c
  | Leave _ => False
  end.

(** A block still inside round [g - 1], which the last store to [flag_]
    ended. *)
Definition pc_behind (g : nat) (p : pc_t) : Prop :=
  match p with
  | GotOld t old => t = flag_after g /\ old <> (Z.of_nat N - 1)%Z
  | Poll t c => t = flag_after g /\ spin_ok c
  | Leave t => t = flag_after g
  | Trapped => True
  | Work | AtCall | Entered | HaveTmp _ => False
  end.

Definition block_ok (g : nat) (bl : block) : Prop :=
  (rounds bl = g /\ pc_current g (pc bl)) \/
  (S (rounds bl) = g /\ pc_behind g (pc bl)).

Record Inv (s : kernel) : Prop := mkInv {
  inv_len : length (blocks s) = N;
  inv_flag : flag_ (syncer s) = flag_after (flips s);
  inv_blocks : forall b bl, blocks s !! b = Some bl -> block_ok (flips s) bl;
  inv_count :
    count_ (syncer s) =
    if Nat.eqb (count_if (arrived_in (flips s)) (blocks s)) N then 0%Z
    else Z.of_nat (count_if (arrived_in (flips s)) (blocks s));
  inv_rel :
    count_if (releasing_in (flips s)) (blocks s) =
    if Nat.eqb (count_if (arrived_in (flips s)) (blocks s)) N then 1 else 0;
  inv_sense :
    isIncFlag_ (syncer s) = flag_after (flips s) \/
    (forall b bl, blocks s !! b = Some bl -> S (rounds bl) = flips s)
}.

Hypothesis HN : 2 <= N.
Hypothesis HNint : (Z.of_nat N < 2 ^ 31)%Z.

Lemma maxOldCnt_N : maxOldCnt (Z.of_nat N) = (Z.of_nat N - 1)%Z.
Proof. unfold maxOldCnt. apply Z.mod_small. lia. Qed.

Lemma Inv_launch : Inv (launch zeroed N).
Proof.
  assert (Hall : forall b bl, replicate N (mkBlock Work 0) !! b = Some bl ->
                              bl = mkBlock Work 0 /\ b < N)
    by (intros b bl H; apply lookup_replicate in H; exact H).
  constructor; simpl.
  - apply length_replicate.
  - reflexivity.
  - intros b bl H. destruct (Hall b bl H) as [-> _]. left. simpl. auto.
  - rewrite count_if_none.
    + destruct N; [lia|reflexivity].
    + intros b bl H. destruct (Hall b bl H) as [-> _]. reflexivity.
  - rewrite !count_if_none.
    + destruct N; [lia|reflexivity].
    + intros b bl H. destruct (Hall b bl H) as [-> _]. reflexivity.
    + intros b bl H. destruct (Hall b bl H) as [-> _]. reflexivity.
  - left. reflexivity.
Qed.


(** A step that moves one block without touching the shared fields, the
    round structure or the counts keeps the invariant. *)
Lemma Inv_move s b bl bl' dat' tr' :
  Inv s -> blocks s !! b = Some bl ->
  block_ok (flips s) bl' ->
  arrived_in (flips s) bl' = arrived_in (flips s) bl ->
  releasing_in (flips s) bl' = releasing_in (flips s) bl ->
  rounds bl' = rounds bl ->
  Inv (mkKernel (syncer s) (<[b := bl']> (blocks s)) dat' (flips s) tr').
Proof.
  intros [Hlen Hflag Hbl Hcnt Hrel Hsense] Hb Hok HA HR Hrd.
  pose proof (count_if_insert (arrived_in (flips s)) _ _ _ bl' Hb) as EA.
  pose proof (count_if_insert (releasing_in (flips s)) _ _ _ bl' Hb) as ER.
  rewrite HA in EA. rewrite HR in ER.
  assert (EA' : count_if (arrived_in (flips s)) (<[b:=bl']> (blocks s)) =
                count_if (arrived_in (flips s)) (blocks s)) by lia.
  assert (ER' : count_if (releasing_in (flips s)) (<[b:=bl']> (blocks s)) =
                count_if (releasing_in (flips s)) (blocks s)) by lia.
  constructor; simpl.
  - rewrite length_insert. exact Hlen.
  - exact Hflag.
  - intros b' x H. at_block b Hne H; [exact Hok | eauto].
  - rewrite EA'. exact Hcnt.
  - rewrite EA', ER'. exact Hrel.
  - destruct Hsense as [Hs|Hs]; [left; exact Hs|right].
    intros b' x H. at_block b Hne H; [rewrite Hrd; eauto | eauto].
Qed.


Lemma arrived_in_same g p : arrived_in g (mkBlock p g) = arrived_pc p.
Proof. unfold arrived_in. simpl. rewrite Nat.eqb_refl. reflexivity. Qed.

Lemma arrived_in_other g p k : k <> g -> arrived_in g (mkBlock p k) = false.
Proof. intros H. unfold arrived_in. simpl. apply Nat.eqb_neq in H. rewrite H. reflexivity. Qed.

Lemma releasing_in_other g p k : k <> g -> releasing_in g (mkBlock p k) = false.
Proof. intros H. unfold releasing_in. simpl. apply Nat.eqb_neq in H. rewrite H. reflexivity. Qed.

Lemma releasing_in_same g p :
  releasing_in g (mkBlock p g) =
  match p with GotOld _ old => (old =? Z.of_nat N - 1)%Z | _ => false end.
Proof. unfold releasing_in. simpl. rewrite Nat.eqb_refl. reflexivity. Qed.

Lemma releasing_in_arrived g bl : releasing_in g bl = true -> arrived_in g bl = true.
Proof.
  unfold releasing_in, arrived_in. destruct (Nat.eqb (rounds bl) g); simpl; [|discriminate].
  destruct (pc bl); simpl; auto.
Qed.

Lemma arrived_in_rounds g bl : arrived_in g bl = true -> rounds bl = g /\ arrived_pc (pc bl) = true.
Proof.
  unfold arrived_in. intros H. apply andb_true_iff in H as [H1 H2].
  apply Nat.eqb_eq in H1. auto.
Qed.

Lemma spin_ok_0 : spin_ok 0.
Proof. unfold spin_ok. lia. Qed.

(** Every step keeps the invariant. *)
Lemma Inv_step b s : Inv s -> Inv (sync_step (Z.of_nat N) maxSpinCount b s).
Proof.
  intros HI. unfold sync_step.
  destruct (blocks s !! b) as [[p k]|] eqn:Hb; [|exact HI].
  pose proof (inv_blocks s HI b _ Hb) as Hok.
  destruct p; simpl pc; simpl rounds; cbv iota.
  - (* Work *)
    unfold emit, set_pc, store_data, set_cell; simpl.
    apply (Inv_move s b _ (mkBlock AtCall k) _ _ HI Hb).
    + destruct Hok as [[Hr _]|[_ []]]. left. simpl in *. auto.
    + unfold arrived_in. simpl. rewrite !andb_false_r. reflexivity.
    + unfold releasing_in. simpl. rewrite !andb_false_r. reflexivity.
    + reflexivity.
  - (* AtCall *)
    destruct (Z.eqb_spec (Z.of_nat N) 1) as [E|_]; [lia|].
    unfold emit, set_pc, syncthreads, set_cell; simpl.
    apply (Inv_move s b _ (mkBlock Entered k) _ _ HI Hb); auto.
  - (* Entered *)
    unfold emit, set_pc, threadfence, set_cell; simpl.
    apply (Inv_move s b _ (mkBlock (HaveTmp _) k) _ _ HI Hb); auto.
    destruct Hok as [[Hr _]|[_ []]]. left. simpl in *. split; [exact Hr|].
    destruct (inv_sense s HI) as [Hs|Hs].
    + rewrite Hs. unfold target_of. rewrite flag_after_S. reflexivity.
    + specialize (Hs b _ Hb). simpl in Hs. lia.
  - (* HaveTmp *)
    destruct Hok as [[Hr Ht]|[_ []]]. simpl in Hr, Ht. subst k.
    unfold atomicInc. rewrite maxOldCnt_N.
    unfold emit, set_pc, set_syncer; simpl.
    destruct HI as [Hlen Hflag Hbl Hcnt Hrel Hsense].
    set (bl' := mkBlock (GotOld tmp (count_ (syncer s))) (flips s)).
    pose proof (count_if_insert (arrived_in (flips s)) _ _ _ bl' Hb) as EA.
    pose proof (count_if_insert (releasing_in (flips s)) _ _ _ bl' Hb) as ER.
    pose proof (count_if_lt (arrived_in (flips s)) _ _ _ Hb) as Hlt.
    unfold bl' in EA, ER.
    rewrite !arrived_in_same in *. rewrite !releasing_in_same in ER.
    simpl in EA, ER, Hlt. specialize (Hlt eq_refl). rewrite Hlen in Hlt.
    fold bl' in EA, ER.
    set (A := count_if (arrived_in (flips s)) (blocks s)) in *.
    set (A' := count_if (arrived_in (flips s)) (<[b:=bl']> (blocks s))) in *.
    set (R := count_if (releasing_in (flips s)) (blocks s)) in *.
    set (R' := count_if (releasing_in (flips s)) (<[b:=bl']> (blocks s))) in *.
    destruct (Nat.eqb_spec A N) as [|_]; [lia|].
    constructor; simpl; fold A' R'.
    + rewrite length_insert. exact Hlen.
    + exact Hflag.
    + intros b' x H. at_block b Hne H; [|eauto].
      left. simpl. auto.
    + rewrite Hcnt.
      destruct (Z.leb_spec (Z.of_nat N - 1) (Z.of_nat A)), (Nat.eqb_spec A' N); lia.
    + rewrite Hcnt in ER.
      destruct (Z.eqb_spec (Z.of_nat A) (Z.of_nat N - 1)), (Nat.eqb_spec A' N);
        simpl in ER; lia.
    + destruct Hsense as [Hs|Hs]; [left; exact Hs|right].
      intros b' x H. at_block b Hne H; [|eauto]. apply (Hs _ _ Hb).
  - (* GotOld *)
    rewrite maxOldCnt_N.
    destruct (Z.eqb_spec old (Z.of_nat N - 1)) as [Eold|Nold].
    + (* the releaser stores to [flag_] *)
      destruct Hok as [[Hr Ht]|[_ [_ Hne]]]; [|contradiction].
      simpl in Hr, Ht. subst k.
      unfold emit, count_flip, set_pc, set_syncer; simpl.
      destruct HI as [Hlen Hflag Hbl Hcnt Hrel Hsense].
      assert (Hrb : releasing_in (flips s) (mkBlock (GotOld tmp old) (flips s)) = true).
      { rewrite releasing_in_same. apply Z.eqb_eq. exact Eold. }
      assert (HR1 : count_if (releasing_in (flips s)) (blocks s) = 1 /\
                    count_if (arrived_in (flips s)) (blocks s) = N).
      { destruct (Nat.eqb_spec (count_if (arrived_in (flips s)) (blocks s)) N); [auto|].
        rewrite (count_if_zero _ _ _ _ Hrel Hb) in Hrb. discriminate. }
      destruct HR1 as [HR1 HAN].
      assert (Hall : forall b' x, blocks s !! b' = Some x ->
                rounds x = flips s /\ arrived_pc (pc x) = true).
      { intros b' x H. apply arrived_in_rounds.
        apply (count_if_full _ (blocks s) b'); [lia|exact H]. }
      assert (Hnew : forall b' x,
                <[b := mkBlock (Poll tmp 0) (flips s)]> (blocks s) !! b' = Some x ->
                rounds x = flips s).
      { intros b' x H. at_block b Hne H; [reflexivity|]. apply (Hall _ _ H). }
      assert (HA0 : count_if (arrived_in (S (flips s)))
                      (<[b := mkBlock (Poll tmp 0) (flips s)]> (blocks s)) = 0).
      { apply count_if_none. intros b' [p r] H. apply Hnew in H. simpl in H. subst r.
        apply arrived_in_other. lia. }
      assert (HR0 : count_if (releasing_in (S (flips s)))
                      (<[b := mkBlock (Poll tmp 0) (flips s)]> (blocks s)) = 0).
      { apply count_if_none. intros b' [p r] H. apply Hnew in H. simpl in H. subst r.
        apply releasing_in_other. lia. }
      constructor; simpl.
      * rewrite length_insert. exact Hlen.
      * rewrite Ht. unfold target_of. apply release_value_target.
      * intros b' x H. right. at_block b Hne H.
        { simpl. split; [reflexivity|]. split; [exact Ht|apply spin_ok_0]. }
        destruct (Hall _ _ H) as [Hrx Hax]. split; [congruence|].
        destruct (Hbl _ _ H) as [[_ Hc]|[Hr' _]]; [|lia].
        destruct x as [px rx]. simpl in *. subst rx.
        destruct px; simpl in *; try discriminate; auto.
        split; [exact Hc|]. intros Eo.
        apply Hne. apply (count_if_one (releasing_in (flips s)) (blocks s) _ _ _ _
                               ltac:(lia) H ltac:(rewrite releasing_in_same; apply Z.eqb_eq; exact Eo)
                               Hb Hrb).
      * rewrite HA0. rewrite Hcnt, HAN, Nat.eqb_refl.
        destruct (Nat.eqb_spec 0 N); reflexivity.
      * rewrite HA0, HR0. destruct (Nat.eqb_spec 0 N); [lia|reflexivity].
      * right. intros b' x H. f_equal. apply (Hnew _ _ H).
    + (* any other block goes on to poll *)
      unfold set_pc.
      apply (Inv_move s b _ (mkBlock (Poll tmp 0) k) _ _ HI Hb); auto.
      * destruct Hok as [[Hr Ht]|[Hr [Ht _]]]; [left|right]; simpl in *;
          auto using spin_ok_0.
      * unfold releasing_in. simpl. apply Z.eqb_neq in Nold. rewrite Nold.
        rewrite !andb_false_r. reflexivity.
  - (* Poll *)
    unfold emit, set_pc.
    destruct Hok as [[Hr [Ht Hs]]|[Hr [Ht Hs]]]; simpl in Hr, Ht.
    + (* still waiting for this round's store *)
      rewrite (inv_flag s HI), Ht. unfold target_of. rewrite poll_cond_waiting.
      unfold POLL_MAYBE_JAILBREAK.
      destruct (Z.leb_spec 0 maxSpinCount) as [Hm|Hm];
        [destruct (Z.eqb_spec spin maxSpinCount) as [Es|Ns]|].
      * apply (Inv_move s b _ (mkBlock Trapped k) _ _ HI Hb); auto.
        left. simpl. auto.
      * apply (Inv_move s b _ (mkBlock (Poll _ (spin + 1)) k) _ _ HI Hb); auto.
        left. simpl. repeat split; auto; unfold spin_ok in *; lia.
      * apply (Inv_move s b _ (mkBlock (Poll _ spin) k) _ _ HI Hb); auto.
        left. simpl. auto.
    + (* released *)
      rewrite (inv_flag s HI), Ht, poll_cond_released. simpl.
      apply (Inv_move s b _ (mkBlock (Leave _) k) _ _ HI Hb); auto.
      * right. simpl. auto.
      * rewrite !arrived_in_other by lia. reflexivity.
  - (* Leave *)
    destruct Hok as [[_ []]|[Hr Ht]]. simpl in Hr, Ht.
    unfold emit, set_pc, syncthreads, set_cell, set_syncer; simpl.
    destruct HI as [Hlen Hflag Hbl Hcnt Hrel Hsense].
    pose proof (count_if_insert (arrived_in (flips s)) _ _ _ (mkBlock Work (S k)) Hb) as EA.
    pose proof (count_if_insert (releasing_in (flips s)) _ _ _ (mkBlock Work (S k)) Hb) as ER.
    rewrite arrived_in_other in EA by lia. rewrite releasing_in_other in ER by lia.
    rewrite Hr in EA, ER. rewrite arrived_in_same in EA. rewrite releasing_in_same in ER.
    simpl in EA, ER. rewrite Hr.
    constructor; simpl.
    * rewrite length_insert. exact Hlen.
    * exact Hflag.
    * intros b' x H. at_block b Hne H; [|eauto]. left. simpl. auto.
    * replace (count_if (arrived_in (flips s)) (<[b:=mkBlock Work (flips s)]> (blocks s)))
        with (count_if (arrived_in (flips s)) (blocks s)) by lia.
      exact Hcnt.
    * replace (count_if (arrived_in (flips s)) (<[b:=mkBlock Work (flips s)]> (blocks s)))
        with (count_if (arrived_in (flips s)) (blocks s)) by lia.
      replace (count_if (releasing_in (flips s)) (<[b:=mkBlock Work (flips s)]> (blocks s)))
        with (count_if (releasing_in (flips s)) (blocks s)) by lia.
      exact Hrel.
    * left. exact Ht.
  - exact HI.
Qed.


Lemma Inv_run sched s : Inv s -> Inv (run (Z.of_nat N) maxSpinCount sched s).
Proof.
  revert s. induction sched as [|b sched IH]; intros s H; simpl; [exact H|].
  apply IH, Inv_step, H.
Qed.


(** Program order: a block that has reached a stage of a call has emitted
    the event of that stage. *)
Record Logged (s : kernel) : Prop := mkLogged {
  log_write : forall b bl k, blocks s !! b = Some bl -> reached bl k 1 ->
              List.In (EvWrite b k) (trace s);
  log_call : forall b bl k, blocks s !! b = Some bl -> reached bl k 2 ->
             List.In (EvCall b k) (trace s);
  log_arrive : forall b bl k, blocks s !! b = Some bl -> reached bl k 4 ->
               exists old, List.In (EvArrive b k old) (trace s);
  log_old : forall b tmp old k, blocks s !! b = Some (mkBlock (GotOld tmp old) k) ->
            List.In (EvArrive b k old) (trace s)
}.

Ltac logged_old old :=
  let H0 := fresh "H0" in let Hne := fresh "Hne" in
  intros ? ? ? ? H0;
  first
    [ destruct (decide_lookup_insert _ _ _ _ _ H0) as [[-> H0']|[Hne H0']];
      [ first [ discriminate H0' | injection H0' as <- <- <-; simpl; left; reflexivity ]
      | simpl; first [ right | idtac ]; eapply old; exact H0' ]
    | eapply old; exact H0 ].

Ltac logged_field Hb old :=
  let b0 := fresh "b0" in let bl0 := fresh "bl0" in let k0 := fresh "k0" in
  let H0 := fresh "H0" in let Hr := fresh "Hr" in let Hne := fresh "Hne" in
  intros b0 bl0 k0 H0 Hr;
  at_block_somewhere H0 Hne;
  [ unfold reached in Hr; simpl in Hr;
    destruct Hr as [Hr|[Hr ?]];
    first
      [ destruct (old _ _ k0 Hb ltac:(unfold reached; simpl; lia)) as [? ?];
        eexists; simpl; eauto
      | eexists; simpl; left; f_equal; lia
      | simpl; first [ right | idtac ]; eapply old;
        [exact Hb | unfold reached; simpl; lia]
      | simpl; left; f_equal; lia ]
  | first
      [ destruct (old _ _ k0 H0 Hr) as [? ?]; eexists; simpl; eauto
      | simpl; first [ right | idtac ]; eapply old; eassumption ] ].

Lemma Logged_step b s : Logged s -> Logged (sync_step (Z.of_nat N) maxSpinCount b s).
Proof.
  intros [Hw Hc Ha Ho]. unfold sync_step.
  destruct (blocks s !! b) as [[p k]|] eqn:Hb; [|constructor; assumption].
  destruct p; simpl pc; simpl rounds; cbv iota.
  - constructor; simpl; [logged_field Hb Hw|logged_field Hb Hc|logged_field Hb Ha|logged_old Ho].
  - destruct (Z.eqb_spec (Z.of_nat N) 1) as [E|_]; [lia|].
    constructor; simpl; [logged_field Hb Hw|logged_field Hb Hc|logged_field Hb Ha|logged_old Ho].
  - constructor; simpl; [logged_field Hb Hw|logged_field Hb Hc|logged_field Hb Ha|logged_old Ho].
  - unfold atomicInc.
    constructor; simpl; [logged_field Hb Hw|logged_field Hb Hc|logged_field Hb Ha|logged_old Ho].
  - destruct (old =? maxOldCnt (Z.of_nat N))%Z;
    constructor; simpl; [logged_field Hb Hw|logged_field Hb Hc|logged_field Hb Ha|logged_old Ho
                        |logged_field Hb Hw|logged_field Hb Hc|logged_field Hb Ha|logged_old Ho].
  - destruct (POLL_MAYBE_JAILBREAK _ _ _);
    constructor; simpl; [logged_field Hb Hw|logged_field Hb Hc|logged_field Hb Ha|logged_old Ho
                        |logged_field Hb Hw|logged_field Hb Hc|logged_field Hb Ha|logged_old Ho
                        |logged_field Hb Hw|logged_field Hb Hc|logged_field Hb Ha|logged_old Ho].
  - constructor; simpl; [logged_field Hb Hw|logged_field Hb Hc|logged_field Hb Ha|logged_old Ho].
  - constructor; assumption.
Qed.


Lemma Logged_launch d n : Logged (launch d n).
Proof.
  constructor; simpl;
    try (intros b bl k H Hr; apply lookup_replicate in H as [-> _];
         unfold reached in Hr; simpl in Hr; lia).
  intros b tmp old k H. apply lookup_replicate in H as [H _]. discriminate H.
Qed.

(** What the events of a trace say about the protocol. *)
Record History (s : kernel) : Prop := mkHistory {
  h_target : forall b k t, List.In (EvTarget b k t) (trace s) -> t = target_of k;
  h_observe : forall b k v, List.In (EvObserve b k v) (trace s) -> v = target_of k;
  h_setflag : forall b k v, List.In (EvSetFlag b k v) (trace s) ->
              List.In (EvArrive b k (Z.of_nat N - 1)) (trace s) /\ v = target_of k;
  h_rounds : set_rounds (trace s) = List.rev (List.seq 0 (flips s));
  h_last : forall b k, List.In (EvArrive b k (Z.of_nat N - 1)) (trace s) ->
           (exists v, List.In (EvSetFlag b k v) (trace s)) \/
           (k = flips s /\
            exists bl, blocks s !! b = Some bl /\ releasing_in (flips s) bl = true);
  h_range : forall b k old, List.In (EvArrive b k old) (trace s) ->
            (0 <= old <= Z.of_nat N - 1)%Z;
  h_return : forall b k, List.In (EvReturn b k) (trace s) -> k < flips s;
  h_before : forall suf pre b k, trace s = suf ++ EvReturn b k :: pre ->
             forall b', b' < N ->
             List.In (EvWrite b' k) pre /\ List.In (EvCall b' k) pre /\
             exists old, List.In (EvArrive b' k old) pre
}.

Lemma History_launch d n : History (launch d n).
Proof.
  constructor; simpl; try tauto; try reflexivity.
  intros [|e suf] pre b k H; discriminate H.
Qed.

(** A hypothesis on the members of [e :: tr] whose new member is a
    different kind of event. *)
Ltac old_event H :=
  simpl in H; try (destruct H as [H|H]; [discriminate H|]).

Lemma cons_split_old (e : event) tr suf pre b k :
  e :: tr = suf ++ EvReturn b k :: pre ->
  (forall b' k', e <> EvReturn b' k') ->
  exists suf', suf = e :: suf' /\ tr = suf' ++ EvReturn b k :: pre.
Proof.
  intros H Hne. destruct suf as [|e' suf'].
  - simpl in H. injection H as H _. destruct (Hne _ _ H).
  - simpl in H. injection H as <- H. exists suf'. auto.
Qed.

(** The part of [History] that a step keeps when it moves a block that is
    not about to store to [flag_] and emits no [EvArrive], [EvSetFlag] or
    [EvReturn]. *)
Lemma h_last_frame s b bl bl' :
  Inv s -> blocks s !! b = Some bl -> releasing_in (flips s) bl = false ->
  forall b1 k,
  ((exists v, List.In (EvSetFlag b1 k v) (trace s)) \/
   (k = flips s /\
    exists bl1, blocks s !! b1 = Some bl1 /\ releasing_in (flips s) bl1 = true)) ->
  (exists v, List.In (EvSetFlag b1 k v) (trace s)) \/
  (k = flips s /\
   exists bl1, <[b := bl']> (blocks s) !! b1 = Some bl1 /\
               releasing_in (flips s) bl1 = true).
Proof.
  intros HI Hb Hnr b1 k [H|[Hk (bl1 & H1 & Hr1)]]; [left; exact H|right].
  split; [exact Hk|]. exists bl1. split; [|exact Hr1].
  rewrite list_lookup_insert_ne; [exact H1|].
  intros <-. congruence.
Qed.


(** Events that say nothing about arrivals, stores to [flag_] or returns,
    and carry the value the round prescribes. *)
Definition quiet (e : event) : Prop :=
  match e with
  | EvWrite _ _ | EvCall _ _ | EvTrap _ _ => True
  | EvTarget _ k t => t = target_of k
  | EvObserve _ k v => v = target_of k
  | EvArrive _ _ _ | EvSetFlag _ _ _ | EvReturn _ _ => False
  end.

Lemma History_silent s b bl bl' d' dat' :
  Inv s -> History s -> blocks s !! b = Some bl ->
  releasing_in (flips s) bl = false ->
  History (mkKernel d' (<[b := bl']> (blocks s)) dat' (flips s) (trace s)).
Proof.
  intros HI [Ht Ho Hs Hr Hl Hg Hret Hbef] Hb Hnr.
  constructor; simpl; auto.
  intros b1 k H. apply (h_last_frame s b bl bl' HI Hb Hnr), Hl, H.
Qed.

Lemma History_quiet s b bl bl' d' dat' e :
  Inv s -> History s -> blocks s !! b = Some bl ->
  releasing_in (flips s) bl = false -> quiet e ->
  History (mkKernel d' (<[b := bl']> (blocks s)) dat' (flips s) (e :: trace s)).
Proof.
  intros HI [Ht Ho Hs Hr Hl Hg Hret Hbef] Hb Hnr Hq.
  constructor; simpl.
  - intros b1 k t [->|H]; [exact Hq|eauto].
  - intros b1 k v [->|H]; [exact Hq|eauto].
  - intros b1 k v [->|H]; [destruct Hq|].
    destruct (Hs _ _ _ H). auto.
  - destruct e; simpl in *; try exact Hr; destruct Hq.
  - intros b1 k [->|H]; [destruct Hq|].
    destruct (h_last_frame s b bl bl' HI Hb Hnr b1 k (Hl _ _ H)) as [[v Hv]|Hx];
      [left; exists v; right; exact Hv|right; exact Hx].
  - intros b1 k old [->|H]; [destruct Hq|eauto].
  - intros b1 k [->|H]; [destruct Hq|eauto].
  - intros suf pre b1 k H.
    destruct (cons_split_old _ _ _ _ _ _ H) as (suf' & -> & H').
    + intros b' k' ->. destruct Hq.
    + eauto.
Qed.


Lemma Inv_count_range s :
  Inv s -> (0 <= count_ (syncer s) <= Z.of_nat N - 1)%Z.
Proof.
  intros HI. rewrite (inv_count s HI).
  pose proof (count_if_le (arrived_in (flips s)) (blocks s)) as Hle.
  rewrite (inv_len s HI) in Hle.
  destruct (Nat.eqb_spec (count_if (arrived_in (flips s)) (blocks s)) N); lia.
Qed.

Lemma reached_le bl k n m : m <= n -> reached bl k n -> reached bl k m.
Proof. unfold reached. lia. Qed.

(** When a block is about to leave round [k], every block has arrived in
    round [k]. *)
Lemma all_arrived_at_leave s b tmp k :
  Inv s -> blocks s !! b = Some (mkBlock (Leave tmp) k) ->
  forall b', b' < N -> exists bl', blocks s !! b' = Some bl' /\ reached bl' k 4.
Proof.
  intros HI Hb b' Hb'.
  destruct (inv_blocks s HI _ _ Hb) as [[_ []]|[Hr _]]. simpl in Hr.
  destruct (lookup_lt_is_Some_2 (blocks s) b') as [bl' Hbl'];
    [rewrite (inv_len s HI); exact Hb'|].
  exists bl'. split; [exact Hbl'|].
  destruct (inv_blocks s HI _ _ Hbl') as [[Hr' _]|[Hr' Hp]]; unfold reached.
  - left. lia.
  - right. split; [lia|]. destruct (pc bl'); simpl in *; try lia; destruct Hp.
Qed.

Lemma History_step b s :
  Inv s -> Logged s -> History s -> History (sync_step (Z.of_nat N) maxSpinCount b s).
Proof.
  intros HI HL HH. unfold sync_step.
  destruct (blocks s !! b) as [[p k]|] eqn:Hb; [|exact HH].
  pose proof (inv_blocks s HI b _ Hb) as Hok.
  destruct p; simpl pc; simpl rounds; cbv iota.
  - (* Work *)
    apply (History_quiet s b _ _ _ _ _ HI HH Hb); [|exact I].
    unfold releasing_in. simpl. apply andb_false_r.
  - (* AtCall *)
    destruct (Z.eqb_spec (Z.of_nat N) 1) as [E|_]; [lia|].
    apply (History_quiet s b _ _ _ _ _ HI HH Hb); [|exact I].
    unfold releasing_in. simpl. apply andb_false_r.
  - (* Entered *)
    apply (History_quiet s b _ _ _ _ _ HI HH Hb).
    + unfold releasing_in. simpl. apply andb_false_r.
    + simpl. destruct Hok as [[Hr _]|[_ []]]. simpl in Hr. subst k.
      destruct (inv_sense s HI) as [Hs|Hs].
      * rewrite Hs. unfold target_of. rewrite flag_after_S. reflexivity.
      * specialize (Hs b _ Hb). simpl in Hs. lia.
  - (* HaveTmp *)
    destruct Hok as [[Hr Ht]|[_ []]]. simpl in Hr, Ht. subst k.
    unfold atomicInc, emit, set_pc, set_syncer. simpl.
    destruct HH as [Ht' Ho Hs Hrd Hl Hg Hret Hbef].
    assert (Hnr : releasing_in (flips s) (mkBlock (HaveTmp tmp) (flips s)) = false)
      by (unfold releasing_in; simpl; apply andb_false_r).
    constructor; simpl.
    + intros b1 k t H. old_event H. eauto.
    + intros b1 k v H. old_event H. eauto.
    + intros b1 k v H. old_event H. destruct (Hs _ _ _ H). auto.
    + exact Hrd.
    + intros b1 k [H|H].
      * injection H as <- <- Hc. right. split; [reflexivity|].
        eexists. split.
        -- apply list_lookup_insert_eq. eapply lookup_lt_Some. exact Hb.
        -- rewrite releasing_in_same. apply Z.eqb_eq. exact Hc.
      * destruct (h_last_frame s b _ (mkBlock (GotOld tmp (count_ (syncer s))) (flips s))
                    HI Hb Hnr b1 k (Hl _ _ H)) as [[v Hv]|Hx];
          [left; exists v; right; exact Hv|right; exact Hx].
    + intros b1 k old [H|H]; [|eauto].
      injection H as <- <- <-. apply Inv_count_range, HI.
    + intros b1 k H. old_event H. eauto.
    + intros suf pre b1 k H.
      destruct (cons_split_old _ _ _ _ _ _ H) as (suf' & -> & H'); [discriminate|eauto].
  - (* GotOld *)
    rewrite maxOldCnt_N.
    destruct (Z.eqb_spec old (Z.of_nat N - 1)) as [Eold|Nold].
    + destruct Hok as [[Hr Ht]|[_ [_ Hne]]]; [|contradiction].
      simpl in Hr, Ht. subst k.
      unfold emit, count_flip, set_pc, set_syncer. simpl.
      destruct HH as [Ht' Ho Hs Hrd Hl Hg Hret Hbef].
      assert (Hrb : releasing_in (flips s) (mkBlock (GotOld tmp old) (flips s)) = true)
        by (rewrite releasing_in_same; apply Z.eqb_eq; exact Eold).
      assert (HR1 : count_if (releasing_in (flips s)) (blocks s) <= 1)
        by (rewrite (inv_rel s HI); destruct (Nat.eqb _ N); lia).
      constructor; cbn [trace flips blocks syncer data set_rounds].
      * intros b1 k t H. old_event H. eauto.
      * intros b1 k v H. old_event H. eauto.
      * intros b1 k v [H|H].
        -- injection H as <- <- <-. split.
           ++ right. rewrite <- Eold. apply (log_old s HL _ _ _ _ Hb).
           ++ rewrite Ht. unfold target_of. apply release_value_target.
        -- destruct (Hs _ _ _ H). split; [right; assumption|assumption].
      * rewrite rev_seq_S, Hrd. reflexivity.
      * intros b1 k H. old_event H. left.
        destruct (Hl _ _ H) as [[v Hv]|[Hk (bl1 & H1 & Hr1)]].
        -- exists v. right. exact Hv.
        -- subst k. rewrite (count_if_one _ _ _ _ _ _ HR1 H1 Hr1 Hb Hrb).
           eexists. left. reflexivity.
      * intros b1 k old' H. old_event H. eauto.
      * intros b1 k H. old_event H. specialize (Hret _ _ H). lia.
      * intros suf pre b1 k H.
        destruct (cons_split_old _ _ _ _ _ _ H) as (suf' & -> & H'); [discriminate|eauto].
    + apply (History_silent s b _ _ _ _ HI HH Hb).
      unfold releasing_in. simpl. apply Z.eqb_neq in Nold. rewrite Nold.
      apply andb_false_r.
  - (* Poll *)
    assert (Hnr : releasing_in (flips s) (mkBlock (Poll tmp spin) k) = false)
      by (unfold releasing_in; simpl; apply andb_false_r).
    destruct Hok as [[Hr [Ht Hs]]|[Hr [Ht Hs]]]; simpl in Hr, Ht.
    + rewrite (inv_flag s HI), Ht. unfold target_of. rewrite poll_cond_waiting.
      unfold POLL_MAYBE_JAILBREAK.
      destruct (0 <=? maxSpinCount)%Z; [destruct (spin =? maxSpinCount)%Z|].
      * apply (History_quiet s b _ _ _ _ _ HI HH Hb Hnr). exact I.
      * apply (History_silent s b _ _ _ _ HI HH Hb Hnr).
      * apply (History_silent s b _ _ _ _ HI HH Hb Hnr).
    + rewrite (inv_flag s HI), Ht, poll_cond_released. simpl.
      apply (History_quiet s b _ _ _ _ _ HI HH Hb Hnr).
      simpl. unfold target_of. rewrite Hr. reflexivity.
  - (* Leave *)
    pose proof (all_arrived_at_leave s b tmp k HI Hb) as Hall.
    destruct Hok as [[_ []]|[Hr Ht]]. simpl in Hr, Ht.
    unfold emit, set_pc, set_syncer. simpl.
    destruct HH as [Ht' Ho Hs Hrd Hl Hg Hret Hbef].
    assert (Hnr : releasing_in (flips s) (mkBlock (Leave tmp) k) = false)
      by (unfold releasing_in; simpl; apply andb_false_r).
    constructor; simpl.
    + intros b1 k1 t H. old_event H. eauto.
    + intros b1 k1 v H. old_event H. eauto.
    + intros b1 k1 v H. old_event H. destruct (Hs _ _ _ H). auto.
    + exact Hrd.
    + intros b1 k1 H. old_event H.
      destruct (h_last_frame s b _ (mkBlock Work (S k)) HI Hb Hnr b1 k1 (Hl _ _ H))
        as [[v Hv]|Hx]; [left; exists v; right; exact Hv|right; exact Hx].
    + intros b1 k1 old' H. old_event H. eauto.
    + intros b1 k1 [H|H]; [injection H as <- <-; lia|eauto].
    + intros [|e suf] pre b1 k1 H; simpl in H.
      * injection H as <- <- <-. intros b' Hb'.
        destruct (Hall b' Hb') as (bl' & Hbl' & Hre).
        repeat split.
        -- apply (log_write s HL _ _ _ Hbl'). apply (reached_le _ _ 4); [lia|exact Hre].
        -- apply (log_call s HL _ _ _ Hbl'). apply (reached_le _ _ 4); [lia|exact Hre].
        -- apply (log_arrive s HL _ _ _ Hbl' Hre).
      * injection H as _ H. eauto.
  - exact HH.
Qed.


(** ** Progress *)

(** Position of a block in its endless sequence of calls: [spin_room]
    positions are reserved for the iterations of the poll. *)
Definition spin_room : nat := Z.to_nat maxSpinCount.

Definition pos_pc (p : pc_t) : nat :=
  match p with
  | Work => 0
  | AtCall => 1
  | Entered => 2
  | HaveTmp _ => 3
  | GotOld _ _ => 4
  | Poll _ c => 5 + Z.to_nat c
  | Leave _ => 6 + spin_room
  | Trapped => 7 + spin_room
  end.

Definition pos (bl : block) : nat := rounds bl * (8 + spin_room) + pos_pc (pc bl).

Definition total (s : kernel) : nat := total_of pos (blocks s).

(** A block whose next step changes the kernel. *)
Definition can_move (s : kernel) (bl : block) : bool :=
  match pc bl with
  | Poll tmp _ => negb (poll_cond tmp (flag_ (syncer s))) || (0 <=? maxSpinCount)%Z
  | Trapped => false
  | _ => true
  end.

Lemma total_set_pc b p k s bl :
  blocks s !! b = Some bl -> pos bl < pos (mkBlock p k) ->
  total s < total (set_pc b p k s).
Proof.
  intros Hb Hlt. unfold total, set_pc. simpl.
  pose proof (total_of_insert pos _ _ _ (mkBlock p k) Hb). lia.
Qed.

Lemma pos_lt p q k : pos_pc p < pos_pc q -> pos (mkBlock p k) < pos (mkBlock q k).
Proof. intros H. unfold pos. cbn [pc rounds]. apply Nat.add_lt_mono_l, H. Qed.



Lemma can_move_progress b s bl :
  Inv s -> blocks s !! b = Some bl -> can_move s bl = true ->
  total s < total (sync_step (Z.of_nat N) maxSpinCount b s).
Proof.
  intros HI Hb Hc. unfold sync_step. rewrite Hb.
  pose proof (inv_blocks s HI _ _ Hb) as Hok.
  destruct bl as [p k]. unfold can_move in Hc. simpl in Hc.
  destruct p; simpl pc; simpl rounds; cbv iota.
  - apply (total_set_pc b _ _ (store_data b (S k) s) _ Hb). apply pos_lt. cbn [pos_pc]. lia.
  - destruct (Z.eqb_spec (Z.of_nat N) 1) as [E|_]; [lia|].
    apply (total_set_pc b _ _ s _ Hb). apply pos_lt. cbn [pos_pc]. lia.
  - apply (total_set_pc b _ _ s _ Hb). apply pos_lt. cbn [pos_pc]. lia.
  - unfold atomicInc.
    apply (total_set_pc b _ _ (set_syncer _ s) _ Hb). apply pos_lt. cbn [pos_pc]. lia.
  - destruct (old =? maxOldCnt (Z.of_nat N))%Z.
    + apply (total_set_pc b _ _ (set_syncer _ s) _ Hb). apply pos_lt. cbn [pos_pc]. lia.
    + apply (total_set_pc b _ _ s _ Hb). apply pos_lt. cbn [pos_pc]. lia.
  - assert (Hs : spin_ok spin)
      by (destruct Hok as [[_ [_ Hs]]|[_ [_ Hs]]]; exact Hs).
    destruct Hs as (Hs0 & Hs1 & Hs2).
    unfold POLL_MAYBE_JAILBREAK.
    destruct (poll_cond tmp (flag_ (syncer s))); simpl in Hc.
    + destruct (Z.leb_spec 0 maxSpinCount) as [Hm|Hm]; [|discriminate Hc].
      destruct (Z.eqb_spec spin maxSpinCount) as [Es|Ns].
      * apply (total_set_pc b _ _ s _ Hb). apply pos_lt. cbn [pos_pc]. unfold spin_room. lia.
      * apply (total_set_pc b _ _ s _ Hb). apply pos_lt. cbn [pos_pc]. unfold spin_room. lia.
    + apply (total_set_pc b _ _ s _ Hb). apply pos_lt. cbn [pos_pc]. unfold spin_room. lia.
  - apply (total_set_pc b _ _ (syncthreads b (set_syncer _ s)) _ Hb).
    unfold pos. cbn [pc rounds pos_pc]. lia.
  - discriminate Hc.
Qed.

(** Unless a block has trapped, some block can move: the barrier never
    deadlocks. *)
Lemma some_can_move s :
  Inv s ->
  (exists b bl, blocks s !! b = Some bl /\ pc bl = Trapped) \/
  (exists b bl, blocks s !! b = Some bl /\ can_move s bl = true).
Proof.
  intros HI.
  destruct (find_block (can_move s) (blocks s)) as [H|Hnone]; [right; exact H|].
  destruct (find_block (fun bl => match pc bl with Trapped => true | _ => false end)
              (blocks s)) as [(b & bl & Hb & Ht)|Hnt].
  { left. exists b, bl. split; [exact Hb|]. destruct (pc bl); try discriminate Ht.
    reflexivity. }
  exfalso.
  (* every block polls and sees the old value of the flag *)
  assert (Hall : forall b bl, blocks s !! b = Some bl ->
                 arrived_in (flips s) bl = true /\ releasing_in (flips s) bl = false).
  { intros b bl Hb. specialize (Hnone _ _ Hb). specialize (Hnt _ _ Hb).
    pose proof (inv_blocks s HI _ _ Hb) as Hok.
    destruct bl as [p k]. unfold can_move in Hnone. simpl in *.
    destruct p; try discriminate.
    apply orb_false_iff in Hnone as [Hc _]. apply negb_false_iff in Hc.
    destruct Hok as [[Hr _]|[Hr [Ht _]]]; simpl in *.
    - subst k. rewrite arrived_in_same, releasing_in_same. auto.
    - rewrite (inv_flag s HI), Ht, poll_cond_released in Hc. discriminate. }
  assert (HA : count_if (arrived_in (flips s)) (blocks s) = N).
  { rewrite <- (inv_len s HI). apply count_if_all.
    intros b bl Hb. apply (Hall b bl Hb). }
  pose proof (inv_rel s HI) as HR. rewrite HA, Nat.eqb_refl in HR.
  destruct (count_if_pos (releasing_in (flips s)) (blocks s)) as (b & bl & Hb & Hr); [lia|].
  destruct (Hall _ _ Hb) as [_ Hr']. congruence.
Qed.







Lemma rounds_close s b bl b' bl' :
  Inv s -> blocks s !! b = Some bl -> blocks s !! b' = Some bl' ->
  rounds bl' <= rounds bl + 1.
Proof.
  intros HI Hb Hb'.
  destruct (inv_blocks s HI _ _ Hb) as [[Hr _]|[Hr _]],
           (inv_blocks s HI _ _ Hb') as [[Hr' _]|[Hr' _]]; lia.
Qed.



(** The three invariants together, and their preservation. *)
Definition Sound (s : kernel) : Prop := Inv s /\ Logged s /\ History s.

Lemma Sound_launch : Sound (launch zeroed N).
Proof. split; [apply Inv_launch|split; [apply Logged_launch|apply History_launch]]. Qed.

Lemma Sound_step b s : Sound s -> Sound (sync_step (Z.of_nat N) maxSpinCount b s).
Proof.
  intros (HI & HL & HH).
  split; [apply Inv_step, HI|split; [apply Logged_step, HL|apply History_step; assumption]].
Qed.

Lemma Sound_run sched s : Sound s -> Sound (run (Z.of_nat N) maxSpinCount sched s).
Proof.
  revert s. induction sched as [|b sched IH]; intros s H; simpl; [exact H|].
  apply IH, Sound_step, H.
Qed.

End Protocol.


(** ** The barrier, round after round *)

Lemma target_of_S k : target_of (S k) = Z.lxor (target_of k) 1.
Proof. unfold target_of. apply flag_after_S. Qed.

Lemma target_of_S_neq k : target_of (S k) <> target_of k.
Proof. unfold target_of. apply flag_after_S_neq. Qed.


(** ** What the blocks see of each other's stores *)















Lemma Arrived_launch d n : Arrived (launch d n).
Proof. intros b k old H. destruct H. Qed.

(** Once every block has done the [atomicInc] of round [k], one of them has
    seen it return [N - 1]. *)
Lemma full_round_has_releaser N maxSpinCount s k :
  2 <= N ->
  Inv N maxSpinCount s -> Logged s -> History N s -> Arrived s ->
  (forall b, b < N -> exists old, List.In (EvArrive b k old) (trace s)) ->
  exists r, List.In (EvArrive r k (Z.of_nat N - 1)) (trace s).
Proof.
  intros HN HI HL HH HA Hall.
  destruct (le_lt_dec (flips s) k) as [Hge|Hlt].
  - (* the round in progress: every block is waiting in it *)
    assert (Hin : forall b bl, blocks s !! b = Some bl ->
                  arrived_in (flips s) bl = true /\ k = flips s).
    { intros b bl Hb.
      assert (HbN : b < N)
        by (rewrite <- (inv_len _ _ s HI); eapply lookup_lt_Some; exact Hb).
      destruct (Hall b HbN) as (old & Ho).
      destruct (HA _ _ _ Ho) as (bl' & Hb' & Hr).
      assert (bl' = bl) by congruence. subst bl'.
      destruct bl as [p r]. unfold reached in Hr. simpl in Hr.
      destruct (inv_blocks _ _ s HI _ _ Hb) as [[Hrd Hp]|[Hrd Hp]]; simpl in Hrd, Hp.
      - assert (k = r /\ 4 <= stage p) as [-> Hst] by lia.
        split; [|exact Hrd]. subst r. rewrite arrived_in_same.
        destruct p; simpl in *; try lia; try reflexivity; try contradiction.
      - lia. }
    assert (HAN : count_if (arrived_in (flips s)) (blocks s) = N).
    { rewrite <- (inv_len _ _ s HI). apply count_if_all.
      intros b bl Hb. apply (Hin b bl Hb). }
    pose proof (inv_rel _ _ s HI) as HR. rewrite HAN, Nat.eqb_refl in HR.
    destruct (count_if_pos (releasing_in N (flips s)) (blocks s)) as (r & bl & Hb & Hr);
      [lia|].
    destruct (Hin _ _ Hb) as [_ ->].
    exists r. destruct bl as [p rd]. unfold releasing_in in Hr. simpl in Hr.
    apply andb_true_iff in Hr as [Hrd Hp]. apply Nat.eqb_eq in Hrd. subst rd.
    destruct p; try discriminate Hp. apply Z.eqb_eq in Hp. subst old.
    apply (log_old s HL _ _ _ _ Hb).
  - (* a round that has been released *)
    assert (Hk : List.In k (set_rounds (trace s)))
      by (rewrite (h_rounds _ _ HH); apply In_rev_seq; exact Hlt).
    destruct (set_rounds_In_inv _ _ Hk) as (r & v & Hr).
    exists r. apply (h_setflag _ _ HH _ _ _ Hr).
Qed.

(** C3.  In a kernel of [N > 1] blocks that all call [sync(N, _)] round
    after round on a zero-filled [DeviceSyncer], after every schedule:
    [count_] is in [0, N-1] and [atomicInc] at [N-1] stores 0; every value an
    [atomicInc] returned is in [0, N-1]; in each round at most one block saw
    its [atomicInc] return [N-1], and there is one as soon as all [N] blocks
    have done the [atomicInc] of the round, hence in every round from which
    a block has returned; a block stores to [flag_] only in a round in which
    its own [atomicInc] returned [N-1]; and no round has two stores to
    [flag_]. *)
Theorem one_releaser_per_round (N : nat) (maxSpinCount : Z) (sched : list nat) :
  2 <= N -> (Z.of_nat N < 2 ^ 31)%Z ->
  let s := run (Z.of_nat N) maxSpinCount sched (launch zeroed N) in
  (0 <= count_ (syncer s) <= Z.of_nat N - 1)%Z /\
  atomicInc (Z.of_nat N - 1) (maxOldCnt (Z.of_nat N)) = (0%Z, (Z.of_nat N - 1)%Z) /\
  (forall b k old, List.In (EvArrive b k old) (trace s) ->
     (0 <= old <= Z.of_nat N - 1)%Z) /\
  (forall b b' k,
     List.In (EvArrive b k (Z.of_nat N - 1)) (trace s) ->
     List.In (EvArrive b' k (Z.of_nat N - 1)) (trace s) -> b = b') /\
  (forall k,
     (forall b, b < N -> exists old, List.In (EvArrive b k old) (trace s)) ->
     exists r, List.In (EvArrive r k (Z.of_nat N - 1)) (trace s)) /\
  (forall b k, List.In (EvReturn b k) (trace s) ->
     exists r, List.In (EvArrive r k (Z.of_nat N - 1)) (trace s)) /\
  (forall b k v, List.In (EvSetFlag b k v) (trace s) ->
     List.In (EvArrive b k (Z.of_nat N - 1)) (trace s)) /\
  (forall l1 l2 b k v, trace s = l1 ++ EvSetFlag b k v :: l2 ->
     (forall b' v', ~ List.In (EvSetFlag b' k v') l1) /\
     (forall b' v', ~ List.In (EvSetFlag b' k v') l2)).
Proof.
  intros HN HNint s.
  destruct (Sound_run N maxSpinCount HN HNint sched _ (Sound_launch N maxSpinCount HN HNint))
    as (HI & HL & HH). fold s in HI, HL, HH.
  assert (HA : Arrived s) by (apply Arrived_run, Arrived_launch).
  assert (Hnd : List.NoDup (set_rounds (trace s)))
    by (rewrite (h_rounds _ _ HH); apply rev_seq_NoDup).
  split; [apply (Inv_count_range N maxSpinCount HN s HI)|].
  split.
  { rewrite (maxOldCnt_N N HN HNint). unfold atomicInc.
    rewrite Z.leb_refl. reflexivity. }
  split; [apply (h_range _ _ HH)|].
  split.
  { intros b b' k H H'.
    destruct (h_last _ _ HH _ _ H) as [[v Hv]|[Hk (bl & Hb & Hr)]],
             (h_last _ _ HH _ _ H') as [[v' Hv']|[Hk' (bl' & Hb' & Hr')]].
    - apply (set_rounds_unique _ _ _ _ _ _ Hnd Hv Hv').
    - apply set_rounds_In in Hv. rewrite (h_rounds _ _ HH) in Hv.
      apply In_rev_seq in Hv. lia.
    - apply set_rounds_In in Hv'. rewrite (h_rounds _ _ HH) in Hv'.
      apply In_rev_seq in Hv'. lia.
    - apply (count_if_one (releasing_in N (flips s)) (blocks s) _ _ bl bl'); auto.
      rewrite (inv_rel _ _ s HI). destruct (Nat.eqb _ N); lia. }
  split.
  { intros k Hall.
    apply (full_round_has_releaser N maxSpinCount s k HN HI HL HH HA Hall). }
  split.
  { intros b k H. apply (h_return _ _ HH) in H.
    assert (Hin : List.In k (set_rounds (trace s))).
    { rewrite (h_rounds _ _ HH). apply In_rev_seq. exact H. }
    destruct (set_rounds_In_inv _ _ Hin) as (r & v & Hr).
    exists r. apply (h_setflag _ _ HH _ _ _ Hr). }
  split.
  { intros b k v H. apply (h_setflag _ _ HH _ _ _ H). }
  intros l1 l2 b k v H. apply (set_rounds_split l1 l2 b k v). rewrite <- H. exact Hnd.
Qed.

Lemma one_releaser_per_round_witness :
  2 <= 2 /\ (Z.of_nat 2 < 2 ^ 31)%Z /\
  forall b b' k,
    List.In (EvArrive b k (Z.of_nat 2 - 1))
      (trace (run (Z.of_nat 2) 5 [0;0;0;0;1;1;1;1;1;1;0;0;0;1] (launch zeroed 2))) ->
    List.In (EvArrive b' k (Z.of_nat 2 - 1))
      (trace (run (Z.of_nat 2) 5 [0;0;0;0;1;1;1;1;1;1;0;0;0;1] (launch zeroed 2))) ->
    b = b'.
Proof.
  assert (H1 : 2 <= 2) by lia.
  assert (H2 : (Z.of_nat 2 < 2 ^ 31)%Z) by reflexivity.
  split; [exact H1|split; [exact H2|]].
  exact (proj1 (proj2 (proj2 (proj2
           (one_releaser_per_round 2 5 [0;0;0;0;1;1;1;1;1;1;0;0;0;1] H1 H2))))).
Defined.

(** C4.  In the same kernel, after every schedule: the target a block
    computes for its call number [k] is [target_of k] (1, 0, 1, ...), and so
    is the value of [flag_] it reads when its poll of call [k] ends; the
    target of call [k + 1] is the complement ([^ 1]) of the value read at
    the end of call [k]; the values read at the end of two successive calls
    differ; a block between two calls finds in [isIncFlag_] the value that
    ended its previous call; and the step that leaves the poll stores the
    target into [isIncFlag_]. *)
Theorem flag_alternates (N : nat) (maxSpinCount : Z) (sched : list nat) :
  2 <= N -> (Z.of_nat N < 2 ^ 31)%Z ->
  let s := run (Z.of_nat N) maxSpinCount sched (launch zeroed N) in
  (forall b k t, List.In (EvTarget b k t) (trace s) -> t = target_of k) /\
  (forall b k v, List.In (EvObserve b k v) (trace s) -> v = target_of k) /\
  (forall b b' k t v,
     List.In (EvTarget b (S k) t) (trace s) -> List.In (EvObserve b' k v) (trace s) ->
     t = Z.lxor v 1 /\ t <> v) /\
  (forall b b' k v v',
     List.In (EvObserve b k v) (trace s) -> List.In (EvObserve b' (S k) v') (trace s) ->
     v' <> v) /\
  (forall b k, blocks s !! b = Some (mkBlock Entered (S k)) ->
     isIncFlag_ (syncer s) = target_of k) /\
  (forall b tmp k, blocks s !! b = Some (mkBlock (Leave tmp) k) ->
     tmp = target_of k /\
     isIncFlag_ (syncer (sync_step (Z.of_nat N) maxSpinCount b s)) = tmp).
Proof.
  intros HN HNint s.
  destruct (Sound_run N maxSpinCount HN HNint sched _ (Sound_launch N maxSpinCount HN HNint))
    as (HI & HL & HH). fold s in HI, HL, HH.
  split; [apply (h_target _ _ HH)|].
  split; [apply (h_observe _ _ HH)|].
  split.
  { intros b b' k t v Ht Hv.
    apply (h_target _ _ HH) in Ht. apply (h_observe _ _ HH) in Hv. subst t v.
    split; [apply target_of_S|apply target_of_S_neq]. }
  split.
  { intros b b' k v v' Hv Hv'.
    apply (h_observe _ _ HH) in Hv, Hv'. subst v v'. apply target_of_S_neq. }
  split.
  { intros b k Hb.
    destruct (inv_blocks _ _ s HI _ _ Hb) as [[Hr _]|[_ []]]. simpl in Hr.
    destruct (inv_sense _ _ s HI) as [Hs|Hs].
    - rewrite Hs, <- Hr. reflexivity.
    - specialize (Hs _ _ Hb). simpl in Hs. lia. }
  intros b tmp k Hb.
  destruct (inv_blocks _ _ s HI _ _ Hb) as [[_ []]|[Hr Ht]]. simpl in Hr, Ht.
  split; [rewrite Ht, <- Hr; reflexivity|].
  unfold sync_step. rewrite Hb. reflexivity.
Qed.

Lemma flag_alternates_witness :
  2 <= 2 /\ (Z.of_nat 2 < 2 ^ 31)%Z /\
  forall b b' k v v',
    List.In (EvObserve b k v)
      (trace (run (Z.of_nat 2) (-1)
                [0;0;0;0;0;1;1;1;1;1;1;0;0;0;0;0;0;0;1;1;1;1;1;1;1;0;0] (launch zeroed 2))) ->
    List.In (EvObserve b' (S k) v')
      (trace (run (Z.of_nat 2) (-1)
                [0;0;0;0;0;1;1;1;1;1;1;0;0;0;0;0;0;0;1;1;1;1;1;1;1;0;0] (launch zeroed 2))) ->
    v' <> v.
Proof.
  assert (H1 : 2 <= 2) by lia.
  assert (H2 : (Z.of_nat 2 < 2 ^ 31)%Z) by reflexivity.
  split; [exact H1|split; [exact H2|]].
  exact (proj1 (proj2 (proj2 (proj2
           (flag_alternates 2 (-1)
              [0;0;0;0;0;1;1;1;1;1;1;0;0;0;0;0;0;0;1;1;1;1;1;1;1;0;0] H1 H2))))).
Defined.


(** ** The spin-wait *)

(** A step traps its block exactly at a poll whose condition holds, with
    the bound enabled and the spin counter at the bound. *)
Lemma trap_step_iff blockNum maxSpinCount b s bl :
  blocks s !! b = Some bl -> pc bl <> Trapped ->
  (blocks (sync_step blockNum maxSpinCount b s) !! b = Some (mkBlock Trapped (rounds bl)) <->
   exists tmp, pc bl = Poll tmp maxSpinCount /\
               poll_cond tmp (flag_ (syncer s)) = true /\ (0 <= maxSpinCount)%Z).
Proof.
  intros Hb Hnt.
  assert (Hlt : b < length (blocks s)) by (eapply lookup_lt_Some; exact Hb).
  unfold sync_step. rewrite Hb. destruct bl as [p k]. simpl in *.
  destruct p; simpl;
    repeat match goal with
           | |- context [if ?c then _ else _] => destruct c eqn:?; simpl
           end;
    try contradiction;
    try (rewrite list_lookup_insert_eq by (simpl; exact Hlt);
         split; [intros H; discriminate H|intros (t & H & _); discriminate H]).
  unfold POLL_MAYBE_JAILBREAK.
  destruct (poll_cond tmp (flag_ (syncer s))) eqn:Hc;
    [destruct (Z.leb_spec 0 maxSpinCount) as [Hm|Hm];
       [destruct (Z.eqb_spec spin maxSpinCount) as [Hs|Hs]|]|];
    simpl; rewrite list_lookup_insert_eq by exact Hlt.
  - split; [intros _; exists tmp; subst spin; auto|reflexivity].
  - split; [intros H; discriminate H|intros (t & H & _); congruence].
  - split; [intros H; discriminate H|intros (t & _ & _ & H); lia].
  - split; [intros H; discriminate H|intros (t & H & H' & _)].
    injection H as -> _. congruence.
Qed.

(** C2.  The poll is modelled from the spec (the macro is not among the
    sources).  For any arguments of [sync]: one evaluation of the poll
    traps exactly when its condition holds, [maxSpinCount >= 0] and
    [maxSpinCount] iterations have elapsed, and a step of a block traps it
    exactly then; with [maxSpinCount >= 0], a block that starts to poll a
    flag that never shows its target is, after [n] turns, still polling
    with [n] iterations elapsed if [n <= maxSpinCount], and trapped
    otherwise; with [maxSpinCount < 0] such a block polls for ever, and no
    step of any block ever traps. *)
Theorem spin_wait_faults_iff_exhausted (blockNum maxSpinCount : Z) :
  (forall cond spin,
     POLL_MAYBE_JAILBREAK cond maxSpinCount spin = PollTrap <->
     cond = true /\ (0 <= maxSpinCount)%Z /\ spin = maxSpinCount) /\
  (forall s b bl,
     blocks s !! b = Some bl -> pc bl <> Trapped ->
     (blocks (sync_step blockNum maxSpinCount b s) !! b = Some (mkBlock Trapped (rounds bl)) <->
      exists tmp, pc bl = Poll tmp maxSpinCount /\
                  poll_cond tmp (flag_ (syncer s)) = true /\ (0 <= maxSpinCount)%Z)) /\
  ((0 <= maxSpinCount)%Z ->
   forall s b tmp k sched,
     blocks s !! b = Some (mkBlock (Poll tmp 0) k) ->
     waiting blockNum maxSpinCount tmp sched s ->
     blocks (run blockNum maxSpinCount sched s) !! b =
     Some (mkBlock (if (Z.of_nat (turns b sched) <=? maxSpinCount)%Z
                    then Poll tmp (Z.of_nat (turns b sched)) else Trapped) k)) /\
  ((maxSpinCount < 0)%Z ->
   (forall s b tmp c k sched,
      blocks s !! b = Some (mkBlock (Poll tmp c) k) ->
      waiting blockNum maxSpinCount tmp sched s ->
      blocks (run blockNum maxSpinCount sched s) !! b = Some (mkBlock (Poll tmp c) k)) /\
   (forall s sched,
      ~ some_trapped s -> ~ some_trapped (run blockNum maxSpinCount sched s))).
Proof.
  split.
  { intros cond spin. unfold POLL_MAYBE_JAILBREAK.
    destruct cond; [|split; [discriminate|intros [H _]; discriminate H]].
    destruct (Z.leb_spec 0 maxSpinCount) as [Hm|Hm];
      [destruct (Z.eqb_spec spin maxSpinCount) as [Hs|Hs]|].
    - split; auto.
    - split; [discriminate|intros (_ & _ & H); contradiction].
    - split; [discriminate|intros (_ & H & _); lia]. }
  split; [intros s b bl; apply trap_step_iff|].
  split.
  { intros Hm s b tmp k sched Hb Hw.
    apply (bounded_poll blockNum maxSpinCount b tmp k sched Hm s 0%Z ltac:(lia) Hb Hw). }
  intros Hm. split.
  - intros s b tmp c k sched Hb Hw.
    apply (unbounded_poll blockNum maxSpinCount b tmp c k sched Hm s Hb Hw).
  - intros s sched. apply no_trap_run. exact Hm.
Qed.

(** One of two expected blocks calls [sync(2, 3)]: it traps at its fifth
    evaluation of the poll. *)
Lemma spin_wait_faults_witness :
  (0 <= 3)%Z /\
  blocks (run 2 3 [0; 0; 0; 0; 0]
            (run 2 3 [0; 0; 0; 0; 0] (launch zeroed 1))) !! 0 =
  Some (mkBlock Trapped 0).
Proof.
  assert (H0 : (0 <= 3)%Z) by lia.
  split; [exact H0|].
  assert (Hb : blocks (run 2 3 [0; 0; 0; 0; 0] (launch zeroed 1)) !! 0 =
               Some (mkBlock (Poll 1 0) 0)) by reflexivity.
  assert (Hw : waiting 2 3 1 [0; 0; 0; 0; 0] (run 2 3 [0; 0; 0; 0; 0] (launch zeroed 1))).
  { intros n. do 6 (destruct n as [|n]; [reflexivity|]). reflexivity. }
  exact (proj1 (proj2 (proj2 (spin_wait_faults_iff_exhausted 2 3))) H0 _ 0 1%Z 0
           [0; 0; 0; 0; 0] Hb Hw).
Defined.

(** ** A single block *)

Definition outside (s : kernel) : Prop :=
  forall b bl, blocks s !! b = Some bl -> pc bl = Work \/ pc bl = AtCall.

Lemma single_block_step maxSpinCount b s :
  outside s ->
  outside (sync_step 1 maxSpinCount b s) /\
  syncer (sync_step 1 maxSpinCount b s) = syncer s /\
  flips (sync_step 1 maxSpinCount b s) = flips s.
Proof.
  intros Hout. unfold sync_step.
  destruct (blocks s !! b) as [[p k]|] eqn:Hb; [|auto].
  destruct (Hout _ _ Hb) as [Hp|Hp]; simpl in Hp; subst p; simpl.
  - split; [|auto]. intros b' bl' H.
    destruct (decide_lookup_insert _ _ _ _ _ H) as [[_ <-]|[_ H']]; [auto|eauto].
  - split; [|auto]. intros b' bl' H.
    destruct (decide_lookup_insert _ _ _ _ _ H) as [[_ <-]|[_ H']]; [auto|eauto].
Qed.

Lemma single_block_run maxSpinCount sched s :
  outside s ->
  syncer (run 1 maxSpinCount sched s) = syncer s /\
  flips (run 1 maxSpinCount sched s) = flips s.
Proof.
  revert s. induction sched as [|b sched IH]; intros s Hout; simpl; [auto|].
  destruct (single_block_step maxSpinCount b s Hout) as (Hout' & Hs & Hf).
  destruct (IH _ Hout') as [Hs' Hf']. split; congruence.
Qed.

(** C5.  A call [sync(1, _)] returns in the step that performs the first
    [__syncthreads()]: the three fields of the [DeviceSyncer] are what they
    were, whatever they were, and the block is back outside [sync] with one
    more call completed.  Hence no sequence of such calls, by any number of
    blocks under any schedule, ever changes the object. *)
Theorem sync_single_block (maxSpinCount : Z) :
  (forall s b k,
     blocks s !! b = Some (mkBlock AtCall k) ->
     syncer (sync_step 1 maxSpinCount b s) = syncer s /\
     blocks (sync_step 1 maxSpinCount b s) !! b = Some (mkBlock Work (S k)) /\
     trace (sync_step 1 maxSpinCount b s) = EvReturn b k :: EvCall b k :: trace s) /\
  (forall d n sched,
     syncer (run 1 maxSpinCount sched (launch d n)) = d /\
     flips (run 1 maxSpinCount sched (launch d n)) = 0).
Proof.
  split.
  - intros s b k Hb. unfold sync_step. rewrite Hb. simpl.
    split; [reflexivity|]. split; [|reflexivity].
    apply list_lookup_insert_eq. eapply lookup_lt_Some. exact Hb.
  - intros d n sched. apply (single_block_run maxSpinCount sched (launch d n)).
    intros b bl H. simpl in H. apply lookup_replicate in H as [-> _]. auto.
Qed.

Lemma sync_single_block_witness :
  syncer (sync_step 1 7 0 (sync_step 1 7 0 (launch (mkDeviceSyncer 7 3 5) 1))) =
  mkDeviceSyncer 7 3 5.
Proof.
  exact (proj1 (proj1 (sync_single_block 7)
                  (sync_step 1 7 0 (launch (mkDeviceSyncer 7 3 5) 1)) 0 0 eq_refl)).
Defined.

(** ** Default argument and construction *)

(** [sync(blockNum)], the call that leaves [maxSpinCount] to its default. *)
Definition sync_step_default (blockNum : Z) : nat -> kernel -> kernel :=
  sync_step blockNum default_maxSpinCount.

(** C9.  The default [maxSpinCount] is 100000000, which is not negative:
    with it the poll spins while fewer than 100000000 iterations have
    elapsed and traps then, so a block that calls [sync(blockNum)] and polls
    a flag that never shows its target is trapped once it has had more than
    100000000 turns; an argument makes the poll unable to trap exactly when
    it is negative. *)
Theorem default_spin_bound :
  default_maxSpinCount = 100000000%Z /\
  (0 <= default_maxSpinCount)%Z /\
  (forall blockNum b s, sync_step_default blockNum b s = sync_step blockNum 100000000 b s) /\
  POLL_MAYBE_JAILBREAK true default_maxSpinCount 100000000 = PollTrap /\
  (forall spin, (0 <= spin < 100000000)%Z ->
     POLL_MAYBE_JAILBREAK true default_maxSpinCount spin = PollSpin (spin + 1)) /\
  (forall blockNum s b tmp k sched,
     blocks s !! b = Some (mkBlock (Poll tmp 0) k) ->
     waiting blockNum default_maxSpinCount tmp sched s ->
     (100000000 < Z.of_nat (turns b sched))%Z ->
     blocks (run blockNum default_maxSpinCount sched s) !! b = Some (mkBlock Trapped k)) /\
  (forall m, (forall spin, POLL_MAYBE_JAILBREAK true m spin <> PollTrap) <-> (m < 0)%Z).
Proof.
  split; [reflexivity|]. split; [unfold default_maxSpinCount; lia|].
  split; [reflexivity|]. split; [reflexivity|]. split; [|split].
  - intros spin Hs. unfold POLL_MAYBE_JAILBREAK, default_maxSpinCount. simpl.
    destruct (Z.eqb_spec spin 100000000); [lia|reflexivity].
  - intros blockNum s b tmp k sched Hb Hw Ht.
    assert (Hm : (0 <= default_maxSpinCount)%Z) by (unfold default_maxSpinCount; lia).
    rewrite (bounded_poll blockNum default_maxSpinCount b tmp k sched Hm s 0%Z
               ltac:(unfold default_maxSpinCount; lia) Hb Hw).
    destruct (Z.leb_spec (0 + Z.of_nat (turns b sched)) default_maxSpinCount) as [Hle|_];
      [unfold default_maxSpinCount in Hle; lia|reflexivity].
  - intros m. unfold POLL_MAYBE_JAILBREAK. split.
    + intros H. destruct (Z.leb_spec 0 m) as [Hm|Hm]; [|exact Hm].
      specialize (H m). rewrite Z.eqb_refl in H. contradiction.
    + intros Hm spin. destruct (Z.leb_spec 0 m); [lia|discriminate].
Qed.

(** The barrier cannot deadlock: in a kernel of [N > 1] blocks that all
    call [sync(N, maxSpinCount)] on a zero-filled [DeviceSyncer], after
    every schedule either some block has trapped or some block has a step
    that changes the kernel. *)
Theorem barrier_never_deadlocks (N : nat) (maxSpinCount : Z) (sched : list nat) :
  2 <= N -> (Z.of_nat N < 2 ^ 31)%Z ->
  some_trapped (run (Z.of_nat N) maxSpinCount sched (launch zeroed N)) \/
  exists b,
    b < N /\
    sync_step (Z.of_nat N) maxSpinCount b
      (run (Z.of_nat N) maxSpinCount sched (launch zeroed N)) <>
    run (Z.of_nat N) maxSpinCount sched (launch zeroed N).
Proof.
  intros HN HNint.
  set (s := run (Z.of_nat N) maxSpinCount sched (launch zeroed N)).
  assert (HI : Inv N maxSpinCount s)
    by (apply Inv_run; auto; apply Inv_launch; auto).
  destruct (some_can_move N maxSpinCount HN s HI) as [Ht|(b & bl & Hb & Hc)];
    [left; exact Ht|right].
  exists b. split.
  - rewrite <- (inv_len _ _ s HI). eapply lookup_lt_Some. exact Hb.
  - intros Heq.
    pose proof (can_move_progress N maxSpinCount HN b s bl HI Hb Hc) as Hlt.
    rewrite Heq in Hlt. lia.
Qed.

Lemma barrier_never_deadlocks_witness :
  2 <= 2 /\ (Z.of_nat 2 < 2 ^ 31)%Z /\
  (some_trapped (run (Z.of_nat 2) (-1) [0; 0; 0; 0; 0; 0; 0] (launch zeroed 2)) \/
   exists b,
     b < 2 /\
     sync_step (Z.of_nat 2) (-1) b
       (run (Z.of_nat 2) (-1) [0; 0; 0; 0; 0; 0; 0] (launch zeroed 2)) <>
     run (Z.of_nat 2) (-1) [0; 0; 0; 0; 0; 0; 0] (launch zeroed 2)).
Proof.
  assert (H1 : 2 <= 2) by lia.
  assert (H2 : (Z.of_nat 2 < 2 ^ 31)%Z) by reflexivity.
  split; [exact H1|split; [exact H2|]].
  exact (barrier_never_deadlocks 2 (-1) [0; 0; 0; 0; 0; 0; 0] H1 H2).
Defined.


(** ** Fewer blocks than [blockNum] *)

(** A block that has done the [atomicInc] of its current call. *)
Definition has_arrived (bl : block) : bool := Nat.leb 4 (stage (pc bl)).

(** How many steps of its first call a coordinator has behind it, when no
    store to [flag_] has happened: five steps lead to the poll, each
    evaluation of the condition is one more, and the trap is the
    evaluation number [maxSpinCount + 1]. *)
Definition steps_taken (maxSpinCount : Z) (p : pc_t) : nat :=
  match p with
  | Work => 0
  | AtCall => 1
  | Entered => 2
  | HaveTmp _ => 3
  | GotOld _ _ => 4
  | Poll _ spin => 5 + Z.to_nat spin
  | Leave _ => 0
  | Trapped => 6 + Z.to_nat maxSpinCount
  end.

Section Missing.

Variables blockNum maxSpinCount : Z.

(** Where a coordinator can be while [flag_] and [isIncFlag_] are still
    zero. *)
Definition stalled_pc (p : pc_t) : Prop :=
  match p with
  | Work | AtCall | Entered | Trapped => True
  | HaveTmp tmp => tmp = 1%Z
  | GotOld tmp old => tmp = 1%Z /\ old <> maxOldCnt blockNum
  | Poll tmp spin =>
      tmp = 1%Z /\ (0 <= spin)%Z /\ (0 <= maxSpinCount -> spin <= maxSpinCount)%Z
  | Leave _ => False
  end.

(** The events of such a kernel: no [atomicInc] has returned [maxOldCnt],
    and nothing has happened that needs a store to [flag_]. *)
Definition stalled_event (e : event) : Prop :=
  match e with
  | EvSetFlag _ _ _ | EvObserve _ _ _ | EvReturn _ _ => False
  | EvArrive _ _ old => old <> maxOldCnt blockNum
  | _ => True
  end.

(** The kernel while the first round cannot complete: [count_] counts the
    blocks that have arrived, and there are too few of them for any
    [atomicInc] to return [maxOldCnt]. *)
Record Stalled (s : kernel) : Prop := mkStalled {
  st_flag : flag_ (syncer s) = 0%Z;
  st_sense : isIncFlag_ (syncer s) = 0%Z;
  st_count : count_ (syncer s) = Z.of_nat (count_if has_arrived (blocks s));
  st_len : (Z.of_nat (length (blocks s)) <= maxOldCnt blockNum)%Z;
  st_blocks : forall b bl, blocks s !! b = Some bl -> rounds bl = 0 /\ stalled_pc (pc bl);
  st_trace : forall e, List.In e (trace s) -> stalled_event e
}.

Lemma Stalled_launch m :
  (Z.of_nat m <= maxOldCnt blockNum)%Z -> Stalled (launch zeroed m).
Proof.
  intros Hm. constructor; simpl; try reflexivity.
  - rewrite count_if_none; [reflexivity|].
    intros b bl H. apply lookup_replicate in H as [-> _]. reflexivity.
  - rewrite length_replicate. exact Hm.
  - intros b bl H. apply lookup_replicate in H as [-> _]. simpl. auto.
  - intros e [].
Qed.

Lemma Stalled_move s b bl p' d' dat' g' tr' :
  Stalled s -> blocks s !! b = Some bl ->
  stalled_pc p' ->
  flag_ d' = 0%Z -> isIncFlag_ d' = 0%Z ->
  (count_ d' + Z.of_nat (Nat.b2n (has_arrived bl)) =
   count_ (syncer s) + Z.of_nat (Nat.b2n (has_arrived (mkBlock p' 0))))%Z ->
  (forall e, List.In e tr' -> List.In e (trace s) \/ stalled_event e) ->
  Stalled (mkKernel d' (<[b := mkBlock p' 0]> (blocks s)) dat' g' tr').
Proof.
  intros [Hf Hs Hc Hl Hb Ht] Hbl Hp Hf' Hs' Hc' Ht'.
  constructor; simpl.
  - exact Hf'.
  - exact Hs'.
  - pose proof (count_if_insert has_arrived _ _ _ (mkBlock p' 0) Hbl). lia.
  - rewrite length_insert. exact Hl.
  - intros b0 bl0 H0.
    destruct (decide_lookup_insert _ _ _ _ _ H0) as [[_ <-]|[_ H0']]; [simpl; auto|eauto].
  - intros e He. destruct (Ht' e He) as [H|H]; auto.
Qed.

Hypothesis Hne : blockNum <> 1%Z.

Lemma Stalled_step b s : Stalled s -> Stalled (sync_step blockNum maxSpinCount b s).
Proof.
  intros HS. unfold sync_step.
  destruct (blocks s !! b) as [[p k]|] eqn:Hb; [|exact HS].
  destruct (st_blocks s HS _ _ Hb) as [Hk Hp]. simpl in Hk, Hp. subst k.
  pose proof (st_flag s HS) as Hf. pose proof (st_sense s HS) as Hse.
  assert (Hold : forall e tr, List.In e tr -> List.In e tr \/ stalled_event e)
    by (intros; left; assumption).
  destruct p; simpl pc; simpl rounds; cbv iota.
  - eapply (Stalled_move s b _ _ _ _ _ _ HS Hb); simpl; auto; try lia.
    intros e [<-|He]; simpl; auto.
  - destruct (Z.eqb_spec blockNum 1) as [E|_]; [contradiction|].
    eapply (Stalled_move s b _ _ _ _ _ _ HS Hb); simpl; auto; try lia.
    intros e [<-|He]; simpl; auto.
  - eapply (Stalled_move s b _ _ _ _ _ _ HS Hb); simpl; auto; try lia.
    + rewrite Hse. reflexivity.
    + intros e [<-|He]; simpl; auto.
  - pose proof (count_if_lt has_arrived _ _ _ Hb eq_refl) as Hlt.
    pose proof (st_count s HS) as Hc. pose proof (st_len s HS) as Hl.
    unfold atomicInc.
    destruct (Z.leb_spec (maxOldCnt blockNum) (count_ (syncer s))) as [Hle|Hgt]; [lia|].
    eapply (Stalled_move s b _ _ _ _ _ _ HS Hb); simpl; auto; try lia.
    + split; [exact Hp|lia].
    + intros e [<-|He]; simpl; [right; lia|auto].
  - destruct Hp as [Ht Ho].
    destruct (Z.eqb_spec old (maxOldCnt blockNum)) as [E|_]; [contradiction|].
    eapply (Stalled_move s b _ _ _ _ _ _ HS Hb); simpl; auto; try lia.
  - destruct Hp as (Ht & Hs0 & Hs1). subst tmp.
    rewrite Hf. cbn [poll_cond Z.eqb negb]. unfold POLL_MAYBE_JAILBREAK.
    destruct (Z.leb_spec 0 maxSpinCount) as [Hm|Hm];
      [destruct (Z.eqb_spec spin maxSpinCount) as [Es|Ns]|].
    + eapply (Stalled_move s b _ _ _ _ _ _ HS Hb); simpl; auto; try lia.
      intros e [<-|He]; simpl; auto.
    + eapply (Stalled_move s b _ _ _ _ _ _ HS Hb); simpl; auto; try lia.
    + eapply (Stalled_move s b _ _ _ _ _ _ HS Hb); simpl; auto; try lia.
  - destruct Hp.
  - exact HS.
Qed.

Lemma Stalled_run sched s : Stalled s -> Stalled (run blockNum maxSpinCount sched s).
Proof.
  revert s. induction sched as [|b sched IH]; intros s H; simpl; [exact H|].
  apply IH, Stalled_step, H.
Qed.

Hypothesis Hmax : (0 <= maxSpinCount)%Z.

Lemma stalled_steps_bound s b bl :
  Stalled s -> blocks s !! b = Some bl ->
  steps_taken maxSpinCount (pc bl) <= 6 + Z.to_nat maxSpinCount /\
  (steps_taken maxSpinCount (pc bl) = 6 + Z.to_nat maxSpinCount -> pc bl = Trapped).
Proof.
  intros HS Hb. destruct (st_blocks s HS _ _ Hb) as [_ Hp].
  destruct (pc bl); simpl in *; try (split; [lia|intros; lia]).
  split; [lia|reflexivity].
Qed.

(** One turn of a block is one step more, until it is trapped. *)
Lemma stalled_turn b s bl :
  Stalled s -> blocks s !! b = Some bl ->
  exists bl',
    blocks (sync_step blockNum maxSpinCount b s) !! b = Some bl' /\
    steps_taken maxSpinCount (pc bl') =
    Nat.min (S (steps_taken maxSpinCount (pc bl))) (6 + Z.to_nat maxSpinCount).
Proof.
  intros HS Hb.
  assert (Hlt : b < length (blocks s)) by (eapply lookup_lt_Some; exact Hb).
  destruct (st_blocks s HS _ _ Hb) as [Hk Hp].
  pose proof (st_flag s HS) as Hf.
  unfold sync_step. rewrite Hb. destruct bl as [p k]. simpl in Hk, Hp. subst k.
  destruct p; simpl pc; simpl rounds; cbv iota.
  - eexists. split; [apply list_lookup_insert_eq; exact Hlt|].
    simpl. lia.
  - destruct (Z.eqb_spec blockNum 1) as [E|_]; [contradiction|].
    eexists. split; [apply list_lookup_insert_eq; exact Hlt|]. cbn [steps_taken pc]. lia.
  - eexists. split; [apply list_lookup_insert_eq; exact Hlt|]. cbn [steps_taken pc]. lia.
  - unfold atomicInc.
    eexists. split; [apply list_lookup_insert_eq; exact Hlt|]. cbn [steps_taken pc]. lia.
  - destruct Hp as [Ht Ho].
    destruct (Z.eqb_spec old (maxOldCnt blockNum)) as [E|_]; [contradiction|].
    eexists. split; [apply list_lookup_insert_eq; exact Hlt|]. cbn [steps_taken pc]. lia.
  - destruct Hp as (Ht & Hs0 & Hs1). subst tmp. specialize (Hs1 Hmax).
    rewrite Hf. cbn [poll_cond Z.eqb negb]. unfold POLL_MAYBE_JAILBREAK.
    destruct (Z.leb_spec 0 maxSpinCount) as [Hm|Hm]; [|lia].
    destruct (Z.eqb_spec spin maxSpinCount) as [Es|Ns].
    + eexists. split; [apply list_lookup_insert_eq; exact Hlt|]. cbn [steps_taken pc]. lia.
    + eexists. split; [apply list_lookup_insert_eq; exact Hlt|]. cbn [steps_taken pc]. lia.
  - destruct Hp.
  - eexists. split; [exact Hb|]. cbn [steps_taken pc]. lia.
Qed.

Lemma stalled_turns sched b :
  forall s bl,
  Stalled s -> blocks s !! b = Some bl ->
  exists bl',
    blocks (run blockNum maxSpinCount sched s) !! b = Some bl' /\
    steps_taken maxSpinCount (pc bl') =
    Nat.min (steps_taken maxSpinCount (pc bl) + turns b sched) (6 + Z.to_nat maxSpinCount).
Proof.
  induction sched as [|b' sched IH]; intros s bl HS Hb.
  - exists bl. split; [exact Hb|]. simpl.
    pose proof (proj1 (stalled_steps_bound s b bl HS Hb)). lia.
  - cbn [run turns]. destruct (Nat.eqb_spec b' b) as [->|Hneq].
    + destruct (stalled_turn b s bl HS Hb) as (bl1 & Hb1 & H1).
      destruct (IH _ bl1 (Stalled_step b s HS) Hb1) as (bl' & Hb' & H').
      exists bl'. split; [exact Hb'|]. lia.
    + destruct (IH (sync_step blockNum maxSpinCount b' s) bl) as (bl' & Hb' & H').
      * apply Stalled_step, HS.
      * rewrite step_other by exact Hneq. exact Hb.
      * exists bl'. split; [exact Hb'|]. lia.
Qed.

End Missing.

(** Too few participants.  [m] blocks call [sync(blockNum, maxSpinCount)]
    on a zero-filled [DeviceSyncer], where [blockNum] is not 1 and [m] is at
    most [maxOldCnt], the wrap value that [sync] computes from [blockNum]
    (for [blockNum >= 2] this says that fewer than [blockNum] blocks take
    part; for [blockNum = 0] the conversion to [unsigned int] makes it
    [2^32 - 1]).  Then under every schedule no [atomicInc] returns
    [maxOldCnt]: nothing is ever stored to [flag_], [count_] is the number
    of blocks that have arrived, and no block returns from its first
    call. *)
Theorem missing_blocks_never_release (blockNum maxSpinCount : Z) (m : nat)
    (sched : list nat) :
  blockNum <> 1%Z -> (Z.of_nat m <= maxOldCnt blockNum)%Z ->
  let s := run blockNum maxSpinCount sched (launch zeroed m) in
  (forall b k, ~ List.In (EvReturn b k) (trace s)) /\
  (forall b k v, ~ List.In (EvSetFlag b k v) (trace s)) /\
  flag_ (syncer s) = 0%Z /\
  count_ (syncer s) = Z.of_nat (count_if has_arrived (blocks s)) /\
  (forall b k old, List.In (EvArrive b k old) (trace s) -> old <> maxOldCnt blockNum) /\
  (forall b bl, blocks s !! b = Some bl -> rounds bl = 0 /\ forall tmp, pc bl <> Leave tmp).
Proof.
  intros Hne Hm s.
  assert (HS : Stalled blockNum maxSpinCount s)
    by (apply Stalled_run; [exact Hne|apply Stalled_launch; exact Hm]).
  split; [intros b k H; apply (st_trace _ _ s HS _ H)|].
  split; [intros b k v H; apply (st_trace _ _ s HS _ H)|].
  split; [apply (st_flag _ _ s HS)|].
  split; [apply (st_count _ _ s HS)|].
  split; [intros b k old H; apply (st_trace _ _ s HS _ H)|].
  intros b bl Hb. destruct (st_blocks _ _ s HS _ _ Hb) as [Hr Hp].
  split; [exact Hr|]. intros tmp E. rewrite E in Hp. exact Hp.
Qed.

(** Two blocks call [sync(3, -1)]: whatever the schedule, neither
    returns. *)
Lemma missing_blocks_never_release_witness :
  3%Z <> 1%Z /\ (Z.of_nat 2 <= maxOldCnt 3)%Z /\
  forall b k,
    ~ List.In (EvReturn b k)
        (trace (run 3 (-1) [0; 1; 0; 1; 0; 1; 0; 1; 0; 1; 0; 1; 0; 1] (launch zeroed 2))).
Proof.
  assert (H1 : 3%Z <> 1%Z) by discriminate.
  assert (H2 : (Z.of_nat 2 <= maxOldCnt 3)%Z) by (vm_compute; discriminate).
  split; [exact H1|split; [exact H2|]].
  exact (proj1 (missing_blocks_never_release 3 (-1) 2
                  [0; 1; 0; 1; 0; 1; 0; 1; 0; 1; 0; 1; 0; 1] H1 H2)).
Defined.

(** Stuck-round detection.  In the same situation with the bound enabled
    ([maxSpinCount >= 0]), a block is trapped exactly when it has had
    [maxSpinCount + 6] turns: five steps take it to the poll, the poll
    finds its condition true [maxSpinCount] times, and the next evaluation
    is the trap.  No schedule lets it wait longer or fail sooner. *)
Theorem missing_blocks_trap (blockNum maxSpinCount : Z) (m : nat) (sched : list nat)
    (b : nat) :
  blockNum <> 1%Z -> (Z.of_nat m <= maxOldCnt blockNum)%Z ->
  (0 <= maxSpinCount)%Z -> b < m ->
  (blocks (run blockNum maxSpinCount sched (launch zeroed m)) !! b =
     Some (mkBlock Trapped 0) <->
   6 + Z.to_nat maxSpinCount <= turns b sched).
Proof.
  intros Hne Hm Hmax Hb.
  assert (HS0 : Stalled blockNum maxSpinCount (launch zeroed m))
    by (apply Stalled_launch; exact Hm).
  assert (Hb0 : blocks (launch zeroed m) !! b = Some (mkBlock Work 0))
    by (simpl; apply lookup_replicate_2; exact Hb).
  destruct (stalled_turns blockNum maxSpinCount Hne Hmax sched b _ _ HS0 Hb0)
    as (bl' & Hb' & Hsteps).
  cbn [steps_taken pc] in Hsteps.
  assert (HS : Stalled blockNum maxSpinCount
                 (run blockNum maxSpinCount sched (launch zeroed m)))
    by (apply Stalled_run; assumption).
  destruct (st_blocks _ _ _ HS _ _ Hb') as [Hr _].
  destruct (stalled_steps_bound blockNum maxSpinCount Hmax _ _ _ HS Hb') as [_ Htrap].
  rewrite Hb'. split.
  - intros [= ->]. cbn [steps_taken pc] in Hsteps. lia.
  - intros Hle. f_equal. destruct bl' as [p r]. simpl in Hr, Htrap, Hsteps. subst r.
    f_equal. apply Htrap. lia.
Qed.

(** One block alone calls [sync(2, 3)]: its ninth turn traps it. *)
Lemma missing_blocks_trap_witness :
  2%Z <> 1%Z /\ (Z.of_nat 1 <= maxOldCnt 2)%Z /\ (0 <= 3)%Z /\ 0 < 1 /\
  blocks (run 2 3 [0; 0; 0; 0; 0; 0; 0; 0; 0] (launch zeroed 1)) !! 0 =
    Some (mkBlock Trapped 0).
Proof.
  assert (H1 : 2%Z <> 1%Z) by discriminate.
  assert (H2 : (Z.of_nat 1 <= maxOldCnt 2)%Z) by (vm_compute; discriminate).
  assert (H3 : (0 <= 3)%Z) by lia.
  assert (H4 : 0 < 1) by lia.
  split; [exact H1|split; [exact H2|split; [exact H3|split; [exact H4|]]]].
  apply (proj2 (missing_blocks_trap 2 3 1 [0; 0; 0; 0; 0; 0; 0; 0; 0] 0 H1 H2 H3 H4)).
  vm_compute. lia.
Defined.

(** ** Between rounds *)

(** The object between rounds.  In a kernel of [N > 1] blocks that all
    call [sync(N, _)] on a zero-filled [DeviceSyncer]: whenever every block
    is outside [sync], all blocks have completed the same number [R] of
    calls, [count_] is back at 0, and [flag_] and [isIncFlag_] both hold
    [R mod 2].  After an even number of rounds the object is again what it
    was at the start. *)
Theorem object_between_rounds (N : nat) (maxSpinCount : Z) (sched : list nat) :
  2 <= N -> (Z.of_nat N < 2 ^ 31)%Z ->
  outside (run (Z.of_nat N) maxSpinCount sched (launch zeroed N)) ->
  exists R,
    (forall b bl,
       blocks (run (Z.of_nat N) maxSpinCount sched (launch zeroed N)) !! b = Some bl ->
       rounds bl = R) /\
    syncer (run (Z.of_nat N) maxSpinCount sched (launch zeroed N)) =
      mkDeviceSyncer (Z.of_nat (R mod 2)) 0 (Z.of_nat (R mod 2)) /\
    (Nat.even R = true ->
     syncer (run (Z.of_nat N) maxSpinCount sched (launch zeroed N)) = zeroed).
Proof.
  intros HN HNint Hout.
  set (s := run (Z.of_nat N) maxSpinCount sched (launch zeroed N)) in *.
  assert (HI : Inv N maxSpinCount s) by (apply Inv_run; auto; apply Inv_launch; auto).
  assert (Hcur : forall b bl, blocks s !! b = Some bl ->
                 rounds bl = flips s /\ arrived_in (flips s) bl = false).
  { intros b bl Hb. pose proof (Hout _ _ Hb) as Hp.
    destruct (inv_blocks _ _ s HI _ _ Hb) as [[Hr _]|[_ Hbeh]].
    - split; [exact Hr|]. unfold arrived_in.
      destruct Hp as [-> | ->]; simpl; apply andb_false_r.
    - destruct Hp as [Hp|Hp]; rewrite Hp in Hbeh; destruct Hbeh. }
  assert (Hflag : flag_after (flips s) = Z.of_nat (flips s mod 2)).
  { unfold flag_after. rewrite <- Nat.negb_odd. unfold Nat.odd.
    destruct (Nat.even (flips s)) eqn:E.
    - apply Nat.even_spec in E. destruct E as [q ->].
      rewrite Nat.mul_comm, Nat.Div0.mod_mul. reflexivity.
    - assert (Ho : Nat.odd (flips s) = true)
        by (rewrite <- Nat.negb_even, E; reflexivity).
      apply Nat.odd_spec in Ho. destruct Ho as [q ->].
      rewrite Nat.add_comm, Nat.mul_comm, Nat.Div0.mod_add. reflexivity. }
  assert (Hcount : count_ (syncer s) = 0%Z).
  { rewrite (inv_count _ _ s HI).
    rewrite (count_if_none (arrived_in (flips s)) (blocks s)
               (fun b bl Hb => proj2 (Hcur b bl Hb))).
    destruct (Nat.eqb_spec 0 N); [lia|reflexivity]. }
  assert (Hsense : isIncFlag_ (syncer s) = flag_after (flips s)).
  { destruct (inv_sense _ _ s HI) as [H|H]; [exact H|].
    destruct (lookup_lt_is_Some_2 (blocks s) 0) as [bl Hbl];
      [rewrite (inv_len _ _ s HI); lia|].
    specialize (H _ _ Hbl). destruct (Hcur _ _ Hbl) as [Hr _]. lia. }
  assert (Hsync : syncer s =
                  mkDeviceSyncer (Z.of_nat (flips s mod 2)) 0 (Z.of_nat (flips s mod 2))).
  { pose proof (inv_flag _ _ s HI) as Hf.
    destruct (syncer s) as [f c i]. simpl in *. congruence. }
  exists (flips s). split; [intros b bl Hb; apply (Hcur b bl Hb)|].
  split; [exact Hsync|].
  intros He. rewrite Hsync. apply Nat.even_spec in He. destruct He as [q ->].
  rewrite Nat.mul_comm, Nat.Div0.mod_mul. reflexivity.
Qed.

(** Two blocks after one complete round, and the object they leave. *)
Lemma object_between_rounds_witness :
  2 <= 2 /\ (Z.of_nat 2 < 2 ^ 31)%Z /\
  exists R,
    (forall b bl,
       blocks (run (Z.of_nat 2) (-1) [0; 0; 0; 0; 0; 1; 1; 1; 1; 1; 1; 1; 0; 0]
                 (launch zeroed 2)) !! b = Some bl ->
       rounds bl = R) /\
    syncer (run (Z.of_nat 2) (-1) [0; 0; 0; 0; 0; 1; 1; 1; 1; 1; 1; 1; 0; 0]
              (launch zeroed 2)) =
      mkDeviceSyncer (Z.of_nat (R mod 2)) 0 (Z.of_nat (R mod 2)) /\
    (Nat.even R = true ->
     syncer (run (Z.of_nat 2) (-1) [0; 0; 0; 0; 0; 1; 1; 1; 1; 1; 1; 1; 0; 0]
               (launch zeroed 2)) = zeroed).
Proof.
  assert (H1 : 2 <= 2) by lia.
  assert (H2 : (Z.of_nat 2 < 2 ^ 31)%Z) by reflexivity.
  split; [exact H1|split; [exact H2|]].
  apply (object_between_rounds 2 (-1) [0; 0; 0; 0; 0; 1; 1; 1; 1; 1; 1; 1; 0; 0] H1 H2).
  intros b bl Hb. vm_compute in Hb.
  destruct b as [|[|b]]; [| |discriminate Hb]; injection Hb as <-; left; reflexivity.
Defined.

(** ** After a trap *)

(** A trap is final for the whole barrier.  In a kernel of [N > 1] blocks
    that all call [sync(N, _)] on a zero-filled [DeviceSyncer], once a
    block has trapped in its call number [k] it stays trapped, and however
    the kernel goes on no block returns from a call later than [k]: every
    block completes at most [k + 1] calls. *)
Theorem trap_stops_barrier (N : nat) (maxSpinCount : Z) (sched sched' : list nat)
    (b k : nat) :
  2 <= N -> (Z.of_nat N < 2 ^ 31)%Z ->
  blocks (run (Z.of_nat N) maxSpinCount sched (launch zeroed N)) !! b =
    Some (mkBlock Trapped k) ->
  let s' := run (Z.of_nat N) maxSpinCount sched'
              (run (Z.of_nat N) maxSpinCount sched (launch zeroed N)) in
  blocks s' !! b = Some (mkBlock Trapped k) /\
  (forall b' j, k < j -> ~ List.In (EvReturn b' j) (trace s')) /\
  (forall b' bl', blocks s' !! b' = Some bl' -> rounds bl' <= S k).
Proof.
  intros HN HNint Hb s'.
  assert (HS : Sound N maxSpinCount s')
    by (apply Sound_run; auto; apply Sound_run; auto; apply Sound_launch; auto).
  destruct HS as (HI & _ & HH).
  assert (HA : Arrived s') by (apply Arrived_run, Arrived_run, Arrived_launch).
  assert (Hb' : blocks s' !! b = Some (mkBlock Trapped k))
    by (apply trapped_stays; exact Hb).
  assert (HbN : b < N)
    by (rewrite <- (inv_len _ _ s' HI); eapply lookup_lt_Some; exact Hb').
  split; [exact Hb'|]. split.
  - intros b' j Hj Hin.
    destruct (List.in_split _ _ Hin) as (suf & pre & Htr).
    destruct (h_before _ _ HH suf pre b' j Htr b HbN) as (_ & _ & old & Ho).
    assert (Ho' : List.In (EvArrive b j old) (trace s'))
      by (rewrite Htr; apply List.in_or_app; right; right; exact Ho).
    destruct (HA _ _ _ Ho') as (bl & Hbl & Hr).
    rewrite Hb' in Hbl. injection Hbl as <-.
    unfold reached in Hr. simpl in Hr. lia.
  - intros b' bl' Hbl'.
    pose proof (rounds_close N maxSpinCount HN s' b _ b' bl' HI Hb' Hbl') as H.
    simpl in H. lia.
Qed.

(** Two blocks call [sync(2, 0)]; block 0 traps in its first call, and
    block 1 never returns from a second one. *)
Lemma trap_stops_barrier_witness :
  2 <= 2 /\ (Z.of_nat 2 < 2 ^ 31)%Z /\
  forall b' j, 0 < j ->
    ~ List.In (EvReturn b' j)
        (trace (run (Z.of_nat 2) 0 [1; 1; 1; 1; 1; 1; 1; 1; 1; 1; 1; 1]
                  (run (Z.of_nat 2) 0 [0; 0; 1; 1; 0; 0; 0; 0] (launch zeroed 2)))).
Proof.
  assert (H1 : 2 <= 2) by lia.
  assert (H2 : (Z.of_nat 2 < 2 ^ 31)%Z) by reflexivity.
  split; [exact H1|split; [exact H2|]].
  exact (proj1 (proj2 (trap_stops_barrier 2 0 [0; 0; 1; 1; 0; 0; 0; 0]
                         [1; 1; 1; 1; 1; 1; 1; 1; 1; 1; 1; 1] 0 0 H1 H2 eq_refl))).
Defined.

(** ** A released block *)

(** No release is missed.  In a kernel of [N > 1] blocks that all call
    [sync(N, _)] on a zero-filled [DeviceSyncer]: while a block is still in
    the poll of its call [k] after the store to [flag_] of round [k], the
    store of round [k + 1] has not happened, [flag_] holds the block's
    target, and the block's next evaluation of the poll leaves the loop,
    however many blocks have already arrived for round [k + 1]. *)
Theorem released_block_leaves_poll (N : nat) (maxSpinCount : Z) (sched : list nat)
    (b k : nat) (tmp spin : Z) :
  2 <= N -> (Z.of_nat N < 2 ^ 31)%Z ->
  blocks (run (Z.of_nat N) maxSpinCount sched (launch zeroed N)) !! b =
    Some (mkBlock (Poll tmp spin) k) ->
  (exists r v,
     List.In (EvSetFlag r k v)
       (trace (run (Z.of_nat N) maxSpinCount sched (launch zeroed N)))) ->
  flag_ (syncer (run (Z.of_nat N) maxSpinCount sched (launch zeroed N))) = tmp /\
  (forall r v,
     ~ List.In (EvSetFlag r (S k) v)
         (trace (run (Z.of_nat N) maxSpinCount sched (launch zeroed N)))) /\
  blocks (sync_step (Z.of_nat N) maxSpinCount b
            (run (Z.of_nat N) maxSpinCount sched (launch zeroed N))) !! b =
    Some (mkBlock (Leave tmp) k).
Proof.
  intros HN HNint.
  set (s := run (Z.of_nat N) maxSpinCount sched (launch zeroed N)).
  intros Hb (r & v & Hset).
  destruct (Sound_run N maxSpinCount HN HNint sched _ (Sound_launch N maxSpinCount HN HNint))
    as (HI & _ & HH). fold s in HI, HH.
  assert (Hk : k < flips s).
  { apply set_rounds_In in Hset. rewrite (h_rounds _ _ HH) in Hset.
    apply In_rev_seq in Hset. exact Hset. }
  destruct (inv_blocks _ _ s HI _ _ Hb) as [[Hr _]|[Hr [Ht _]]]; simpl in *; [lia|].
  assert (Hf : flag_ (syncer s) = tmp) by (rewrite (inv_flag _ _ s HI); auto).
  split; [exact Hf|]. split.
  - intros r' v' H'. apply set_rounds_In in H'. rewrite (h_rounds _ _ HH) in H'.
    apply In_rev_seq in H'. lia.
  - unfold sync_step. rewrite Hb. cbn [pc rounds]. rewrite Hf, Ht, poll_cond_released.
    cbn [POLL_MAYBE_JAILBREAK]. apply list_lookup_insert_eq.
    eapply lookup_lt_Some. exact Hb.
Qed.

(** Block 0 polls, block 1 arrives last and stores to [flag_]: block 0 is
    released at its next turn. *)
Lemma released_block_leaves_poll_witness :
  2 <= 2 /\ (Z.of_nat 2 < 2 ^ 31)%Z /\
  blocks (sync_step (Z.of_nat 2) 5 0
            (run (Z.of_nat 2) 5 [0; 0; 0; 0; 0; 1; 1; 1; 1; 1] (launch zeroed 2))) !! 0 =
    Some (mkBlock (Leave 1) 0).
Proof.
  assert (H1 : 2 <= 2) by lia.
  assert (H2 : (Z.of_nat 2 < 2 ^ 31)%Z) by reflexivity.
  assert (H3 : blocks (run (Z.of_nat 2) 5 [0; 0; 0; 0; 0; 1; 1; 1; 1; 1]
                         (launch zeroed 2)) !! 0 = Some (mkBlock (Poll 1 0) 0))
    by (vm_compute; reflexivity).
  assert (H4 : exists r v,
             List.In (EvSetFlag r 0 v)
               (trace (run (Z.of_nat 2) 5 [0; 0; 0; 0; 0; 1; 1; 1; 1; 1] (launch zeroed 2))))
    by (exists 1, 1%Z; vm_compute; tauto).
  split; [exact H1|split; [exact H2|]].
  exact (proj2 (proj2 (released_block_leaves_poll 2 5 [0; 0; 0; 0; 0; 1; 1; 1; 1; 1]
                         0 0 1 0 H1 H2 H3 H4))).
Defined.

(** ** More blocks than [blockNum] *)

(** The schedule in which the blocks [0 .. i-1] arrive one after another:
    each does its store, enters [sync], computes [tmp], does its
    [atomicInc] and the test that follows. *)
Definition arrive_sched (i : nat) : list nat :=
  concat (map (fun b => replicate 5 b) (seq 0 i)).

Section Steps_of_a_block.

Variables blockNum maxSpinCount : Z.

Lemma run_app sched1 sched2 s :
  run blockNum maxSpinCount (sched1 ++ sched2) s =
  run blockNum maxSpinCount sched2 (run blockNum maxSpinCount sched1 s).
Proof.
  revert s. induction sched1 as [|b sched1 IH]; intros s; [reflexivity|].
  simpl. apply IH.
Qed.

(** A block that is not scheduled is where it was, and nothing in the
    trace is its doing. *)
Lemma run_other sched b s :
  ~ List.In b sched ->
  blocks (run blockNum maxSpinCount sched s) !! b = blocks s !! b.
Proof.
  revert s. induction sched as [|b' sched IH]; intros s Hn; [reflexivity|].
  simpl. rewrite IH by (intros H; apply Hn; right; exact H).
  apply step_other. intros ->. apply Hn. left. reflexivity.
Qed.

Lemma run_trace_blocks sched s e :
  List.In e (trace (run blockNum maxSpinCount sched s)) ->
  List.In e (trace s) \/ List.In (event_block e) sched.
Proof.
  revert s. induction sched as [|b sched IH]; intros s H; [left; exact H|].
  simpl in H. destruct (IH _ H) as [H'|H']; [|right; right; exact H'].
  destruct (step_trace _ _ _ _ _ H') as [H''|H'']; [left; exact H''|].
  right. left. symmetry. exact H''.
Qed.

Lemma poll_exit_step s b tmp spin k :
  blocks s !! b = Some (mkBlock (Poll tmp spin) k) ->
  poll_cond tmp (flag_ (syncer s)) = false ->
  blocks (sync_step blockNum maxSpinCount b s) !! b = Some (mkBlock (Leave tmp) k).
Proof.
  intros Hb Hc. unfold sync_step. rewrite Hb. cbn [pc rounds]. rewrite Hc.
  cbn [POLL_MAYBE_JAILBREAK]. apply list_lookup_insert_eq.
  eapply lookup_lt_Some. exact Hb.
Qed.

Lemma leave_step s b tmp k :
  blocks s !! b = Some (mkBlock (Leave tmp) k) ->
  trace (sync_step blockNum maxSpinCount b s) = EvReturn b k :: trace s.
Proof. intros Hb. unfold sync_step. rewrite Hb. reflexivity. Qed.

Hypothesis Hne : blockNum <> 1%Z.

(** The five steps of an arriving block, in a kernel whose [isIncFlag_] is
    still zero. *)
Lemma arrive_steps s b :
  blocks s !! b = Some (mkBlock Work 0) ->
  isIncFlag_ (syncer s) = 0%Z ->
  blocks (run blockNum maxSpinCount (replicate 5 b) s) =
    <[b := mkBlock (Poll 1 0) 0]> (blocks s) /\
  syncer (run blockNum maxSpinCount (replicate 5 b) s) =
    if (count_ (syncer s) =? maxOldCnt blockNum)%Z
    then mkDeviceSyncer 1 (fst (atomicInc (count_ (syncer s)) (maxOldCnt blockNum))) 0
    else mkDeviceSyncer (flag_ (syncer s))
           (fst (atomicInc (count_ (syncer s)) (maxOldCnt blockNum))) 0.
Proof.
  intros Hb Hs.
  assert (Hlt : b < length (blocks s)) by (eapply lookup_lt_Some; exact Hb).
  cbn [replicate run].
  (* the caller's store *)
  set (s1 := sync_step blockNum maxSpinCount b s).
  assert (B1 : blocks s1 = <[b := mkBlock AtCall 0]> (blocks s))
    by (unfold s1, sync_step; rewrite Hb; reflexivity).
  assert (S1 : syncer s1 = syncer s)
    by (unfold s1, sync_step; rewrite Hb; reflexivity).
  assert (L1 : blocks s1 !! b = Some (mkBlock AtCall 0))
    by (rewrite B1; apply list_lookup_insert_eq; exact Hlt).
  (* entry *)
  set (s2 := sync_step blockNum maxSpinCount b s1).
  assert (E2 : s2 = emit (EvCall b 0) (set_pc b Entered 0 (syncthreads b s1))).
  { unfold s2, sync_step. rewrite L1. cbn [pc rounds].
    destruct (Z.eqb_spec blockNum 1) as [E|_]; [contradiction|reflexivity]. }
  assert (B2 : blocks s2 = <[b := mkBlock Entered 0]> (blocks s))
    by (rewrite E2; cbn [blocks emit set_pc syncthreads set_cell]; rewrite B1;
        apply list_insert_insert_eq).
  assert (S2 : syncer s2 = syncer s) by (rewrite E2; exact S1).
  assert (L2 : blocks s2 !! b = Some (mkBlock Entered 0))
    by (rewrite B2; apply list_lookup_insert_eq; exact Hlt).
  (* the target *)
  set (s3 := sync_step blockNum maxSpinCount b s2).
  assert (E3 : s3 = emit (EvTarget b 0 1) (set_pc b (HaveTmp 1) 0 (threadfence b s2))).
  { unfold s3, sync_step. rewrite L2. cbn [pc rounds]. rewrite S2, Hs. reflexivity. }
  assert (B3 : blocks s3 = <[b := mkBlock (HaveTmp 1) 0]> (blocks s))
    by (rewrite E3; cbn [blocks emit set_pc threadfence set_cell]; rewrite B2;
        apply list_insert_insert_eq).
  assert (S3 : syncer s3 = syncer s) by (rewrite E3; exact S2).
  assert (L3 : blocks s3 !! b = Some (mkBlock (HaveTmp 1) 0))
    by (rewrite B3; apply list_lookup_insert_eq; exact Hlt).
  (* the arrival *)
  set (s4 := sync_step blockNum maxSpinCount b s3).
  assert (B4 : blocks s4 = <[b := mkBlock (GotOld 1 (count_ (syncer s))) 0]> (blocks s)).
  { unfold s4, sync_step. rewrite L3. cbn [pc rounds]. unfold atomicInc.
    cbn [blocks emit set_pc set_syncer]. rewrite B3, S3. apply list_insert_insert_eq. }
  assert (S4 : syncer s4 =
               mkDeviceSyncer (flag_ (syncer s))
                 (fst (atomicInc (count_ (syncer s)) (maxOldCnt blockNum))) 0).
  { unfold s4, sync_step. rewrite L3. cbn [pc rounds]. unfold atomicInc.
    cbn [syncer emit set_pc set_syncer fst]. rewrite S3, Hs. reflexivity. }
  assert (L4 : blocks s4 !! b = Some (mkBlock (GotOld 1 (count_ (syncer s))) 0))
    by (rewrite B4; apply list_lookup_insert_eq; exact Hlt).
  (* the test, and the store to the flag *)
  clearbody s4. unfold sync_step. rewrite L4. cbn [pc rounds].
  destruct (count_ (syncer s) =? maxOldCnt blockNum)%Z.
  - cbn [blocks syncer emit count_flip set_pc set_syncer].
    rewrite B4, S4. split; [apply list_insert_insert_eq|reflexivity].
  - cbn [blocks syncer set_pc]. rewrite B4, S4.
    split; [apply list_insert_insert_eq|reflexivity].
Qed.

End Steps_of_a_block.

Lemma arrive_sched_S i : arrive_sched (S i) = arrive_sched i ++ replicate 5 i.
Proof.
  unfold arrive_sched. rewrite seq_S, map_app, concat_app. reflexivity.
Qed.

Lemma arrive_sched_below i b : List.In b (arrive_sched i) -> b < i.
Proof.
  induction i as [|i IH]; [intros []|].
  rewrite arrive_sched_S. intros H. apply List.in_app_or in H as [H|H].
  - specialize (IH H). lia.
  - simpl in H. destruct H as [<-|[<-|[<-|[<-|[<-|[]]]]]]; lia.
Qed.

(** The kernel after the first [i] of [m] blocks have arrived, while
    [i < blockNum]. *)
Lemma arrivals (N : nat) (maxSpinCount : Z) (m i : nat) :
  2 <= N -> (Z.of_nat N < 2 ^ 31)%Z -> i < N -> N <= m ->
  blocks (run (Z.of_nat N) maxSpinCount (arrive_sched i) (launch zeroed m)) =
    replicate i (mkBlock (Poll 1 0) 0) ++ replicate (m - i) (mkBlock Work 0) /\
  syncer (run (Z.of_nat N) maxSpinCount (arrive_sched i) (launch zeroed m)) =
    mkDeviceSyncer 0 (Z.of_nat i) 0.
Proof.
  intros HN HNint Hi Hm.
  assert (Hmax : maxOldCnt (Z.of_nat N) = (Z.of_nat N - 1)%Z)
    by (unfold maxOldCnt; apply Z.mod_small; lia).
  induction i as [|i IH].
  - simpl. rewrite Nat.sub_0_r. split; reflexivity.
  - destruct (IH ltac:(lia)) as [IB IS]. rewrite arrive_sched_S, run_app.
    set (s := run (Z.of_nat N) maxSpinCount (arrive_sched i) (launch zeroed m)) in *.
    assert (Hb : blocks s !! i = Some (mkBlock Work 0)).
    { rewrite IB, lookup_app_r by (rewrite length_replicate; lia).
      rewrite length_replicate, Nat.sub_diag. apply lookup_replicate_2. lia. }
    destruct (arrive_steps (Z.of_nat N) maxSpinCount ltac:(lia) s i Hb
                ltac:(rewrite IS; reflexivity)) as [B S'].
    split.
    + rewrite B, IB.
      rewrite insert_app_r_alt by (rewrite length_replicate; lia).
      rewrite length_replicate, Nat.sub_diag.
      replace (m - i) with (S (m - S i)) by lia. cbn [replicate].
      change (<[0:=mkBlock (Poll 1 0) 0]> (mkBlock Work 0 :: replicate (m - S i) (mkBlock Work 0)))
        with (mkBlock (Poll 1 0) 0 :: replicate (m - S i) (mkBlock Work 0)).
      rewrite replicate_cons_app, <- app_assoc. reflexivity.
    + rewrite S', IS, Hmax. cbn [count_ flag_]. unfold atomicInc. cbn [fst].
      destruct (Z.eqb_spec (Z.of_nat i) (Z.of_nat N - 1)) as [E|_]; [lia|].
      destruct (Z.leb_spec (Z.of_nat N - 1) (Z.of_nat i)) as [E|_]; [lia|].
      f_equal. lia.
Qed.

Lemma surplus_first_returns (N : nat) (maxSpinCount : Z) (m : nat) :
  2 <= N -> (Z.of_nat N < 2 ^ 31)%Z -> N < m ->
  List.In (EvReturn 0 0)
    (trace (run (Z.of_nat N) maxSpinCount (arrive_sched N ++ [0; 0]) (launch zeroed m))).
Proof.
  intros HN HNint Hm.
  assert (Hmax : maxOldCnt (Z.of_nat N) = (Z.of_nat N - 1)%Z)
    by (unfold maxOldCnt; apply Z.mod_small; lia).
  destruct N as [|n]; [lia|].
  rewrite arrive_sched_S, <- app_assoc, !run_app.
  destruct (arrivals (S n) maxSpinCount m n HN HNint ltac:(lia) ltac:(lia)) as [IB IS].
  revert IB IS.
  generalize (run (Z.of_nat (S n)) maxSpinCount (arrive_sched n) (launch zeroed m)).
  intros s IB IS.
  assert (Hb : blocks s !! n = Some (mkBlock Work 0)).
  { rewrite IB, lookup_app_r by (rewrite length_replicate; lia).
    rewrite length_replicate, Nat.sub_diag. apply lookup_replicate_2. lia. }
  destruct (arrive_steps (Z.of_nat (S n)) maxSpinCount ltac:(lia) s n Hb
              ltac:(rewrite IS; reflexivity)) as [B S'].
  revert B S'.
  generalize (run (Z.of_nat (S n)) maxSpinCount (replicate 5 n) s).
  intros s' B S'.
  assert (Hflag : flag_ (syncer s') = 1%Z).
  { rewrite S', IS, Hmax. cbn [count_].
    destruct (Z.eqb_spec (Z.of_nat n) (Z.of_nat (S n) - 1)) as [_|E]; [reflexivity|lia]. }
  assert (H0 : blocks s' !! 0 = Some (mkBlock (Poll 1 0) 0)).
  { rewrite B, list_lookup_insert_ne by lia.
    rewrite IB, lookup_app_l by (rewrite length_replicate; lia).
    apply lookup_replicate_2. lia. }
  change (run (Z.of_nat (S n)) maxSpinCount [0; 0] s')
    with (sync_step (Z.of_nat (S n)) maxSpinCount 0
            (sync_step (Z.of_nat (S n)) maxSpinCount 0 s')).
  rewrite (leave_step _ _ _ 0 1 0); [left; reflexivity|].
  apply (poll_exit_step _ _ _ 0 1 0 0 H0). rewrite Hflag. reflexivity.
Qed.

(** Too many participants.  When more than [N] blocks call [sync(N, _)]
    on a zero-filled [DeviceSyncer], the barrier does not wait for all of
    them: the flag is stored at the [N]-th arrival.  There is a schedule
    under which block 0 returns from its first call while none of the
    blocks [N], [N + 1], ... has even started. *)
Theorem surplus_blocks_release_early (N : nat) (maxSpinCount : Z) (m : nat) :
  2 <= N -> (Z.of_nat N < 2 ^ 31)%Z -> N < m ->
  exists sched,
    List.In (EvReturn 0 0) (trace (run (Z.of_nat N) maxSpinCount sched (launch zeroed m))) /\
    forall b, N <= b -> b < m ->
      blocks (run (Z.of_nat N) maxSpinCount sched (launch zeroed m)) !! b =
        Some (mkBlock Work 0) /\
      forall e, List.In e (trace (run (Z.of_nat N) maxSpinCount sched (launch zeroed m))) ->
        event_block e <> b.
Proof.
  intros HN HNint Hm.
  exists (arrive_sched N ++ [0; 0]).
  split; [apply surplus_first_returns; assumption|].
  assert (Hin : forall b, List.In b (arrive_sched N ++ [0; 0]) -> b < N).
  { intros b H. apply List.in_app_or in H as [H|[<-|[<-|[]]]]; [|lia|lia].
    apply arrive_sched_below. exact H. }
  intros b HbN Hbm.
  assert (Hnot : ~ List.In b (arrive_sched N ++ [0; 0]))
    by (intros H; specialize (Hin b H); lia).
  split.
  - rewrite run_other by exact Hnot. simpl. apply lookup_replicate_2. exact Hbm.
  - intros e He Heq.
    destruct (run_trace_blocks _ _ _ _ _ He) as [[]|H].
    rewrite Heq in H. exact (Hnot H).
Qed.

(** Three blocks call [sync(2, _)]. *)
Lemma surplus_blocks_release_early_witness :
  2 <= 2 /\ (Z.of_nat 2 < 2 ^ 31)%Z /\ 2 < 3 /\
  exists sched,
    List.In (EvReturn 0 0) (trace (run (Z.of_nat 2) 7 sched (launch zeroed 3))) /\
    forall b, 2 <= b -> b < 3 ->
      blocks (run (Z.of_nat 2) 7 sched (launch zeroed 3)) !! b = Some (mkBlock Work 0) /\
      forall e, List.In e (trace (run (Z.of_nat 2) 7 sched (launch zeroed 3))) ->
        event_block e <> b.
Proof.
  assert (H1 : 2 <= 2) by lia.
  assert (H2 : (Z.of_nat 2 < 2 ^ 31)%Z) by reflexivity.
  assert (H3 : 2 < 3) by lia.
  split; [exact H1|split; [exact H2|split; [exact H3|]]].
  exact (surplus_blocks_release_early 2 7 3 H1 H2 H3).
Defined.

(** ** Construction *)

(** A block that finds [flag_] already set, or [count_] already at
    [blockNum - 1], goes through the barrier alone: it takes seven steps
    from its store to its return while no other block has moved. *)
Lemma lone_block_returns (N : nat) (maxSpinCount : Z) (storage : DeviceSyncer) :
  2 <= N -> (Z.of_nat N < 2 ^ 31)%Z ->
  isIncFlag_ storage = 0%Z ->
  flag_ storage <> 0%Z \/ count_ storage = (Z.of_nat N - 1)%Z ->
  List.In (EvReturn 0 0)
    (trace (run (Z.of_nat N) maxSpinCount (replicate 7 0) (launch storage N))) /\
  (forall e,
     List.In e (trace (run (Z.of_nat N) maxSpinCount (replicate 7 0) (launch storage N))) ->
     event_block e = 0) /\
  (forall b, 0 < b -> b < N ->
     blocks (run (Z.of_nat N) maxSpinCount (replicate 7 0) (launch storage N)) !! b =
     Some (mkBlock Work 0)).
Proof.
  intros HN HNint Hs Hbad.
  assert (Hne : Z.of_nat N <> 1%Z) by lia.
  assert (Hin : forall b, List.In b (replicate 7 0) -> b = 0)
    by (intros b Hb; simpl in Hb; intuition congruence).
  split; [|split].
  - change (replicate 7 0) with (replicate 5 0 ++ [0; 0]). rewrite run_app.
    assert (Hb0 : blocks (launch storage N) !! 0 = Some (mkBlock Work 0))
      by (simpl; apply lookup_replicate; split; [reflexivity|lia]).
    destruct (arrive_steps (Z.of_nat N) maxSpinCount Hne (launch storage N) 0 Hb0 Hs)
      as [HB HS].
    revert HB HS. generalize (run (Z.of_nat N) maxSpinCount (replicate 5 0) (launch storage N)).
    intros s5 HB HS. cbn [launch syncer] in HS.
    rewrite (maxOldCnt_N N HN HNint) in HS.
    assert (Hp : blocks s5 !! 0 = Some (mkBlock (Poll 1 0) 0)).
    { rewrite HB. apply list_lookup_insert_eq. simpl. rewrite length_replicate. lia. }
    assert (Hf : poll_cond 1 (flag_ (syncer s5)) = false).
    { rewrite HS. unfold poll_cond. cbn [Z.eqb negb].
      destruct (Z.eqb_spec (count_ storage) (Z.of_nat N - 1)) as [E|E]; [reflexivity|].
      cbn [flag_]. apply Z.eqb_neq. destruct Hbad as [Hf|Hc]; [exact Hf|contradiction]. }
    cbn [run].
    rewrite (leave_step (Z.of_nat N) maxSpinCount _ 0 1 0
               (poll_exit_step (Z.of_nat N) maxSpinCount s5 0 1 0 0 Hp Hf)).
    left. reflexivity.
  - intros e He.
    destruct (run_trace_blocks _ _ _ _ _ He) as [H|H]; [destruct H|apply Hin; exact H].
  - intros b Hb HbN.
    rewrite run_other by (intros H; apply Hin in H; lia).
    simpl. apply lookup_replicate. split; [reflexivity|exact HbN].
Qed.

(** C10 (as amended).  The constructor is defaulted and writes no field.
    Default-initialisation runs it on the storage as it is, so the object
    holds whatever the memory held, and such an object is fit for [sync]
    only if the memory was: on storage whose [isIncFlag_] is zero and whose
    [flag_] is not, or whose [count_] is already [N - 1], block 0 returns
    from its first call while no other block has made a step.
    Value-initialisation, which is how the construction expressions of
    [gpu_utils.hpp] are written, zero-fills the object before the
    constructor runs: whatever the memory held, the object is in the
    all-zero state, and a kernel launched on it is the kernel launched on a
    zero-filled object. *)
Theorem ctor_leaves_storage :
  (forall storage,
     flag_ (DeviceSyncer_ctor storage) = flag_ storage /\
     count_ (DeviceSyncer_ctor storage) = count_ storage /\
     isIncFlag_ (DeviceSyncer_ctor storage) = isIncFlag_ storage) /\
  (forall storage, default_initialize storage = storage) /\
  (forall (N : nat) maxSpinCount storage,
     2 <= N -> (Z.of_nat N < 2 ^ 31)%Z ->
     isIncFlag_ storage = 0%Z ->
     flag_ storage <> 0%Z \/ count_ storage = (Z.of_nat N - 1)%Z ->
     List.In (EvReturn 0 0)
       (trace (run (Z.of_nat N) maxSpinCount (replicate 7 0)
                 (launch (default_initialize storage) N))) /\
     (forall e,
        List.In e (trace (run (Z.of_nat N) maxSpinCount (replicate 7 0)
                            (launch (default_initialize storage) N))) ->
        event_block e = 0) /\
     (forall b, 0 < b -> b < N ->
        blocks (run (Z.of_nat N) maxSpinCount (replicate 7 0)
                  (launch (default_initialize storage) N)) !! b =
        Some (mkBlock Work 0))) /\
  (forall storage, value_initialize storage = zeroed) /\
  (forall storage n, launch (value_initialize storage) n = launch zeroed n).
Proof.
  split; [intros storage; repeat split|].
  split; [intros storage; reflexivity|].
  split; [|split; intros; reflexivity].
  intros N maxSpinCount storage HN HNint Hs Hbad.
  apply (lone_block_returns N maxSpinCount storage HN HNint Hs Hbad).
Qed.

(** Two blocks on default-initialised storage that holds [flag_ = 1]:
    block 0 returns from its first call although block 1 has not entered
    [sync]. *)
Lemma ctor_leaves_storage_witness :
  2 <= 2 /\ (Z.of_nat 2 < 2 ^ 31)%Z /\
  isIncFlag_ (mkDeviceSyncer 1 0 0) = 0%Z /\
  List.In (EvReturn 0 0)
    (trace (run (Z.of_nat 2) (-1) (replicate 7 0)
              (launch (default_initialize (mkDeviceSyncer 1 0 0)) 2))).
Proof.
  assert (H1 : 2 <= 2) by lia.
  assert (H2 : (Z.of_nat 2 < 2 ^ 31)%Z) by reflexivity.
  assert (H3 : isIncFlag_ (mkDeviceSyncer 1 0 0) = 0%Z) by reflexivity.
  assert (H4 : flag_ (mkDeviceSyncer 1 0 0) <> 0%Z \/
               count_ (mkDeviceSyncer 1 0 0) = (Z.of_nat 2 - 1)%Z)
    by (left; discriminate).
  split; [exact H1|split; [exact H2|split; [exact H3|]]].
  exact (proj1 (proj1 (proj2 (proj2 ctor_leaves_storage)) 2 (-1)%Z (mkDeviceSyncer 1 0 0)
                  H1 H2 H3 H4)).
Defined.

(** C10, the claim as stated fails.  Memory that holds 7, 3 and 5 where a
    [DeviceSyncer] is constructed by [new (p) DeviceSyncer()]: construction
    does not leave the fields with what the memory held, it establishes the
    all-zero initial state by itself. *)
Lemma value_initialization_zero_fills :
  value_initialize (mkDeviceSyncer 7 3 5) = mkDeviceSyncer 0 0 0 /\
  flag_ (value_initialize (mkDeviceSyncer 7 3 5)) <> flag_ (mkDeviceSyncer 7 3 5) /\
  count_ (value_initialize (mkDeviceSyncer 7 3 5)) <> count_ (mkDeviceSyncer 7 3 5) /\
  isIncFlag_ (value_initialize (mkDeviceSyncer 7 3 5)) <> isIncFlag_ (mkDeviceSyncer 7 3 5) /\
  launch (value_initialize (mkDeviceSyncer 7 3 5)) 2 = launch zeroed 2.
Proof. repeat split; discriminate. Qed.

End Syncer.

Module GpuUtils.

(** ** The CUDA runtime, as far as the helpers use it *)

Inductive cudaStreamCaptureMode : Type :=
| cudaStreamCaptureModeGlobal
| cudaStreamCaptureModeThreadLocal
| cudaStreamCaptureModeRelaxed.

(** [cudaError_t]; [cudaSuccess] is zero. *)
Definition cudaError_t : Type := Z.
Definition cudaSuccess : cudaError_t := 0%Z.

(** What has been submitted to a stream, oldest first: work, and the mark
    that [cudaStreamBeginCapture] leaves when the stream starts to be
    captured into a graph.  Work submitted after the mark is recorded into
    the graph and is not run. *)
Inductive pending : Type :=
| Memset (ptr : N) (value : Z) (bytes : Z)
| Copy (dst src : N) (bytes : Z)
| CaptureBegin.

(** The work of a stream that the device runs: what was submitted before
    capture began. *)
Fixpoint runnable (q : list pending) : list pending :=
  match q with
  | [] => []
  | CaptureBegin :: _ => []
  | op :: rest => op :: runnable rest
  end.


(** The runtime calls that the helpers issue (the exchange of the capture
    mode is the switch itself and is not listed). *)
Inductive api_call : Type :=
| CallStreamCreate
| CallStreamDestroy (stream : N)
| CallMalloc (bytes : Z)
| CallHostAlloc (bytes : Z)
| CallMemsetAsync (ptr : N) (bytes : Z) (stream : N)
| CallMemcpyAsync (dst src : N) (bytes : Z) (stream : N)
| CallStreamSynchronize (stream : N)
| CallFree (ptr : N)
| CallFreeHost (ptr : N).

(** The state of the runtime seen by one host thread.  Pointers and stream
    handles are block names; [nullptr] is 0 and is never handed out.
    [garbage] is what freshly allocated memory holds, byte by byte, and
    [outcomes] is what the driver will answer to the coming fallible calls
    (success once the list is used up): both are arbitrary.  [calls] is a
    history variable: each call with the capture mode in force when it was
    issued, newest first. *)
Record runtime : Type := mkRuntime {
  capture_mode : cudaStreamCaptureMode;
  device_heap : gmap N (list Z);
  host_heap : gmap N (list Z);
  streams : gmap N (list pending);
  next_handle : N;
  garbage : nat -> Z;
  outcomes : list cudaError_t;
  calls : list (api_call * cudaStreamCaptureMode)
}.

Definition nullptr : N := 0%N.

Definition set_mode (m : cudaStreamCaptureMode) (w : runtime) : runtime :=
  mkRuntime m (device_heap w) (host_heap w) (streams w) (next_handle w)
    (garbage w) (outcomes w) (calls w).

Definition set_device (h : gmap N (list Z)) (w : runtime) : runtime :=
  mkRuntime (capture_mode w) h (host_heap w) (streams w) (next_handle w)
    (garbage w) (outcomes w) (calls w).

Definition set_host (h : gmap N (list Z)) (w : runtime) : runtime :=
  mkRuntime (capture_mode w) (device_heap w) h (streams w) (next_handle w)
    (garbage w) (outcomes w) (calls w).

Definition set_streams (q : gmap N (list pending)) (w : runtime) : runtime :=
  mkRuntime (capture_mode w) (device_heap w) (host_heap w) q (next_handle w)
    (garbage w) (outcomes w) (calls w).

Definition fresh_handle (w : runtime) : N * runtime :=
  (N.succ (next_handle w),
   mkRuntime (capture_mode w) (device_heap w) (host_heap w) (streams w)
     (N.succ (next_handle w)) (garbage w) (outcomes w) (calls w)).

(** The driver's answer to the next fallible call. *)
Definition next_outcome (w : runtime) : cudaError_t * runtime :=
  match outcomes w with
  | [] => (cudaSuccess, w)
  | e :: rest =>
      (e, mkRuntime (capture_mode w) (device_heap w) (host_heap w) (streams w)
            (next_handle w) (garbage w) rest (calls w))
  end.

Definition log_call (c : api_call) (w : runtime) : runtime :=
  mkRuntime (capture_mode w) (device_heap w) (host_heap w) (streams w)
    (next_handle w) (garbage w) (outcomes w) ((c, capture_mode w) :: calls w).

(** [size_t] arithmetic: [nelem * sizeof(T)] wraps at 64 bits. *)
Definition byte_count (nelem sizeofT : Z) : Z := (nelem * sizeofT) mod 2 ^ 64.

Definition uninitialised (w : runtime) (bytes : Z) : list Z :=
  map (garbage w) (seq 0 (Z.to_nat bytes)).

Definition memset_block (value bytes : Z) (old : list Z) : list Z :=
  replicate (Nat.min (Z.to_nat bytes) (length old)) value ++ drop (Z.to_nat bytes) old.

Definition copy_block (bytes : Z) (src old : list Z) : list Z :=
  take (Nat.min (Z.to_nat bytes) (length old)) src ++ drop (Z.to_nat bytes) old.

Definition read_block (w : runtime) (p : N) : list Z :=
  match device_heap w !! p with
  | Some bs => bs
  | None => default [] (host_heap w !! p)
  end.

(** The device carries out one piece of queued work. *)
Definition perform (op : pending) (w : runtime) : runtime :=
  match op with
  | Memset p v n =>
      set_host (alter (memset_block v n) p (host_heap w))
        (set_device (alter (memset_block v n) p (device_heap w)) w)
  | Copy dst src n =>
      let bs := read_block w src in
      set_host (alter (copy_block n bs) dst (host_heap w))
        (set_device (alter (copy_block n bs) dst (device_heap w)) w)
  | CaptureBegin => w
  end.

(** A fallible runtime call: it is logged, the driver answers, and on
    [cudaSuccess] the call has its effect; otherwise it has none and the
    out-parameter is left at [unset]. *)
Definition answered (c : api_call) (w : runtime) : cudaError_t * runtime :=
  next_outcome (log_call c w).

Definition fallible {A} (c : api_call) (effect : runtime -> A * runtime) (unset : A)
  (w : runtime) : (cudaError_t * A) * runtime :=
  let '(err, w1) := answered c w in
  if (err =? cudaSuccess)%Z then let '(a, w2) := effect w1 in ((err, a), w2)
  else ((err, unset), w1).

(** The device works off a stream: it runs what was submitted before
    capture began, and nothing of what was recorded.  (The helpers
    synchronise and destroy streams of their own only, which are not being
    captured; of a stream that is being captured the model says no more than
    that.) *)
Definition run_queue (stream : N) (w : runtime) : runtime :=
  fold_left (fun acc op => perform op acc) (runnable (default [] (streams w !! stream))) w.


Definition enqueue (stream : N) (op : pending) (w : runtime) : runtime :=
  set_streams (alter (fun q => q ++ [op]) stream (streams w)) w.

(** The runtime calls.  They return the error code and the out-parameter,
    when there is one. *)
Definition cudaStreamCreateWithFlags : runtime -> (cudaError_t * N) * runtime :=
  fallible CallStreamCreate
    (fun w => let '(h, w1) := fresh_handle w in (h, set_streams (<[h := []]> (streams w1)) w1))
    nullptr.

Definition cudaStreamDestroy (stream : N) (w : runtime) : runtime :=
  let w1 := run_queue stream (log_call (CallStreamDestroy stream) w) in
  set_streams (delete stream (streams w1)) w1.

Definition cudaMalloc (bytes : Z) : runtime -> (cudaError_t * N) * runtime :=
  fallible (CallMalloc bytes)
    (fun w => let '(h, w1) := fresh_handle w in
              (h, set_device (<[h := uninitialised w1 bytes]> (device_heap w1)) w1))
    nullptr.

Definition cudaHostAlloc (bytes : Z) : runtime -> (cudaError_t * N) * runtime :=
  fallible (CallHostAlloc bytes)
    (fun w => let '(h, w1) := fresh_handle w in
              (h, set_host (<[h := uninitialised w1 bytes]> (host_heap w1)) w1))
    nullptr.

Definition cudaMemsetAsync (ptr : N) (value bytes : Z) (stream : N)
  : runtime -> (cudaError_t * unit) * runtime :=
  fallible (CallMemsetAsync ptr bytes stream)
    (fun w => (tt, enqueue stream (Memset ptr value bytes) w)) tt.

Definition cudaMemcpyAsync (dst src : N) (bytes : Z) (stream : N)
  : runtime -> (cudaError_t * unit) * runtime :=
  fallible (CallMemcpyAsync dst src bytes stream)
    (fun w => (tt, enqueue stream (Copy dst src bytes) w)) tt.

Definition cudaStreamSynchronize (stream : N) : runtime -> (cudaError_t * unit) * runtime :=
  fallible (CallStreamSynchronize stream)
    (fun w => let w1 := run_queue stream w in
              (tt, set_streams (alter (fun _ => []) stream (streams w1)) w1)) tt.

Definition cudaFree (ptr : N) : runtime -> (cudaError_t * unit) * runtime :=
  fallible (CallFree ptr) (fun w => (tt, set_device (delete ptr (device_heap w)) w)) tt.

Definition cudaFreeHost (ptr : N) : runtime -> (cudaError_t * unit) * runtime :=
  fallible (CallFreeHost ptr) (fun w => (tt, set_host (delete ptr (host_heap w)) w)) tt.

(** Host [memset(ptr, value, bytes)]. *)
Definition memset (ptr : N) (value bytes : Z) (w : runtime) : runtime :=
  set_host (alter (memset_block value bytes) ptr (host_heap w)) w.

(** ** Exceptions and scopes *)

(** A computation either returns or throws a [CudaError] carrying the error
    code; the runtime state is threaded through both. *)
Inductive result (A : Type) : Type :=
| Ok (a : A)
| Throw (err : cudaError_t).
Arguments Ok {A} a.
Arguments Throw {A} err.

Definition M (A : Type) : Type := runtime -> result A * runtime.

Definition ret {A} (a : A) : M A := fun w => (Ok a, w).

Definition bind {A B} (m : M A) (k : A -> M B) : M B :=
  fun w =>
    match m w with
    | (Ok a, w1) => k a w1
    | (Throw e, w1) => (Throw e, w1)
    end.

Notation "'let*' x ':=' m 'in' k" := (bind m (fun x => k))
  (at level 10, x binder, k at level 200).

(** [MSCCLPP_CUDATHROW(cmd)]: throw unless [cmd] returned [cudaSuccess]. *)
Definition MSCCLPP_CUDATHROW {A} (cmd : runtime -> (cudaError_t * A) * runtime) : M A :=
  fun w =>
    let '((err, a), w1) := cmd w in
    if (err =? cudaSuccess)%Z then (Ok a, w1) else (Throw err, w1).

(** Modelled from the spec: the constructor of [AvoidCudaGraphCaptureGuard],
    declared in the header and defined in [gpu_utils.cc], which is not among
    the sources.  The header says the guard "will
    cudaThreadExchangeStreamCaptureMode to cudaStreamCaptureModeRelaxed on
    construction and restore the previous mode on destruction"; section 6 of
    the spec calls it the "avoid capture" scoped guard.  The result is the
    field [mode_], which holds the previous mode while the guard lives. *)
Definition AvoidCudaGraphCaptureGuard_ctor (w : runtime) : cudaStreamCaptureMode * runtime :=
  (capture_mode w, set_mode cudaStreamCaptureModeRelaxed w).

(** Modelled from the spec: the destructor of [AvoidCudaGraphCaptureGuard],
    which by the same sentence of the header restores the previous mode. *)
Definition AvoidCudaGraphCaptureGuard_dtor (mode_ : cudaStreamCaptureMode) (w : runtime) : runtime :=
  set_mode mode_ w.

(** The scope of a local [AvoidCudaGraphCaptureGuard cgcGuard;]: the
    destructor runs when the scope is left, by return or by exception. *)
Definition with_guard {A} (body : M A) : M A :=
  fun w =>
    let '(mode_, w1) := AvoidCudaGraphCaptureGuard_ctor w in
    let '(r, w2) := body w1 in
    (r, AvoidCudaGraphCaptureGuard_dtor mode_ w2).

(** Modelled from the spec: the constructor of [CudaStreamWithFlags],
    defined in [gpu_utils.cc] as well.  The header: "A RAII wrapper around
    cudaStream_t that will call cudaStreamDestroy on destruction"; the
    constructor creates the stream with the given flags and throws when
    that fails. *)
Definition CudaStreamWithFlags_ctor : M N := MSCCLPP_CUDATHROW cudaStreamCreateWithFlags.

(** Modelled from the spec: the destructor of [CudaStreamWithFlags], which
    by the same sentence calls [cudaStreamDestroy]. *)
Definition CudaStreamWithFlags_dtor (stream_ : N) (w : runtime) : runtime :=
  cudaStreamDestroy stream_ w.

(** The scope of a local [CudaStreamWithFlags stream(flags);]. *)
Definition with_stream {A} (body : N -> M A) : M A :=
  fun w =>
    match CudaStreamWithFlags_ctor w with
    | (Throw e, w1) => (Throw e, w1)
    | (Ok stream, w1) =>
        let '(r, w2) := body stream w1 in
        (r, CudaStreamWithFlags_dtor stream w2)
    end.

(** ** The helpers *)

(** [detail::cudaCalloc<T>(nelem)], with [sizeofT = sizeof(T)]. *)
Definition cudaCalloc (sizeofT nelem : Z) : M N :=
  with_guard
    (with_stream (fun stream =>
       let* ptr := MSCCLPP_CUDATHROW (cudaMalloc (byte_count nelem sizeofT)) in
       let* _ := MSCCLPP_CUDATHROW (cudaMemsetAsync ptr 0 (byte_count nelem sizeofT) stream) in
       let* _ := MSCCLPP_CUDATHROW (cudaStreamSynchronize stream) in
       ret ptr)).

(** [detail::cudaExtCalloc<T>(nelem)]: the same text, except that on the HIP
    platform the block comes from [hipExtMallocWithFlags], which is taken to
    allocate as [cudaMalloc] does. *)
Definition cudaExtCalloc (sizeofT nelem : Z) : M N :=
  with_guard
    (with_stream (fun stream =>
       let* ptr := MSCCLPP_CUDATHROW (cudaMalloc (byte_count nelem sizeofT)) in
       let* _ := MSCCLPP_CUDATHROW (cudaMemsetAsync ptr 0 (byte_count nelem sizeofT) stream) in
       let* _ := MSCCLPP_CUDATHROW (cudaStreamSynchronize stream) in
       ret ptr)).

(** [detail::cudaHostCalloc<T>(nelem)]. *)
Definition cudaHostCalloc (sizeofT nelem : Z) : M N :=
  with_guard
    (let* ptr := MSCCLPP_CUDATHROW (cudaHostAlloc (byte_count nelem sizeofT)) in
     fun w => (Ok ptr, memset ptr 0 (byte_count nelem sizeofT) w)).

(** [CudaDeleter<T>::operator()] and [CudaHostDeleter<T>::operator()]. *)
Definition CudaDeleter (ptr : N) : M unit :=
  with_guard (MSCCLPP_CUDATHROW (cudaFree ptr)).

Definition CudaHostDeleter (ptr : N) : M unit :=
  with_guard (MSCCLPP_CUDATHROW (cudaFreeHost ptr)).

(** The smart pointer that [safeAlloc] returns: the pointer and the deleter
    it will be freed with. *)
Record Memory : Type := mkMemory {
  get : N;
  get_deleter : N -> M unit
}.

(** [detail::safeAlloc<T, alloc, Deleter, Memory>(nelem)].  The local [ptr]
    is assigned only when [alloc] returns, so in the handler it still holds
    its initial value. *)
Definition safeAlloc (alloc : Z -> M N) (Deleter : N -> M unit) (nelem : Z) : M Memory :=
  fun w =>
    let ptr := nullptr in
    match alloc nelem w with
    | (Ok ptr, w1) => (Ok (mkMemory ptr Deleter), w1)
    | (Throw e, w1) =>
        if (ptr =? nullptr)%N then (Throw e, w1)
        else
          match Deleter ptr w1 with
          | (Ok _, w2) => (Throw e, w2)
          | (Throw e', w2) => (Throw e', w2)
          end
    end.

Definition allocSharedCuda (sizeofT count : Z) : M Memory :=
  safeAlloc (cudaCalloc sizeofT) CudaDeleter count.

Definition allocExtSharedCuda (sizeofT count : Z) : M Memory :=
  safeAlloc (cudaExtCalloc sizeofT) CudaDeleter count.

Definition allocUniqueCuda (sizeofT count : Z) : M Memory :=
  safeAlloc (cudaCalloc sizeofT) CudaDeleter count.

Definition allocExtUniqueCuda (sizeofT count : Z) : M Memory :=
  safeAlloc (cudaExtCalloc sizeofT) CudaDeleter count.

(** The allocation of [makeSharedCudaHost] and [makeUniqueCudaHost]; the
    placement-new that follows it is the caller's constructor. *)
Definition allocCudaHost (sizeofT count : Z) : M Memory :=
  safeAlloc (cudaHostCalloc sizeofT) CudaHostDeleter count.

(** [memcpyCudaAsync<T>(dst, src, count, stream, kind)]. *)
Definition memcpyCudaAsync (sizeofT : Z) (dst src : N) (count : Z) (stream : N) : M unit :=
  with_guard
    (MSCCLPP_CUDATHROW (cudaMemcpyAsync dst src (byte_count count sizeofT) stream)).

(** [memcpyCuda<T>(dst, src, count, kind)]. *)
Definition memcpyCuda (sizeofT : Z) (dst src : N) (count : Z) : M unit :=
  with_guard
    (with_stream (fun stream =>
       let* _ := MSCCLPP_CUDATHROW (cudaMemcpyAsync dst src (byte_count count sizeofT) stream) in
       MSCCLPP_CUDATHROW (cudaStreamSynchronize stream))).


(** ** The capture mode *)



Lemma perform_mode op w : capture_mode (perform op w) = capture_mode w.
Proof. destruct op; reflexivity. Qed.

Lemma perform_calls op w : calls (perform op w) = calls w.
Proof. destruct op; reflexivity. Qed.

Lemma run_queue_mode stream w :
  capture_mode (run_queue stream w) = capture_mode w /\
  calls (run_queue stream w) = calls w.
Proof.
  unfold run_queue. generalize (runnable (default [] (streams w !! stream))). intros q.
  revert w. induction q as [|op q IH]; intros w; simpl; [auto|].
  destruct (IH (perform op w)) as [-> ->].
  rewrite perform_mode, perform_calls. auto.
Qed.













(** ** Zero-filled allocations *)

Lemma answered_fields c w :
  device_heap (answered c w).2 = device_heap w /\
  host_heap (answered c w).2 = host_heap w /\
  streams (answered c w).2 = streams w /\
  next_handle (answered c w).2 = next_handle w /\
  garbage (answered c w).2 = garbage w.
Proof. unfold answered, next_outcome, log_call. simpl. destruct (outcomes w); simpl; auto. Qed.

Lemma call_ok {A} c (effect : runtime -> A * runtime) unset w a w' :
  MSCCLPP_CUDATHROW (fallible c effect unset) w = (Ok a, w') ->
  effect (answered c w).2 = (a, w').
Proof.
  unfold MSCCLPP_CUDATHROW, fallible.
  destruct (answered c w) as [err w1]. simpl.
  destruct (err =? cudaSuccess)%Z eqn:E.
  - destruct (effect w1) as [a' w2]. rewrite E. intros [= -> ->]. reflexivity.
  - rewrite E. intros H. discriminate H.
Qed.

Lemma bind_ok {A B} (m : M A) (k : A -> M B) w b w' :
  bind m k w = (Ok b, w') -> exists a w1, m w = (Ok a, w1) /\ k a w1 = (Ok b, w').
Proof.
  unfold bind. destruct (m w) as [[a|e] w1]; intros H; [|discriminate H].
  exists a, w1. auto.
Qed.

Lemma with_stream_ok {A} (body : N -> M A) w a w' :
  with_stream body w = (Ok a, w') ->
  exists stream w1 w2,
    CudaStreamWithFlags_ctor w = (Ok stream, w1) /\
    body stream w1 = (Ok a, w2) /\ w' = CudaStreamWithFlags_dtor stream w2.
Proof.
  unfold with_stream. destruct (CudaStreamWithFlags_ctor w) as [[stream|e] w1];
    [|intros H; discriminate H].
  destruct (body stream w1) as [r w2] eqn:Hb. intros [= -> <-].
  exists stream, w1, w2. auto.
Qed.

Lemma with_guard_ok {A} (body : M A) w a w' :
  with_guard body w = (Ok a, w') ->
  exists w2, body (set_mode cudaStreamCaptureModeRelaxed w) = (Ok a, w2) /\
             w' = set_mode (capture_mode w) w2.
Proof.
  unfold with_guard, AvoidCudaGraphCaptureGuard_ctor, AvoidCudaGraphCaptureGuard_dtor.
  destruct (body (set_mode cudaStreamCaptureModeRelaxed w)) as [r w2].
  intros [= -> <-]. exists w2. auto.
Qed.

Lemma run_queue_empty stream w : streams w !! stream = Some [] -> run_queue stream w = w.
Proof. intros H. unfold run_queue. rewrite H. reflexivity. Qed.

Lemma run_queue_single stream op w :
  streams w !! stream = Some [op] -> run_queue stream w = perform op w.
Proof. intros H. unfold run_queue. rewrite H. destruct op; reflexivity. Qed.

Lemma length_uninitialised w bytes : length (uninitialised w bytes) = Z.to_nat bytes.
Proof. unfold uninitialised. rewrite length_map, length_seq. reflexivity. Qed.

Lemma memset_block_all value bytes old :
  length old = Z.to_nat bytes ->
  memset_block value bytes old = replicate (Z.to_nat bytes) value.
Proof.
  intros H. unfold memset_block. rewrite H, Nat.min_id.
  rewrite drop_ge by lia. apply app_nil_r.
Qed.

Ltac call_fields H :=
  apply call_ok in H;
  match type of H with
  | context [answered ?c ?w] =>
      let F := fresh "F" in
      pose proof (answered_fields c w) as F;
      destruct F as (? & ? & ? & ? & ?);
      destruct (answered c w).2; simpl in *
  end.

Lemma stream_ctor_ok w stream w1 :
  CudaStreamWithFlags_ctor w = (Ok stream, w1) ->
  streams w1 !! stream = Some [] /\
  device_heap w1 = device_heap w /\ host_heap w1 = host_heap w.
Proof.
  unfold CudaStreamWithFlags_ctor, cudaStreamCreateWithFlags. intros H.
  call_fields H. unfold fresh_handle in H. simpl in H. injection H as <- <-. simpl.
  split; [apply lookup_insert_eq|auto].
Qed.

Lemma malloc_ok bytes w p w1 :
  MSCCLPP_CUDATHROW (cudaMalloc bytes) w = (Ok p, w1) ->
  (exists bs, device_heap w1 !! p = Some bs /\ length bs = Z.to_nat bytes) /\
  streams w1 = streams w.
Proof.
  unfold cudaMalloc. intros H.
  call_fields H. unfold fresh_handle in H. simpl in H. injection H as <- <-. simpl.
  split; [|auto]. eexists. split; [apply lookup_insert_eq|apply length_uninitialised].
Qed.

Lemma host_alloc_ok bytes w p w1 :
  MSCCLPP_CUDATHROW (cudaHostAlloc bytes) w = (Ok p, w1) ->
  exists bs, host_heap w1 !! p = Some bs /\ length bs = Z.to_nat bytes.
Proof.
  unfold cudaHostAlloc. intros H.
  call_fields H. unfold fresh_handle in H. simpl in H. injection H as <- <-. simpl.
  eexists. split; [apply lookup_insert_eq|apply length_uninitialised].
Qed.

Lemma memset_async_ok ptr value bytes stream w u w1 :
  MSCCLPP_CUDATHROW (cudaMemsetAsync ptr value bytes stream) w = (Ok u, w1) ->
  streams w1 = alter (fun q => q ++ [Memset ptr value bytes]) stream (streams w) /\
  device_heap w1 = device_heap w.
Proof.
  unfold cudaMemsetAsync. intros H.
  call_fields H. injection H as <- <-. unfold enqueue. simpl. split; congruence.
Qed.

Lemma synchronize_memset_ok stream ptr value bytes w u w1 :
  streams w !! stream = Some [Memset ptr value bytes] ->
  MSCCLPP_CUDATHROW (cudaStreamSynchronize stream) w = (Ok u, w1) ->
  device_heap w1 = alter (memset_block value bytes) ptr (device_heap w) /\
  streams w1 !! stream = Some [].
Proof.
  unfold cudaStreamSynchronize. intros Hq H.
  call_fields H. injection H as <- <-.
  rewrite run_queue_single with (op := Memset ptr value bytes) by (simpl; congruence).
  simpl. split; [congruence|].
  rewrite lookup_alter_eq. simpl. replace streams0 with (streams w) by congruence.
  rewrite Hq. reflexivity.
Qed.

Lemma destroy_idle stream w :
  streams w !! stream = Some [] ->
  device_heap (cudaStreamDestroy stream w) = device_heap w.
Proof.
  intros Hq. unfold cudaStreamDestroy.
  rewrite run_queue_empty by exact Hq. reflexivity.
Qed.

Lemma cudaCalloc_zero sizeofT nelem w p w' :
  cudaCalloc sizeofT nelem w = (Ok p, w') ->
  device_heap w' !! p = Some (replicate (Z.to_nat (byte_count nelem sizeofT)) 0%Z).
Proof.
  intros H. unfold cudaCalloc in H.
  apply with_guard_ok in H as (w2 & H & ->).
  apply with_stream_ok in H as (stream & w1 & w3 & Hctor & H & ->).
  apply bind_ok in H as (ptr & wa & Hmalloc & H).
  apply bind_ok in H as (u & wb & Hmemset & H).
  apply bind_ok in H as (u' & wc & Hsync & H).
  injection H as -> ->.
  apply stream_ctor_ok in Hctor as (Hq1 & _ & _).
  apply malloc_ok in Hmalloc as ((bs & Hbs & Hlen) & Hqa).
  apply memset_async_ok in Hmemset as (Hqb & Hdb).
  assert (Hq : streams wb !! stream = Some [Memset p 0 (byte_count nelem sizeofT)]).
  { rewrite Hqb, lookup_alter_eq, Hqa, Hq1. reflexivity. }
  apply (synchronize_memset_ok _ _ _ _ _ _ _ Hq) in Hsync as (Hdc & Hqc).
  unfold CudaStreamWithFlags_dtor, set_mode. cbn [device_heap].
  rewrite (destroy_idle _ _ Hqc), Hdc, lookup_alter_eq, Hdb, Hbs. simpl.
  rewrite memset_block_all by exact Hlen. reflexivity.
Qed.


Lemma cudaHostCalloc_zero sizeofT nelem w p w' :
  cudaHostCalloc sizeofT nelem w = (Ok p, w') ->
  host_heap w' !! p = Some (replicate (Z.to_nat (byte_count nelem sizeofT)) 0%Z).
Proof.
  intros H. unfold cudaHostCalloc in H.
  apply with_guard_ok in H as (w2 & H & ->).
  apply bind_ok in H as (ptr & wa & Halloc & H).
  injection H as -> <-.
  apply host_alloc_ok in Halloc as (bs & Hbs & Hlen).
  unfold set_mode, memset, set_host. cbn [host_heap].
  rewrite lookup_alter_eq, Hbs. simpl.
  rewrite memset_block_all by exact Hlen. reflexivity.
Qed.

(** ** A [DeviceSyncer] in allocated memory *)

(** The object representation assumed for [DeviceSyncer]: three 32-bit
    little-endian words, [flag_] at offset 0, [count_] at 4, [isIncFlag_] at
    8, so [sizeof(DeviceSyncer)] is 12. *)
Definition sizeof_DeviceSyncer : Z := 12.

Definition read_uint32 (bs : list Z) (off : nat) : option Z :=
  match bs !! off, bs !! (off + 1), bs !! (off + 2), bs !! (off + 3) with
  | Some b0, Some b1, Some b2, Some b3 =>
      Some (b0 + 256 * b1 + 65536 * b2 + 16777216 * b3)%Z
  | _, _, _, _ => None
  end.

Definition read_int32 (bs : list Z) (off : nat) : option Z :=
  match read_uint32 bs off with
  | Some u => Some (if (u <? 2 ^ 31)%Z then u else (u - 2 ^ 32)%Z)
  | None => None
  end.

(** Element [i] of an array of [DeviceSyncer] stored in [bs]. *)
Definition DeviceSyncer_at (bs : list Z) (i : nat) : option Syncer.DeviceSyncer :=
  match read_int32 bs (12 * i), read_uint32 bs (12 * i + 4), read_int32 bs (12 * i + 8) with
  | Some f, Some c, Some s => Some (Syncer.mkDeviceSyncer f c s)
  | _, _, _ => None
  end.

Lemma read_uint32_zero n off :
  off + 4 <= n -> read_uint32 (replicate n 0%Z) off = Some 0%Z.
Proof.
  intros H. unfold read_uint32.
  rewrite !lookup_replicate_2 by lia. reflexivity.
Qed.

Lemma DeviceSyncer_at_zero n i :
  12 * (i + 1) <= n -> DeviceSyncer_at (replicate n 0%Z) i = Some Syncer.zeroed.
Proof.
  intros H. unfold DeviceSyncer_at, read_int32.
  rewrite !read_uint32_zero by lia. reflexivity.
Qed.

(** C6.  When [cudaCalloc<T>(nelem)], [cudaExtCalloc<T>(nelem)] or
    [cudaHostCalloc<T>(nelem)] returns, whatever the memory held when it was
    allocated, the block it returns consists of
    [nelem * sizeof(T)] (in [size_t] arithmetic) bytes that are all zero;
    and every [DeviceSyncer] lying in a zero-filled block has
    [flag_ = 0], [count_ = 0] and [isIncFlag_ = 0], which is the state
    [Syncer.zeroed] that the barrier starts from. *)
Theorem calloc_zero_filled :
  (forall sizeofT nelem w p w',
     cudaCalloc sizeofT nelem w = (Ok p, w') ->
     device_heap w' !! p = Some (replicate (Z.to_nat (byte_count nelem sizeofT)) 0%Z)) /\
  (forall sizeofT nelem w p w',
     cudaExtCalloc sizeofT nelem w = (Ok p, w') ->
     device_heap w' !! p = Some (replicate (Z.to_nat (byte_count nelem sizeofT)) 0%Z)) /\
  (forall sizeofT nelem w p w',
     cudaHostCalloc sizeofT nelem w = (Ok p, w') ->
     host_heap w' !! p = Some (replicate (Z.to_nat (byte_count nelem sizeofT)) 0%Z)) /\
  (forall n i, 12 * (i + 1) <= n ->
     DeviceSyncer_at (replicate n 0%Z) i = Some Syncer.zeroed).
Proof.
  split; [exact cudaCalloc_zero|].
  split; [exact cudaCalloc_zero|].
  split; [exact cudaHostCalloc_zero|].
  exact DeviceSyncer_at_zero.
Qed.

(** A runtime with nothing allocated, whose fresh memory holds 170, 171,
    ... and whose driver will give the answers [outs]. *)
Definition idle_runtime (outs : list cudaError_t) : runtime :=
  mkRuntime cudaStreamCaptureModeGlobal ∅ ∅ ∅ 0%N (fun i => (170 + Z.of_nat i)%Z) outs [].

Lemma calloc_zero_filled_witness :
  device_heap (cudaCalloc sizeof_DeviceSyncer 2%Z (idle_runtime [])).2 !! 2%N =
    Some (replicate 24 0%Z) /\
  DeviceSyncer_at (replicate 24 0%Z) 1 = Some Syncer.zeroed.
Proof.
  split.
  - apply (proj1 calloc_zero_filled sizeof_DeviceSyncer 2%Z (idle_runtime []) 2%N).
    vm_compute. reflexivity.
  - apply (proj2 (proj2 (proj2 calloc_zero_filled)) 24 1). vm_compute. lia.
Defined.

(** ** Failure of an allocation *)

(** C7, at the failing input.  The stream is created and [cudaMalloc]
    succeeds, then [cudaMemsetAsync] answers error 5.  [cudaCalloc] throws;
    in the handler of [safeAlloc] the local [ptr] is still [nullptr], so the
    deleter is not run and the exception is rethrown: the caller gets the
    error while the block that [cudaMalloc] returned is still allocated,
    with nothing left that refers to it. *)
Lemma safeAlloc_leaks_device_block :
  (allocUniqueCuda sizeof_DeviceSyncer 1%Z (idle_runtime [0; 0; 5]%Z)).1 = Throw 5%Z /\
  device_heap (idle_runtime [0; 0; 5]%Z) !! 2%N = None /\
  device_heap (allocUniqueCuda sizeof_DeviceSyncer 1%Z (idle_runtime [0; 0; 5]%Z)).2 !! 2%N =
    Some [170; 171; 172; 173; 174; 175; 176; 177; 178; 179; 180; 181]%Z /\
  streams (allocUniqueCuda sizeof_DeviceSyncer 1%Z (idle_runtime [0; 0; 5]%Z)).2 !! 1%N = None /\
  capture_mode (allocUniqueCuda sizeof_DeviceSyncer 1%Z (idle_runtime [0; 0; 5]%Z)).2 =
    cudaStreamCaptureModeGlobal.
Proof. vm_compute. repeat split. Qed.

(** The same for any runtime, any element type and count, and also when it
    is [cudaStreamSynchronize] that fails: the block stays allocated. *)
Lemma safeAlloc_leaks sizeofT nelem w e rest :
  e <> cudaSuccess ->
  outcomes w = [cudaSuccess; cudaSuccess; e] ++ rest \/
  outcomes w = [cudaSuccess; cudaSuccess; cudaSuccess; e] ++ rest ->
  (safeAlloc (cudaCalloc sizeofT) CudaDeleter nelem w).1 = Throw e /\
  exists bs,
    device_heap (safeAlloc (cudaCalloc sizeofT) CudaDeleter nelem w).2
      !! N.succ (N.succ (next_handle w)) = Some bs.
Proof.
  intros He Hout. apply Z.eqb_neq in He.
  destruct w as [mode dev host str nh g outs cs]. simpl in Hout.
  destruct Hout as [-> | ->];
    unfold safeAlloc, cudaCalloc, with_guard, with_stream, CudaStreamWithFlags_ctor,
      CudaStreamWithFlags_dtor, cudaStreamDestroy, bind, ret, MSCCLPP_CUDATHROW,
      cudaStreamCreateWithFlags, cudaMalloc, cudaMemsetAsync, cudaStreamSynchronize,
      fallible, answered, next_outcome, log_call, fresh_handle, enqueue,
      AvoidCudaGraphCaptureGuard_ctor, AvoidCudaGraphCaptureGuard_dtor,
      set_mode, set_streams, set_device;
    cbn [capture_mode device_heap host_heap streams next_handle garbage outcomes calls
         fst snd app Z.eqb cudaSuccess];
    rewrite ?He; cbn [fst snd N.eqb nullptr].
  - split; [reflexivity|].
    eexists. unfold run_queue. cbn [streams device_heap].
    rewrite lookup_insert_eq. simpl. apply lookup_insert_eq.
  - split; [reflexivity|].
    eexists. unfold run_queue. cbn [streams device_heap].
    rewrite lookup_alter_eq, lookup_insert_eq. simpl.
    rewrite lookup_alter_eq, lookup_insert_eq. simpl. reflexivity.
Qed.


(** The handler of [safeAlloc] never frees: for every allocator and deleter
    the runtime is left exactly as the allocator left it, and the result is
    the allocator's, wrapped on success and rethrown on failure. *)
Theorem safeAlloc_never_frees (alloc : Z -> M N) (Deleter : N -> M unit) (nelem : Z)
    (w : runtime) :
  (safeAlloc alloc Deleter nelem w).2 = (alloc nelem w).2 /\
  (safeAlloc alloc Deleter nelem w).1 =
    match (alloc nelem w).1 with
    | Ok ptr => Ok (mkMemory ptr Deleter)
    | Throw e => Throw e
    end.
Proof.
  unfold safeAlloc. destruct (alloc nelem w) as [[ptr|e] w1]; simpl; auto.
Qed.

Lemma call_throw {A} c (effect : runtime -> A * runtime) unset w e w' :
  MSCCLPP_CUDATHROW (fallible c effect unset) w = (Throw e, w') ->
  w' = (answered c w).2.
Proof.
  unfold MSCCLPP_CUDATHROW, fallible.
  destruct (answered c w) as [err w1]. simpl.
  destruct (err =? cudaSuccess)%Z eqn:E.
  - destruct (effect w1) as [a' w2]. rewrite E. intros H. discriminate H.
  - rewrite E. intros [= _ <-]. reflexivity.
Qed.

(** A failed [cudaHostCalloc] holds nothing: its only fallible step is the
    allocation itself, so when it throws both heaps, the streams and the
    capture mode are what they were. *)
Theorem cudaHostCalloc_failure_holds_nothing (sizeofT nelem : Z) (w w' : runtime)
    (e : cudaError_t) :
  cudaHostCalloc sizeofT nelem w = (Throw e, w') ->
  host_heap w' = host_heap w /\ device_heap w' = device_heap w /\
  streams w' = streams w /\ capture_mode w' = capture_mode w.
Proof.
  unfold cudaHostCalloc, with_guard, AvoidCudaGraphCaptureGuard_ctor,
    AvoidCudaGraphCaptureGuard_dtor, bind.
  destruct (MSCCLPP_CUDATHROW (cudaHostAlloc (byte_count nelem sizeofT))
              (set_mode cudaStreamCaptureModeRelaxed w)) as [[p|e'] w1] eqn:Ha;
    simpl; intros H; [discriminate H|].
  injection H as _ <-.
  unfold cudaHostAlloc in Ha. apply call_throw in Ha. subst w1.
  destruct (answered_fields (CallHostAlloc (byte_count nelem sizeofT))
              (set_mode cudaStreamCaptureModeRelaxed w)) as (Hd & Hh & Hs & _ & _).
  simpl in *. auto.
Qed.

Lemma cudaHostCalloc_failure_witness :
  host_heap (cudaHostCalloc 12 1 (idle_runtime [2%Z])).2 = host_heap (idle_runtime [2%Z]).
Proof.
  exact (proj1 (cudaHostCalloc_failure_holds_nothing 12 1 (idle_runtime [2%Z])
                  (cudaHostCalloc 12 1 (idle_runtime [2%Z])).2 2%Z eq_refl)).
Defined.


(** ** What the helpers leave behind *)

(** Handles are handed out in increasing order: in a well-formed runtime
    nothing lives at a handle above [next_handle]. *)
Definition well_formed (w : runtime) : Prop :=
  forall p, (next_handle w < p)%N ->
    device_heap w !! p = None /\ host_heap w !! p = None /\ streams w !! p = None.

(** The runtime once the driver has answered a call: heaps, streams,
    handles and capture mode are as before. *)
Definition answered_runtime (w : runtime) (outs : list cudaError_t)
    (cs : list (api_call * cudaStreamCaptureMode)) : runtime :=
  mkRuntime (capture_mode w) (device_heap w) (host_heap w) (streams w) (next_handle w)
    (garbage w) outs cs.

Lemma throw_cases {A} c (effect : runtime -> A * runtime) unset w :
  exists outs cs,
    MSCCLPP_CUDATHROW (fallible c effect unset) w =
      (Ok (effect (answered_runtime w outs cs)).1, (effect (answered_runtime w outs cs)).2) \/
    exists e, e <> cudaSuccess /\
      MSCCLPP_CUDATHROW (fallible c effect unset) w = (Throw e, answered_runtime w outs cs).
Proof.
  unfold MSCCLPP_CUDATHROW, fallible, answered, next_outcome, log_call, answered_runtime.
  cbn [outcomes capture_mode device_heap host_heap streams next_handle garbage calls].
  destruct (outcomes w) as [|e rest].
  - exists [], ((c, capture_mode w) :: calls w). left.
    cbn [Z.eqb cudaSuccess]. destruct (effect _) as [a w2]. reflexivity.
  - exists rest, ((c, capture_mode w) :: calls w).
    destruct (e =? cudaSuccess)%Z eqn:Ee.
    + left. destruct (effect _) as [a w2]. rewrite ?Ee. reflexivity.
    + right. exists e. rewrite ?Ee. split; [apply Z.eqb_neq; exact Ee|reflexivity].
Qed.

Lemma well_formed_fresh w :
  well_formed w ->
  device_heap w !! N.succ (next_handle w) = None /\
  host_heap w !! N.succ (next_handle w) = None /\
  streams w !! N.succ (next_handle w) = None /\
  device_heap w !! N.succ (N.succ (next_handle w)) = None /\
  host_heap w !! N.succ (N.succ (next_handle w)) = None /\
  streams w !! N.succ (N.succ (next_handle w)) = None.
Proof.
  intros Hw.
  destruct (Hw (N.succ (next_handle w)) ltac:(lia)) as (? & ? & ?).
  destruct (Hw (N.succ (N.succ (next_handle w))) ltac:(lia)) as (? & ? & ?).
  auto 10.
Qed.

Lemma alter_absent {A} (f : A -> A) (m : gmap N A) p : m !! p = None -> alter f p m = m.
Proof.
  intros H. apply map_eq. intros q. destruct (decide (p = q)) as [<-|Hne].
  - rewrite lookup_alter_eq, H. reflexivity.
  - apply lookup_alter_ne. exact Hne.
Qed.

Lemma well_formed_grow w w' :
  well_formed w -> (next_handle w <= next_handle w')%N ->
  (forall q, (next_handle w' < q)%N ->
     device_heap w' !! q = device_heap w !! q /\ host_heap w' !! q = host_heap w !! q /\
     streams w' !! q = streams w !! q) ->
  well_formed w'.
Proof.
  intros Hw Hle Hsame q Hq.
  destruct (Hsame q Hq) as (-> & -> & ->). apply Hw. lia.
Qed.

Ltac step_call :=
  match goal with
  | |- context [MSCCLPP_CUDATHROW (fallible ?c ?eff ?u) ?w0] =>
      let o := fresh "o" in let cs := fresh "cs" in
      let e := fresh "e" in let He := fresh "He" in let E := fresh "E" in
      destruct (throw_cases c eff u w0) as (o & cs & [E|(e & He & E)]);
      rewrite E; clear E
  end.

Ltac runtime_cbn :=
  cbn [fresh_handle set_streams set_mode set_device set_host answered_runtime enqueue
       log_call fst snd ret
       capture_mode device_heap host_heap streams next_handle garbage outcomes calls].

Lemma run_queue_at stream w q :
  streams w !! stream = Some q ->
  run_queue stream w = fold_left (fun acc op => perform op acc) (runnable q) w.
Proof. intros H. unfold run_queue. rewrite H. reflexivity. Qed.

Lemma perform_fields op w :
  streams (perform op w) = streams w /\ next_handle (perform op w) = next_handle w.
Proof. destruct op; auto. Qed.

Lemma run_queue_fields stream w :
  streams (run_queue stream w) = streams w /\
  next_handle (run_queue stream w) = next_handle w.
Proof.
  unfold run_queue. generalize (runnable (default [] (streams w !! stream))). intros q.
  revert w. induction q as [|op q IH]; intros w; simpl; [auto|].
  destruct (IH (perform op w)) as [-> ->]. apply perform_fields.
Qed.

(** Destroying a stream lets its pending work complete and removes it. *)
Lemma destroy_fields stream w :
  capture_mode (cudaStreamDestroy stream w) = capture_mode w /\
  next_handle (cudaStreamDestroy stream w) = next_handle w /\
  streams (cudaStreamDestroy stream w) = delete stream (streams w).
Proof.
  unfold cudaStreamDestroy. cbn [capture_mode next_handle streams set_streams].
  destruct (run_queue_mode stream (log_call (CallStreamDestroy stream) w)) as [-> _].
  destruct (run_queue_fields stream (log_call (CallStreamDestroy stream) w)) as [-> ->].
  auto.
Qed.

Lemma destroy_heaps stream w q :
  streams w !! stream = Some q ->
  device_heap (cudaStreamDestroy stream w) =
    device_heap (fold_left (fun acc op => perform op acc) (runnable q)
                   (log_call (CallStreamDestroy stream) w)) /\
  host_heap (cudaStreamDestroy stream w) =
    host_heap (fold_left (fun acc op => perform op acc) (runnable q)
                 (log_call (CallStreamDestroy stream) w)).
Proof.
  intros H. unfold cudaStreamDestroy. cbn [device_heap host_heap set_streams].
  rewrite (run_queue_at stream _ q) by exact H. auto.
Qed.

Ltac runtime_cbn_in H :=
  cbn [fresh_handle set_streams set_mode set_device set_host answered_runtime enqueue
       log_call fst snd ret
       capture_mode device_heap host_heap streams next_handle garbage outcomes calls] in H.

Ltac queue_lookup :=
  runtime_cbn; rewrite ?lookup_alter_eq, ?lookup_insert_eq; reflexivity.

(** Name the runtime after the destruction of the stream and keep what is
    known of its fields. *)
Ltac open_destroy Em En Es Ed Eh :=
  match goal with
  | |- context [cudaStreamDestroy ?s ?W] =>
      destruct (destroy_fields s W) as (Em & En & Es);
      edestruct (destroy_heaps s W) as (Ed & Eh); [queue_lookup|];
      revert Em En Es Ed Eh; generalize (cudaStreamDestroy s W);
      intros ?Wd; runtime_cbn; cbn [fold_left perform app runnable]; runtime_cbn;
      intros Em En Es Ed Eh
  end.

(** Everything [cudaCalloc] can do.  From a well-formed runtime, whatever
    the driver answers: the capture mode, the streams and the host heap are
    afterwards what they were; on success the device heap has gained one
    block, zero-filled; on failure it is unchanged or has gained one
    block. *)
Lemma cudaCalloc_cases sizeofT nelem w r w' :
  well_formed w ->
  cudaCalloc sizeofT nelem w = (r, w') ->
  capture_mode w' = capture_mode w /\ streams w' = streams w /\
  host_heap w' = host_heap w /\ well_formed w' /\
  match r with
  | Ok p =>
      p = N.succ (N.succ (next_handle w)) /\
      device_heap w' =
        <[p := replicate (Z.to_nat (byte_count nelem sizeofT)) 0%Z]> (device_heap w)
  | Throw e =>
      e <> cudaSuccess /\
      (device_heap w' = device_heap w \/
       exists bs, length bs = Z.to_nat (byte_count nelem sizeofT) /\
                  device_heap w' = <[N.succ (N.succ (next_handle w)) := bs]> (device_heap w))
  end.
Proof.
  intros Hw. destruct (well_formed_fresh w Hw) as (Hd1 & Hh1 & Hs1 & Hd2 & Hh2 & Hs2).
  unfold cudaCalloc, with_guard, with_stream, CudaStreamWithFlags_ctor,
    CudaStreamWithFlags_dtor,
    AvoidCudaGraphCaptureGuard_ctor, AvoidCudaGraphCaptureGuard_dtor,
    cudaStreamCreateWithFlags, bind, cudaMalloc, cudaMemsetAsync, cudaStreamSynchronize.
  step_call.
  2:{ intros [= <- <-]. cbn.
      split; [reflexivity|]. split; [reflexivity|]. split; [reflexivity|].
      split; [apply (well_formed_grow w); [exact Hw|cbn; lia|cbn; auto]|].
      split; [exact He|left; reflexivity]. }
  runtime_cbn. step_call; runtime_cbn.
  2:{ intros [= <- <-]. open_destroy Em En Es Ed Eh.
      rewrite (delete_insert_id _ _ _ Hs1) in Es.
      split; [reflexivity|]. split; [exact Es|]. split; [exact Eh|].
      split; [|split; [exact He|left; exact Ed]].
      apply (well_formed_grow w); [exact Hw|runtime_cbn; lia|].
      intros q Hq. runtime_cbn. rewrite Ed, Eh, Es. auto. }
  step_call; runtime_cbn.
  2:{ intros [= <- <-]. open_destroy Em En Es Ed Eh.
      rewrite (delete_insert_id _ _ _ Hs1) in Es.
      split; [reflexivity|]. split; [exact Es|]. split; [exact Eh|].
      split; [|split; [exact He|right; eexists; split; [|exact Ed];
                                apply length_uninitialised]].
      apply (well_formed_grow w); [exact Hw|runtime_cbn; lia|].
      intros q Hq. runtime_cbn_in Hq. runtime_cbn. rewrite Ed, Eh, Es.
      rewrite lookup_insert_ne by lia. auto. }
  step_call; runtime_cbn.
  2:{ intros [= <- <-]. open_destroy Em En Es Ed Eh.
      rewrite alter_insert_eq, (delete_insert_id _ _ _ Hs1) in Es.
      rewrite alter_insert_eq, memset_block_all in Ed by apply length_uninitialised.
      rewrite (alter_absent _ _ _ Hh2) in Eh.
      split; [reflexivity|]. split; [exact Es|]. split; [exact Eh|].
      split; [|split; [exact He|right; eexists; split; [|exact Ed];
                                apply length_replicate]].
      apply (well_formed_grow w); [exact Hw|runtime_cbn; lia|].
      intros q Hq. runtime_cbn_in Hq. runtime_cbn. rewrite Ed, Eh, Es.
      rewrite lookup_insert_ne by lia. auto. }
  erewrite run_queue_at by queue_lookup.
  cbn [fold_left perform app runnable]. runtime_cbn.
  intros [= <- <-]. open_destroy Em En Es Ed Eh.
  rewrite !alter_insert_eq, (delete_insert_id _ _ _ Hs1) in Es.
  rewrite alter_insert_eq, memset_block_all in Ed by apply length_uninitialised.
  rewrite (alter_absent _ _ _ Hh2) in Eh.
  split; [reflexivity|]. split; [exact Es|]. split; [exact Eh|].
  split; [|split; [reflexivity|exact Ed]].
  apply (well_formed_grow w); [exact Hw|runtime_cbn; lia|].
  intros q Hq. runtime_cbn_in Hq. runtime_cbn. rewrite Ed, Eh, Es.
  rewrite lookup_insert_ne by lia. auto.
Qed.

Lemma cudaHostCalloc_cases sizeofT nelem w r w' :
  well_formed w ->
  cudaHostCalloc sizeofT nelem w = (r, w') ->
  capture_mode w' = capture_mode w /\ streams w' = streams w /\
  device_heap w' = device_heap w /\ well_formed w' /\
  match r with
  | Ok p =>
      p = N.succ (next_handle w) /\
      host_heap w' =
        <[p := replicate (Z.to_nat (byte_count nelem sizeofT)) 0%Z]> (host_heap w)
  | Throw e => e <> cudaSuccess /\ host_heap w' = host_heap w
  end.
Proof.
  intros Hw. destruct (well_formed_fresh w Hw) as (Hd1 & Hh1 & Hs1 & _).
  unfold cudaHostCalloc, with_guard,
    AvoidCudaGraphCaptureGuard_ctor, AvoidCudaGraphCaptureGuard_dtor, bind, cudaHostAlloc,
    memset.
  step_call; runtime_cbn; intros [= <- <-]; runtime_cbn.
  - rewrite alter_insert_eq, memset_block_all by apply length_uninitialised.
    split; [reflexivity|]. split; [reflexivity|]. split; [reflexivity|].
    split; [|split; reflexivity].
    apply (well_formed_grow w); [exact Hw|runtime_cbn; lia|].
    intros q Hq. runtime_cbn_in Hq. runtime_cbn.
    rewrite lookup_insert_ne by lia. auto.
  - split; [reflexivity|]. split; [reflexivity|]. split; [reflexivity|].
    split; [|split; [exact He|reflexivity]].
    apply (well_formed_grow w); [exact Hw|runtime_cbn; lia|].
    intros q Hq. runtime_cbn. auto.
Qed.

Lemma CudaDeleter_cases ptr w r w' :
  CudaDeleter ptr w = (r, w') ->
  capture_mode w' = capture_mode w /\ streams w' = streams w /\
  host_heap w' = host_heap w /\ next_handle w' = next_handle w /\
  match r with
  | Ok _ => device_heap w' = delete ptr (device_heap w)
  | Throw e => e <> cudaSuccess /\ device_heap w' = device_heap w
  end.
Proof.
  unfold CudaDeleter, with_guard,
    AvoidCudaGraphCaptureGuard_ctor, AvoidCudaGraphCaptureGuard_dtor, cudaFree.
  step_call; runtime_cbn; intros [= <- <-]; runtime_cbn; auto 10.
Qed.

Lemma CudaHostDeleter_cases ptr w r w' :
  CudaHostDeleter ptr w = (r, w') ->
  capture_mode w' = capture_mode w /\ streams w' = streams w /\
  device_heap w' = device_heap w /\ next_handle w' = next_handle w /\
  match r with
  | Ok _ => host_heap w' = delete ptr (host_heap w)
  | Throw e => e <> cudaSuccess /\ host_heap w' = host_heap w
  end.
Proof.
  unfold CudaHostDeleter, with_guard,
    AvoidCudaGraphCaptureGuard_ctor, AvoidCudaGraphCaptureGuard_dtor, cudaFreeHost.
  step_call; runtime_cbn; intros [= <- <-]; runtime_cbn; auto 10.
Qed.

Lemma lookup_alter_absent {A} (f : A -> A) (m : gmap N A) p q :
  m !! q = None -> alter f p m !! q = m !! q.
Proof.
  intros H. destruct (decide (p = q)) as [->|Hne].
  - rewrite lookup_alter_eq, H. reflexivity.
  - apply lookup_alter_ne. exact Hne.
Qed.

Lemma memcpyCudaAsync_cases sizeofT dst src count stream w r w' :
  memcpyCudaAsync sizeofT dst src count stream w = (r, w') ->
  capture_mode w' = capture_mode w /\ device_heap w' = device_heap w /\
  host_heap w' = host_heap w /\ next_handle w' = next_handle w /\
  match r with
  | Ok _ =>
      streams w' =
        alter (fun q => q ++ [Copy dst src (byte_count count sizeofT)]) stream (streams w)
  | Throw e => e <> cudaSuccess /\ streams w' = streams w
  end.
Proof.
  unfold memcpyCudaAsync, with_guard,
    AvoidCudaGraphCaptureGuard_ctor, AvoidCudaGraphCaptureGuard_dtor, cudaMemcpyAsync.
  step_call; runtime_cbn; intros [= <- <-]; runtime_cbn; auto 10.
Qed.

(** Everything [memcpyCuda] can do.  When [cudaStreamSynchronize] fails
    the copy is already queued, and the destruction of the stream lets it
    complete. *)
Lemma memcpyCuda_cases sizeofT dst src count w r w' :
  well_formed w ->
  memcpyCuda sizeofT dst src count w = (r, w') ->
  capture_mode w' = capture_mode w /\ streams w' = streams w /\ well_formed w' /\
  match r with
  | Ok _ =>
      device_heap w' =
        alter (copy_block (byte_count count sizeofT) (read_block w src)) dst (device_heap w) /\
      host_heap w' =
        alter (copy_block (byte_count count sizeofT) (read_block w src)) dst (host_heap w)
  | Throw e =>
      e <> cudaSuccess /\
      ((device_heap w' = device_heap w /\ host_heap w' = host_heap w) \/
       (device_heap w' =
          alter (copy_block (byte_count count sizeofT) (read_block w src)) dst
            (device_heap w) /\
        host_heap w' =
          alter (copy_block (byte_count count sizeofT) (read_block w src)) dst
            (host_heap w)))
  end.
Proof.
  intros Hw. destruct (well_formed_fresh w Hw) as (Hd1 & Hh1 & Hs1 & _).
  unfold memcpyCuda, with_guard, with_stream, CudaStreamWithFlags_ctor,
    CudaStreamWithFlags_dtor,
    AvoidCudaGraphCaptureGuard_ctor, AvoidCudaGraphCaptureGuard_dtor,
    cudaStreamCreateWithFlags, bind, cudaMemcpyAsync, cudaStreamSynchronize.
  step_call.
  2:{ intros [= <- <-]. cbn.
      split; [reflexivity|]. split; [reflexivity|].
      split; [apply (well_formed_grow w); [exact Hw|cbn; lia|cbn; auto]|].
      split; [exact He|left; split; reflexivity]. }
  runtime_cbn. step_call; runtime_cbn.
  2:{ intros [= <- <-]. open_destroy Em En Es Ed Eh.
      rewrite (delete_insert_id _ _ _ Hs1) in Es.
      split; [reflexivity|]. split; [exact Es|].
      split; [|split; [exact He|left; split; assumption]].
      apply (well_formed_grow w); [exact Hw|runtime_cbn; lia|].
      intros q Hq. runtime_cbn. rewrite Ed, Eh, Es. auto. }
  step_call; runtime_cbn.
  2:{ intros [= <- <-]. open_destroy Em En Es Ed Eh.
      change (read_block _ src) with (read_block w src) in Ed, Eh.
      rewrite alter_insert_eq, (delete_insert_id _ _ _ Hs1) in Es.
      split; [reflexivity|]. split; [exact Es|].
      split; [|split; [exact He|right; split; assumption]].
      apply (well_formed_grow w); [exact Hw|runtime_cbn; lia|].
      intros q Hq. runtime_cbn_in Hq. runtime_cbn. rewrite Ed, Eh, Es.
      destruct (Hw q ltac:(lia)) as (Hq1 & Hq2 & _).
      rewrite !lookup_alter_absent by assumption. auto. }
  erewrite run_queue_at by queue_lookup.
  cbn [fold_left perform app runnable]. runtime_cbn.
  intros [= <- <-]. open_destroy Em En Es Ed Eh.
  change (read_block _ src) with (read_block w src) in Ed, Eh.
  rewrite !alter_insert_eq, (delete_insert_id _ _ _ Hs1) in Es.
  split; [reflexivity|]. split; [exact Es|].
  split; [|split; assumption].
  apply (well_formed_grow w); [exact Hw|runtime_cbn; lia|].
  intros q Hq. runtime_cbn_in Hq. runtime_cbn. rewrite Ed, Eh, Es.
  destruct (Hw q ltac:(lia)) as (Hq1 & Hq2 & _).
  rewrite !lookup_alter_absent by assumption. auto.
Qed.

(** A pointer into one of the two heaps. *)
Definition allocated (w : runtime) (p : N) : Prop :=
  is_Some (device_heap w !! p) \/ is_Some (host_heap w !! p).

Lemma read_block_altered w w' (f : list Z -> list Z) dst :
  device_heap w' = alter f dst (device_heap w) ->
  host_heap w' = alter f dst (host_heap w) ->
  (allocated w dst -> read_block w' dst = f (read_block w dst)) /\
  (forall q, q <> dst -> read_block w' q = read_block w q) /\
  (forall q, allocated w q -> allocated w' q).
Proof.
  intros Hd Hh. unfold read_block, allocated. rewrite Hd, Hh. split; [|split].
  - rewrite !lookup_alter_eq. intros [[x Hx]|[x Hx]].
    + rewrite Hx. reflexivity.
    + rewrite Hx. destruct (device_heap w !! dst); reflexivity.
  - intros q Hq. rewrite !lookup_alter_ne by auto. reflexivity.
  - intros q. destruct (decide (dst = q)) as [->|Hne].
    + rewrite !lookup_alter_eq. intros [[x ->]|[x ->]]; [left|right]; eexists; reflexivity.
    + rewrite !lookup_alter_ne by exact Hne. auto.
Qed.

Lemma copy_block_fits bytes src old :
  Z.to_nat bytes <= length old ->
  copy_block bytes src old = take (Z.to_nat bytes) src ++ drop (Z.to_nat bytes) old.
Proof. intros H. unfold copy_block. rewrite Nat.min_l by exact H. reflexivity. Qed.


Lemma idle_runtime_well_formed outs : well_formed (idle_runtime outs).
Proof. intros p _. simpl. rewrite !lookup_empty. auto. Qed.


(** A failed [cudaCalloc].  From a well-formed runtime, whichever of its
    four runtime calls fails: the error thrown is the driver's, the stream
    it created is destroyed, the host heap is untouched and the capture
    mode is restored; the device heap is unchanged or holds exactly one
    block more than before, the one [cudaMalloc] had returned. *)
Theorem cudaCalloc_failure (sizeofT nelem : Z) (w w' : runtime) (e : cudaError_t) :
  well_formed w ->
  cudaCalloc sizeofT nelem w = (Throw e, w') ->
  e <> cudaSuccess /\ streams w' = streams w /\ host_heap w' = host_heap w /\
  capture_mode w' = capture_mode w /\ well_formed w' /\
  (device_heap w' = device_heap w \/
   exists bs, length bs = Z.to_nat (byte_count nelem sizeofT) /\
              ~ allocated w (N.succ (N.succ (next_handle w))) /\
              device_heap w' = <[N.succ (N.succ (next_handle w)) := bs]> (device_heap w)).
Proof.
  intros Hw H. destruct (well_formed_fresh w Hw) as (_ & _ & _ & Hd2 & Hh2 & _).
  destruct (cudaCalloc_cases _ _ _ _ _ Hw H) as (Hm & Hs & Hh & Hw' & He & Hd).
  split; [exact He|]. split; [exact Hs|]. split; [exact Hh|].
  split; [exact Hm|]. split; [exact Hw'|].
  destruct Hd as [Hd|(bs & Hl & Hd)]; [left; exact Hd|right].
  exists bs. split; [exact Hl|]. split; [|exact Hd].
  intros [[x Hx]|[x Hx]]; congruence.
Qed.

Lemma cudaCalloc_failure_witness :
  well_formed (idle_runtime [0; 0; 0; 7]%Z) /\
  streams (cudaCalloc 12 1 (idle_runtime [0; 0; 0; 7]%Z)).2 =
    streams (idle_runtime [0; 0; 0; 7]%Z).
Proof.
  split; [apply idle_runtime_well_formed|].
  assert (H : cudaCalloc 12 1 (idle_runtime [0; 0; 0; 7]%Z) =
              (Throw 7%Z, (cudaCalloc 12 1 (idle_runtime [0; 0; 0; 7]%Z)).2))
    by (vm_compute; reflexivity).
  exact (proj1 (proj2 (cudaCalloc_failure 12 1 (idle_runtime [0; 0; 0; 7]%Z)
                         (cudaCalloc 12 1 (idle_runtime [0; 0; 0; 7]%Z)).2 7%Z
                         (idle_runtime_well_formed _) H))).
Defined.

(** Allocation and release.  A block obtained from any of the allocation
    helpers and then released with the deleter its smart pointer carries
    leaves both heaps, the streams and the capture mode exactly as they
    were before the allocation; and when the deleter's free fails, it
    throws and the block stays allocated. *)
Theorem alloc_then_delete_restores (sizeofT count : Z) (w w1 w2 : runtime) (mem : Memory)
    (r : result unit) :
  well_formed w ->
  allocSharedCuda sizeofT count w = (Ok mem, w1) \/
  allocExtSharedCuda sizeofT count w = (Ok mem, w1) \/
  allocUniqueCuda sizeofT count w = (Ok mem, w1) \/
  allocExtUniqueCuda sizeofT count w = (Ok mem, w1) \/
  allocCudaHost sizeofT count w = (Ok mem, w1) ->
  get_deleter mem (get mem) w1 = (r, w2) ->
  streams w2 = streams w /\ capture_mode w2 = capture_mode w /\
  match r with
  | Ok _ => device_heap w2 = device_heap w /\ host_heap w2 = host_heap w
  | Throw e => e <> cudaSuccess /\ device_heap w2 = device_heap w1 /\
               host_heap w2 = host_heap w1
  end.
Proof.
  intros Hw Halloc Hdel.
  destruct (well_formed_fresh w Hw) as (Hd1 & Hh1 & _ & Hd2 & Hh2 & _).
  assert (Hcases :
    safeAlloc (cudaCalloc sizeofT) CudaDeleter count w = (Ok mem, w1) \/
    safeAlloc (cudaHostCalloc sizeofT) CudaHostDeleter count w = (Ok mem, w1)).
  { destruct Halloc as [H|[H|[H|[H|H]]]]; [left|left|left|left|right]; exact H. }
  clear Halloc. destruct Hcases as [H|H]; unfold safeAlloc in H.
  - destruct (cudaCalloc sizeofT count w) as [[p|e] w0] eqn:Ha; [|discriminate H].
    injection H as <- <-. simpl in Hdel.
    destruct (cudaCalloc_cases _ _ _ _ _ Hw Ha) as (Hm & Hs & Hh & _ & -> & Hd).
    destruct (CudaDeleter_cases _ _ _ _ Hdel) as (Hm' & Hs' & Hh' & _ & Hr).
    split; [congruence|]. split; [congruence|].
    destruct r as [u|e].
    + rewrite Hr, Hd, (delete_insert_id _ _ _ Hd2). split; congruence.
    + destruct Hr as [He Hr]. auto.
  - destruct (cudaHostCalloc sizeofT count w) as [[p|e] w0] eqn:Ha; [|discriminate H].
    injection H as <- <-. simpl in Hdel.
    destruct (cudaHostCalloc_cases _ _ _ _ _ Hw Ha) as (Hm & Hs & Hd & _ & -> & Hh).
    destruct (CudaHostDeleter_cases _ _ _ _ Hdel) as (Hm' & Hs' & Hd' & _ & Hr).
    split; [congruence|]. split; [congruence|].
    destruct r as [u|e].
    + rewrite Hr, Hh, (delete_insert_id _ _ _ Hh1). split; congruence.
    + destruct Hr as [He Hr]. auto.
Qed.

Lemma alloc_then_delete_restores_witness :
  well_formed (idle_runtime []) /\
  device_heap
    (CudaDeleter 2%N (allocUniqueCuda 12 2 (idle_runtime [])).2).2 =
  device_heap (idle_runtime []).
Proof.
  split; [apply idle_runtime_well_formed|].
  assert (H1 : allocUniqueCuda 12 2 (idle_runtime []) =
               (Ok (mkMemory 2%N CudaDeleter), (allocUniqueCuda 12 2 (idle_runtime [])).2))
    by (vm_compute; reflexivity).
  assert (H2 : get_deleter (mkMemory 2%N CudaDeleter) (get (mkMemory 2%N CudaDeleter))
                 (allocUniqueCuda 12 2 (idle_runtime [])).2 =
               (Ok tt, (CudaDeleter 2%N (allocUniqueCuda 12 2 (idle_runtime [])).2).2))
    by (vm_compute; reflexivity).
  exact (proj1 (proj2 (proj2
    (alloc_then_delete_restores 12 2 (idle_runtime [])
       (allocUniqueCuda 12 2 (idle_runtime [])).2
       (CudaDeleter 2%N (allocUniqueCuda 12 2 (idle_runtime [])).2).2
       (mkMemory 2%N CudaDeleter) (Ok tt)
       (idle_runtime_well_formed [])
       (or_intror (or_intror (or_introl H1))) H2)))).
Defined.

(** ** Copies *)

(** [memcpyCuda] is synchronous.  When it returns, from a well-formed
    runtime, the first [count * sizeof(T)] bytes of the block at [dst] are
    those of the block at [src] as it was at the call, the rest of [dst]
    and every other block are unchanged, the stream it created is gone and
    the capture mode is restored. *)
Theorem memcpyCuda_copies (sizeofT count : Z) (dst src : N) (w w' : runtime) :
  well_formed w -> allocated w dst ->
  Z.to_nat (byte_count count sizeofT) <= length (read_block w dst) ->
  memcpyCuda sizeofT dst src count w = (Ok tt, w') ->
  read_block w' dst =
    take (Z.to_nat (byte_count count sizeofT)) (read_block w src) ++
    drop (Z.to_nat (byte_count count sizeofT)) (read_block w dst) /\
  (forall q, q <> dst -> read_block w' q = read_block w q) /\
  streams w' = streams w /\ capture_mode w' = capture_mode w.
Proof.
  intros Hw Hdst Hlen H.
  destruct (memcpyCuda_cases _ _ _ _ _ _ _ Hw H) as (Hm & Hs & _ & Hd & Hh).
  destruct (read_block_altered w w' _ dst Hd Hh) as (Hat & Hother & _).
  split; [rewrite (Hat Hdst); apply copy_block_fits; exact Hlen|].
  split; [exact Hother|]. split; [exact Hs|exact Hm].
Qed.

(** A runtime with a host block 1 holding 1, 2, 3, 4 and a device block 2
    of four other bytes. *)
Definition two_blocks : runtime :=
  mkRuntime cudaStreamCaptureModeGlobal (<[2%N := [9; 9; 9; 9]%Z]> ∅)
    (<[1%N := [1; 2; 3; 4]%Z]> ∅) ∅ 2%N (fun _ => 0%Z) [] [].

Lemma two_blocks_well_formed : well_formed two_blocks.
Proof.
  intros p Hp. simpl in *.
  rewrite !lookup_insert_ne by lia. rewrite !lookup_empty. auto.
Qed.

Lemma memcpyCuda_copies_witness :
  well_formed two_blocks /\ allocated two_blocks 2%N /\
  read_block (memcpyCuda 1 2%N 1%N 4 two_blocks).2 2%N = [1; 2; 3; 4]%Z.
Proof.
  assert (Ha : allocated two_blocks 2%N) by (left; eexists; vm_compute; reflexivity).
  assert (Hl : Z.to_nat (byte_count 4 1) <= length (read_block two_blocks 2%N))
    by (vm_compute; lia).
  assert (H : memcpyCuda 1 2%N 1%N 4 two_blocks =
              (Ok tt, (memcpyCuda 1 2%N 1%N 4 two_blocks).2))
    by (vm_compute; reflexivity).
  split; [exact two_blocks_well_formed|split; [exact Ha|]].
  rewrite (proj1 (memcpyCuda_copies 1 4 2%N 1%N two_blocks _ two_blocks_well_formed Ha Hl H)).
  vm_compute. reflexivity.
Defined.

(** [memcpyCudaAsync] and then [cudaStreamSynchronize].  The copy may be
    carried out at any time between the call and the end of the
    synchronisation, so nothing is said of the heaps in between.  Once the
    stream, idle and not being captured at the call, has been synchronised,
    the first [count * sizeof(T)] bytes of the block at [dst] are those of
    the block at [src] as it was at the call, the rest of [dst] and every
    other block are unchanged, and the stream is idle again: the heaps are
    those that a [memcpyCuda] of the same arguments leaves. *)
Theorem memcpyCudaAsync_then_synchronize (sizeofT count : Z) (dst src stream : N)
    (w w1 w2 : runtime) :
  allocated w dst ->
  Z.to_nat (byte_count count sizeofT) <= length (read_block w dst) ->
  streams w !! stream = Some [] ->
  memcpyCudaAsync sizeofT dst src count stream w = (Ok tt, w1) ->
  MSCCLPP_CUDATHROW (cudaStreamSynchronize stream) w1 = (Ok tt, w2) ->
  read_block w2 dst =
    take (Z.to_nat (byte_count count sizeofT)) (read_block w src) ++
    drop (Z.to_nat (byte_count count sizeofT)) (read_block w dst) /\
  (forall q, q <> dst -> read_block w2 q = read_block w q) /\
  streams w2 !! stream = Some [] /\ capture_mode w2 = capture_mode w /\
  (forall w3, well_formed w -> memcpyCuda sizeofT dst src count w = (Ok tt, w3) ->
     device_heap w2 = device_heap w3 /\ host_heap w2 = host_heap w3).
Proof.
  intros Hdst Hlen Hidle Ha Hsync.
  destruct (memcpyCudaAsync_cases _ _ _ _ _ _ _ _ Ha) as (Hm1 & Hd1 & Hh1 & _ & Hs1).
  assert (Hq : streams w1 !! stream = Some [Copy dst src (byte_count count sizeofT)])
    by (rewrite Hs1, lookup_alter_eq, Hidle; reflexivity).
  assert (H2 : device_heap w2 =
                 alter (copy_block (byte_count count sizeofT) (read_block w src)) dst
                   (device_heap w) /\
               host_heap w2 =
                 alter (copy_block (byte_count count sizeofT) (read_block w src)) dst
                   (host_heap w) /\
               streams w2 !! stream = Some [] /\ capture_mode w2 = capture_mode w).
  { revert Hsync. unfold cudaStreamSynchronize. step_call; [|intros Hx; discriminate Hx].
    erewrite run_queue_at by (runtime_cbn; exact Hq).
    cbn [fold_left perform runnable]. runtime_cbn. intros [= <-]. runtime_cbn.
    change (read_block (answered_runtime w1 o cs) src) with (read_block w1 src).
    assert (Hrb : read_block w1 src = read_block w src)
      by (unfold read_block; rewrite Hd1, Hh1; reflexivity).
    rewrite Hrb, Hd1, Hh1.
    split; [reflexivity|]. split; [reflexivity|].
    split; [rewrite lookup_alter_eq, Hq; reflexivity|exact Hm1]. }
  destruct H2 as (Hd2 & Hh2 & Hs2 & Hm2).
  destruct (read_block_altered w w2 _ dst Hd2 Hh2) as (Hat & Hother & _).
  split; [rewrite (Hat Hdst); apply copy_block_fits; exact Hlen|].
  split; [exact Hother|]. split; [exact Hs2|]. split; [exact Hm2|].
  intros w3 Hw Hc.
  destruct (memcpyCuda_cases _ _ _ _ _ _ _ Hw Hc) as (_ & _ & _ & Hd3 & Hh3).
  rewrite Hd2, Hh2, Hd3, Hh3. split; reflexivity.
Qed.

(** The same runtime with an idle stream 3. *)
Definition two_blocks_and_stream : runtime :=
  mkRuntime cudaStreamCaptureModeGlobal (<[2%N := [9; 9; 9; 9]%Z]> ∅)
    (<[1%N := [1; 2; 3; 4]%Z]> ∅) (<[3%N := []]> ∅) 3%N (fun _ => 0%Z) [] [].

Lemma memcpyCudaAsync_then_synchronize_witness :
  allocated two_blocks_and_stream 2%N /\
  read_block
    (MSCCLPP_CUDATHROW (cudaStreamSynchronize 3%N)
       (memcpyCudaAsync 1 2%N 1%N 4 3%N two_blocks_and_stream).2).2 2%N =
  [1; 2; 3; 4]%Z.
Proof.
  assert (Ha : allocated two_blocks_and_stream 2%N) by (left; eexists; vm_compute; reflexivity).
  assert (Hl : Z.to_nat (byte_count 4 1) <= length (read_block two_blocks_and_stream 2%N))
    by (vm_compute; lia).
  assert (Hi : streams two_blocks_and_stream !! 3%N = Some []) by (vm_compute; reflexivity).
  assert (H1 : memcpyCudaAsync 1 2%N 1%N 4 3%N two_blocks_and_stream =
               (Ok tt, (memcpyCudaAsync 1 2%N 1%N 4 3%N two_blocks_and_stream).2))
    by (vm_compute; reflexivity).
  assert (H2 : MSCCLPP_CUDATHROW (cudaStreamSynchronize 3%N)
                 (memcpyCudaAsync 1 2%N 1%N 4 3%N two_blocks_and_stream).2 =
               (Ok tt, (MSCCLPP_CUDATHROW (cudaStreamSynchronize 3%N)
                          (memcpyCudaAsync 1 2%N 1%N 4 3%N two_blocks_and_stream).2).2))
    by (vm_compute; reflexivity).
  split; [exact Ha|].
  rewrite (proj1 (memcpyCudaAsync_then_synchronize 1 4 2%N 1%N 3%N two_blocks_and_stream _ _
                    Ha Hl Hi H1 H2)).
  vm_compute. reflexivity.
Defined.

(** A round trip.  Copying [count] elements from [h] to [d] and then from
    [d] to [h2] with [memcpyCuda] leaves in the first bytes of [h2]
    exactly the bytes [h] held: the detour through [d] loses nothing. *)
Theorem memcpyCuda_round_trip (sizeofT count : Z) (h d h2 : N) (w w1 w2 : runtime) :
  well_formed w -> allocated w d -> allocated w h2 -> d <> h2 ->
  Z.to_nat (byte_count count sizeofT) <= length (read_block w h) ->
  Z.to_nat (byte_count count sizeofT) <= length (read_block w d) ->
  Z.to_nat (byte_count count sizeofT) <= length (read_block w h2) ->
  memcpyCuda sizeofT d h count w = (Ok tt, w1) ->
  memcpyCuda sizeofT h2 d count w1 = (Ok tt, w2) ->
  read_block w2 h2 =
    take (Z.to_nat (byte_count count sizeofT)) (read_block w h) ++
    drop (Z.to_nat (byte_count count sizeofT)) (read_block w h2) /\
  (length (read_block w h) = Z.to_nat (byte_count count sizeofT) ->
   length (read_block w h2) = Z.to_nat (byte_count count sizeofT) ->
   read_block w2 h2 = read_block w h).
Proof.
  intros Hw Hd Hh2 Hne Lh Ld Lh2 H1 H2.
  set (n := Z.to_nat (byte_count count sizeofT)) in *.
  destruct (memcpyCuda_cases _ _ _ _ _ _ _ Hw H1) as (_ & _ & Hw1 & Hd1 & Hh1).
  destruct (read_block_altered w w1 _ d Hd1 Hh1) as (Hat1 & Hother1 & Hal1).
  destruct (memcpyCuda_cases _ _ _ _ _ _ _ Hw1 H2) as (_ & _ & _ & Hd2 & Hh2').
  destruct (read_block_altered w1 w2 _ h2 Hd2 Hh2') as (Hat2 & _ & _).
  assert (E : read_block w2 h2 = take n (read_block w h) ++ drop n (read_block w h2)).
  { rewrite (Hat2 (Hal1 _ Hh2)).
    rewrite (Hother1 h2 (not_eq_sym Hne)), (Hat1 Hd).
    rewrite copy_block_fits by exact Lh2. fold n.
    rewrite (copy_block_fits _ _ _ Ld). fold n.
    rewrite take_app_le by (rewrite length_take; lia).
    rewrite take_take, Nat.min_id. reflexivity. }
  split; [exact E|].
  intros E1 E2. rewrite E, <- E1 at 1. rewrite <- E2.
  rewrite take_ge, drop_ge by lia. apply app_nil_r.
Qed.

(** A host block 1 holding 1, 2, 3, 4, a device block 2 and a second host
    block 3. *)
Definition three_blocks : runtime :=
  mkRuntime cudaStreamCaptureModeGlobal (<[2%N := [9; 9; 9; 9]%Z]> ∅)
    (<[3%N := [0; 0; 0; 0]%Z]> (<[1%N := [1; 2; 3; 4]%Z]> ∅)) ∅ 3%N (fun _ => 0%Z) [] [].

Lemma memcpyCuda_round_trip_witness :
  well_formed three_blocks /\ allocated three_blocks 2%N /\ allocated three_blocks 3%N /\
  2%N <> 3%N /\
  read_block (memcpyCuda 1 3%N 2%N 4 (memcpyCuda 1 2%N 1%N 4 three_blocks).2).2 3%N =
  [1; 2; 3; 4]%Z.
Proof.
  assert (Hw : well_formed three_blocks).
  { intros p Hp. simpl in *.
    rewrite !lookup_insert_ne by lia. rewrite !lookup_empty. auto. }
  assert (Hd : allocated three_blocks 2%N) by (left; eexists; vm_compute; reflexivity).
  assert (Hh : allocated three_blocks 3%N) by (right; eexists; vm_compute; reflexivity).
  assert (Hne : 2%N <> 3%N) by discriminate.
  assert (L1 : Z.to_nat (byte_count 4 1) <= length (read_block three_blocks 1%N))
    by (vm_compute; lia).
  assert (L2 : Z.to_nat (byte_count 4 1) <= length (read_block three_blocks 2%N))
    by (vm_compute; lia).
  assert (L3 : Z.to_nat (byte_count 4 1) <= length (read_block three_blocks 3%N))
    by (vm_compute; lia).
  assert (H1 : memcpyCuda 1 2%N 1%N 4 three_blocks =
               (Ok tt, (memcpyCuda 1 2%N 1%N 4 three_blocks).2))
    by (vm_compute; reflexivity).
  assert (H2 : memcpyCuda 1 3%N 2%N 4 (memcpyCuda 1 2%N 1%N 4 three_blocks).2 =
               (Ok tt, (memcpyCuda 1 3%N 2%N 4 (memcpyCuda 1 2%N 1%N 4 three_blocks).2).2))
    by (vm_compute; reflexivity).
  split; [exact Hw|split; [exact Hd|split; [exact Hh|split; [exact Hne|]]]].
  apply (proj2 (memcpyCuda_round_trip 1 4 1%N 2%N 3%N three_blocks _ _
                  Hw Hd Hh Hne L1 L2 L3 H1 H2)); vm_compute; reflexivity.
Defined.

(** ** The size of an allocation *)

(** No overflow check.  The size handed to the runtime is
    [nelem * sizeof(T)] in [size_t] arithmetic.  When the product does not
    fit in 64 bits, a successful [cudaCalloc], [cudaExtCalloc] or
    [cudaHostCalloc] returns a block that is at least [2^64] bytes shorter
    than [nelem] elements: the request is not refused. *)
Theorem calloc_size_wraps (sizeofT nelem : Z) (w w' : runtime) (p : N) :
  (2 ^ 64 <= nelem * sizeofT)%Z ->
  cudaCalloc sizeofT nelem w = (Ok p, w') \/
  cudaExtCalloc sizeofT nelem w = (Ok p, w') \/
  cudaHostCalloc sizeofT nelem w = (Ok p, w') ->
  exists bs,
    (device_heap w' !! p = Some bs \/ host_heap w' !! p = Some bs) /\
    (Z.of_nat (length bs) = (nelem * sizeofT) mod 2 ^ 64)%Z /\
    (Z.of_nat (length bs) <= nelem * sizeofT - 2 ^ 64)%Z.
Proof.
  intros Hbig H.
  exists (replicate (Z.to_nat (byte_count nelem sizeofT)) 0%Z).
  split.
  { destruct H as [H|[H|H]].
    - left. apply (cudaCalloc_zero _ _ _ _ _ H).
    - left. apply (cudaCalloc_zero _ _ _ _ _ H).
    - right. apply (cudaHostCalloc_zero _ _ _ _ _ H). }
  rewrite length_replicate. unfold byte_count.
  pose proof (Z.mod_pos_bound (nelem * sizeofT) (2 ^ 64) ltac:(lia)) as Hb.
  rewrite Z2Nat.id by lia. split; [reflexivity|].
  rewrite Z.mod_eq by lia.
  assert (1 <= nelem * sizeofT / 2 ^ 64)%Z by (apply Z.div_le_lower_bound; lia).
  lia.
Qed.

(** Room for [2^62 + 1] objects of 12 bytes is asked for; the block that
    comes back has 12 bytes. *)
Lemma calloc_size_wraps_witness :
  (2 ^ 64 <= (2 ^ 62 + 1) * 12)%Z /\
  exists bs,
    (device_heap (cudaCalloc 12 (2 ^ 62 + 1) (idle_runtime [])).2 !! 2%N = Some bs \/
     host_heap (cudaCalloc 12 (2 ^ 62 + 1) (idle_runtime [])).2 !! 2%N = Some bs) /\
    (Z.of_nat (length bs) = ((2 ^ 62 + 1) * 12) mod 2 ^ 64)%Z /\
    (Z.of_nat (length bs) <= (2 ^ 62 + 1) * 12 - 2 ^ 64)%Z.
Proof.
  assert (Hbig : (2 ^ 64 <= (2 ^ 62 + 1) * 12)%Z) by (vm_compute; discriminate).
  assert (H : cudaCalloc 12 (2 ^ 62 + 1) (idle_runtime []) =
              (Ok 2%N, (cudaCalloc 12 (2 ^ 62 + 1) (idle_runtime [])).2))
    by (vm_compute; reflexivity).
  split; [exact Hbig|].
  exact (calloc_size_wraps 12 (2 ^ 62 + 1) (idle_runtime []) _ 2%N Hbig (or_introl H)).
Defined.

(** ** Objects constructed in host memory *)

(** The constructor of [T] run on element [i] of a block.  A constructor
    is given by what it makes of the [sizeof(T)] bytes it is run on; one
    that throws is not considered.  An element that does not lie inside
    the block is not constructed (in C++ the store would be undefined). *)
Definition construct_at (sizeofT : Z) (T_ctor : list Z -> list Z) (i : nat)
    (bs : list Z) : list Z :=
  let size := Z.to_nat sizeofT in
  if Nat.leb ((i + 1) * size) (length bs)
  then take (i * size) bs ++ T_ctor (take size (drop (i * size) bs)) ++
       drop ((i + 1) * size) bs
  else bs.

(** [new (&ptr[i]) T(args...)] on a host block. *)
Definition placement_new (sizeofT : Z) (T_ctor : list Z -> list Z) (ptr : N) (i : nat)
    (w : runtime) : runtime :=
  set_host (alter (construct_at sizeofT T_ctor i) ptr (host_heap w)) w.

(** [makeSharedCudaHost<T>(args...)]; [T_ctor] is the constructor of [T]
    applied to [args]. *)
Definition makeSharedCudaHost (sizeofT : Z) (T_ctor : list Z -> list Z) : M Memory :=
  let* ptr := safeAlloc (cudaHostCalloc sizeofT) CudaHostDeleter 1 in
  fun w => (Ok ptr, placement_new sizeofT T_ctor (get ptr) 0 w).

(** [makeSharedCudaHost<T>(count)], the array form: the loop
    [for (size_t i = 0; i < count; ++i) new (&ptr[i]) TElem();]. *)
Definition makeSharedCudaHost_array (sizeofT : Z) (TElem_ctor : list Z -> list Z)
    (count : Z) : M Memory :=
  let* ptr := safeAlloc (cudaHostCalloc sizeofT) CudaHostDeleter count in
  fun w =>
    (Ok ptr,
     fold_left (fun acc i => placement_new sizeofT TElem_ctor (get ptr) i acc)
       (seq 0 (Z.to_nat count)) w).

(** [makeUniqueCudaHost<T>(args...)] and [makeUniqueCudaHost<T[]>(count)]:
    the same statements, with a [std::unique_ptr] for the result. *)
Definition makeUniqueCudaHost (sizeofT : Z) (T_ctor : list Z -> list Z) : M Memory :=
  let* ptr := safeAlloc (cudaHostCalloc sizeofT) CudaHostDeleter 1 in
  fun w => (Ok ptr, placement_new sizeofT T_ctor (get ptr) 0 w).

Definition makeUniqueCudaHost_array (sizeofT : Z) (TElem_ctor : list Z -> list Z)
    (count : Z) : M Memory :=
  let* ptr := safeAlloc (cudaHostCalloc sizeofT) CudaHostDeleter count in
  fun w =>
    (Ok ptr,
     fold_left (fun acc i => placement_new sizeofT TElem_ctor (get ptr) i acc)
       (seq 0 (Z.to_nat count)) w).

(** The bytes of a zero-filled block of [n] elements after the first [j]
    have been constructed. *)
Lemma construct_prefix sizeofT T_ctor n j :
  (forall bs, length (T_ctor bs) = length bs) ->
  j <= n ->
  fold_left (fun bs i => construct_at sizeofT T_ctor i bs) (seq 0 j)
    (replicate (n * Z.to_nat sizeofT) 0%Z) =
  concat (replicate j (T_ctor (replicate (Z.to_nat sizeofT) 0%Z))) ++
  replicate ((n - j) * Z.to_nat sizeofT) 0%Z.
Proof.
  intros Hlen. set (size := Z.to_nat sizeofT).
  set (c := T_ctor (replicate size 0%Z)).
  assert (Hc : length c = size) by (unfold c; rewrite Hlen; apply length_replicate).
  assert (Hcat : forall k, length (concat (replicate k c)) = k * size).
  { induction k as [|k IH]; simpl; [reflexivity|]. rewrite length_app, IH, Hc. lia. }
  induction j as [|j IH]; intros Hj.
  - simpl. rewrite Nat.sub_0_r. reflexivity.
  - rewrite seq_S, fold_left_app, IH by lia. cbn [fold_left Nat.add].
    unfold construct_at. fold size.
    rewrite length_app, Hcat, length_replicate.
    destruct (Nat.leb_spec ((j + 1) * size) (j * size + (n - j) * size)) as [_|Hgt]; [|nia].
    rewrite take_app_length' by (symmetry; apply Hcat).
    rewrite drop_app_length' by (symmetry; apply Hcat).
    rewrite take_replicate, Nat.min_l by nia. fold c.
    rewrite drop_app_ge by (rewrite Hcat; lia).
    rewrite Hcat, drop_replicate.
    replace ((j + 1) * size - j * size) with size by lia.
    replace ((n - j) * size - size) with ((n - S j) * size) by nia.
    rewrite app_assoc. f_equal.
    replace (S j) with (j + 1) by lia.
    rewrite replicate_add, concat_app. simpl. rewrite app_nil_r. reflexivity.
Qed.

Lemma placement_fold sizeofT T_ctor ptr l :
  forall w h0 b,
  host_heap w = <[ptr := b]> h0 ->
  host_heap (fold_left (fun acc i => placement_new sizeofT T_ctor ptr i acc) l w) =
    <[ptr := fold_left (fun bs i => construct_at sizeofT T_ctor i bs) l b]> h0 /\
  device_heap (fold_left (fun acc i => placement_new sizeofT T_ctor ptr i acc) l w) =
    device_heap w /\
  streams (fold_left (fun acc i => placement_new sizeofT T_ctor ptr i acc) l w) =
    streams w /\
  capture_mode (fold_left (fun acc i => placement_new sizeofT T_ctor ptr i acc) l w) =
    capture_mode w.
Proof.
  induction l as [|i l IH]; intros w h0 b Hh; [simpl; auto|].
  cbn [fold_left].
  destruct (IH (placement_new sizeofT T_ctor ptr i w) h0 (construct_at sizeofT T_ctor i b))
    as (H1 & H2 & H3 & H4).
  - unfold placement_new. cbn [host_heap set_host]. rewrite Hh. apply alter_insert_eq.
  - rewrite H1, H2, H3, H4. auto.
Qed.

Lemma make_array_cases sizeofT TElem_ctor count w r w' :
  well_formed w ->
  (0 < sizeofT)%Z -> (0 <= count)%Z -> (count * sizeofT < 2 ^ 64)%Z ->
  (forall bs, length (TElem_ctor bs) = length bs) ->
  makeSharedCudaHost_array sizeofT TElem_ctor count w = (r, w') ->
  device_heap w' = device_heap w /\ streams w' = streams w /\
  capture_mode w' = capture_mode w /\
  match r with
  | Ok mem =>
      mem = mkMemory (N.succ (next_handle w)) CudaHostDeleter /\
      host_heap w' =
        <[N.succ (next_handle w) :=
            concat (replicate (Z.to_nat count)
                      (TElem_ctor (replicate (Z.to_nat sizeofT) 0%Z)))]> (host_heap w)
  | Throw e => e <> cudaSuccess /\ host_heap w' = host_heap w
  end.
Proof.
  intros Hw Hs Hc Hfit Hlen.
  unfold makeSharedCudaHost_array, bind, safeAlloc.
  destruct (cudaHostCalloc sizeofT count w) as [[p|e] w0] eqn:Ha.
  - destruct (cudaHostCalloc_cases _ _ _ _ _ Hw Ha) as (Hm & Hst & Hd & _ & -> & Hh).
    intros [= <- <-]. cbn [get].
    assert (Hbytes : Z.to_nat (byte_count count sizeofT) = Z.to_nat count * Z.to_nat sizeofT).
    { unfold byte_count. rewrite Z.mod_small by nia. apply Z2Nat.inj_mul; lia. }
    rewrite Hbytes in Hh.
    destruct (placement_fold sizeofT TElem_ctor (N.succ (next_handle w))
                (seq 0 (Z.to_nat count)) w0 _ _ Hh) as (H1 & H2 & H3 & H4).
    rewrite H1, H2, H3, H4.
    rewrite (construct_prefix sizeofT TElem_ctor (Z.to_nat count) (Z.to_nat count) Hlen)
      by lia.
    rewrite Nat.sub_diag. simpl. rewrite app_nil_r. auto 10.
  - destruct (cudaHostCalloc_cases _ _ _ _ _ Hw Ha) as (Hm & Hst & Hd & _ & He & Hh).
    cbn [N.eqb nullptr]. intros [= <- <-]. auto 10.
Qed.

(** Objects made in host memory.  [makeSharedCudaHost] and
    [makeUniqueCudaHost], in the single-object and in the array form, from
    a well-formed runtime and for a size that fits [size_t]: on success the
    smart pointer carries [CudaHostDeleter], and the new host block
    consists of [count] objects, each the result of running the constructor
    once on zero-filled storage; on failure nothing has been allocated.
    The device heap, the streams and the capture mode are untouched either
    way. *)
Theorem makeCudaHost_constructs (sizeofT count : Z) (T_ctor : list Z -> list Z)
    (w w' : runtime) (r : result Memory) :
  well_formed w ->
  (0 < sizeofT)%Z -> (0 <= count)%Z -> (count * sizeofT < 2 ^ 64)%Z ->
  (forall bs, length (T_ctor bs) = length bs) ->
  makeSharedCudaHost_array sizeofT T_ctor count w = (r, w') \/
  makeUniqueCudaHost_array sizeofT T_ctor count w = (r, w') \/
  count = 1%Z /\
  (makeSharedCudaHost sizeofT T_ctor w = (r, w') \/
   makeUniqueCudaHost sizeofT T_ctor w = (r, w')) ->
  device_heap w' = device_heap w /\ streams w' = streams w /\
  capture_mode w' = capture_mode w /\
  match r with
  | Ok mem =>
      mem = mkMemory (N.succ (next_handle w)) CudaHostDeleter /\
      ~ allocated w (get mem) /\
      host_heap w' =
        <[get mem :=
            concat (replicate (Z.to_nat count)
                      (T_ctor (replicate (Z.to_nat sizeofT) 0%Z)))]> (host_heap w)
  | Throw e => e <> cudaSuccess /\ host_heap w' = host_heap w
  end.
Proof.
  intros Hw Hs Hc Hfit Hlen H.
  assert (H' : makeSharedCudaHost_array sizeofT T_ctor count w = (r, w')).
  { destruct H as [H|[H|[-> [H|H]]]]; exact H. }
  destruct (make_array_cases _ _ _ _ _ _ Hw Hs Hc Hfit Hlen H') as (Hd & Hst & Hm & Hr).
  split; [exact Hd|]. split; [exact Hst|]. split; [exact Hm|].
  destruct r as [mem|e]; [|exact Hr].
  destruct Hr as [-> Hh]. split; [reflexivity|]. split; [|exact Hh].
  destruct (well_formed_fresh w Hw) as (Hd1 & Hh1 & _).
  intros [[x Hx]|[x Hx]]; simpl in Hx; congruence.
Qed.

(** Three two-byte objects whose constructor stores 7 in the first byte. *)
Lemma makeCudaHost_constructs_witness :
  well_formed (idle_runtime []) /\ (0 < 2)%Z /\ (0 <= 3)%Z /\ (3 * 2 < 2 ^ 64)%Z /\
  host_heap
    (makeUniqueCudaHost_array 2
       (fun bs => match bs with [] => [] | _ :: rest => 7%Z :: rest end) 3
       (idle_runtime [])).2 !! 1%N =
  Some [7; 0; 7; 0; 7; 0]%Z.
Proof.
  assert (H1 : (0 < 2)%Z) by lia.
  assert (H2 : (0 <= 3)%Z) by lia.
  assert (H3 : (3 * 2 < 2 ^ 64)%Z) by (vm_compute; reflexivity).
  assert (H4 : forall bs : list Z,
            length (match bs with [] => [] | _ :: rest => 7%Z :: rest end) = length bs)
    by (intros [|b bs]; reflexivity).
  assert (H5 : makeUniqueCudaHost_array 2
                 (fun bs => match bs with [] => [] | _ :: rest => 7%Z :: rest end) 3
                 (idle_runtime []) =
               (Ok (mkMemory 1%N CudaHostDeleter),
                (makeUniqueCudaHost_array 2
                   (fun bs => match bs with [] => [] | _ :: rest => 7%Z :: rest end) 3
                   (idle_runtime [])).2))
    by (vm_compute; reflexivity).
  split; [apply idle_runtime_well_formed|].
  split; [exact H1|split; [exact H2|split; [exact H3|]]].
  rewrite (proj2 (proj2 (proj2 (proj2 (proj2
             (makeCudaHost_constructs 2 3 _ (idle_runtime []) _
                (Ok (mkMemory 1%N CudaHostDeleter))
                (idle_runtime_well_formed _) H1 H2 H3 H4 (or_intror (or_introl H5)))))))).
  apply lookup_insert_eq.
Defined.

Lemma concat_replicate_replicate (n k : nat) (x : Z) :
  concat (replicate k (replicate n x)) = replicate (n * k) x.
Proof.
  induction k as [|k IH]; [rewrite Nat.mul_0_r; reflexivity|].
  change (concat (replicate (S k) (replicate n x)))
    with (replicate n x ++ concat (replicate k (replicate n x))).
  rewrite IH, <- replicate_add. f_equal. lia.
Qed.

(** A [DeviceSyncer] made in host memory.  Its constructor writes no
    field, so run on zero-filled storage it leaves it zero-filled (and so
    does a value-initialisation, which zero-fills first).  Hence every
    [DeviceSyncer] of an array obtained from [makeSharedCudaHost] or
    [makeUniqueCudaHost] is in the state [Syncer.zeroed] from which the
    barrier starts. *)
Theorem makeCudaHost_DeviceSyncer (count : Z) (T_ctor : list Z -> list Z)
    (w w' : runtime) (mem : Memory) (i : nat) :
  well_formed w -> (0 <= count)%Z -> (count * sizeof_DeviceSyncer < 2 ^ 64)%Z ->
  (forall bs, length (T_ctor bs) = length bs) ->
  T_ctor (replicate 12 0%Z) = replicate 12 0%Z ->
  makeSharedCudaHost_array sizeof_DeviceSyncer T_ctor count w = (Ok mem, w') \/
  makeUniqueCudaHost_array sizeof_DeviceSyncer T_ctor count w = (Ok mem, w') ->
  i < Z.to_nat count ->
  exists bs,
    host_heap w' !! get mem = Some bs /\
    DeviceSyncer_at bs i = Some Syncer.zeroed.
Proof.
  intros Hw Hc Hfit Hlen Hzero H Hi.
  assert (H' : makeSharedCudaHost_array sizeof_DeviceSyncer T_ctor count w = (Ok mem, w'))
    by (destruct H as [H|H]; exact H).
  assert (Hs : (0 < sizeof_DeviceSyncer)%Z) by reflexivity.
  destruct (make_array_cases _ _ _ _ _ _ Hw Hs Hc Hfit Hlen H')
    as (_ & _ & _ & -> & Hh).
  eexists. split; [rewrite Hh; apply lookup_insert_eq|].
  change (Z.to_nat sizeof_DeviceSyncer) with 12. rewrite Hzero.
  rewrite concat_replicate_replicate. apply DeviceSyncer_at_zero. lia.
Qed.

Lemma makeCudaHost_DeviceSyncer_witness :
  well_formed (idle_runtime []) /\ (0 <= 2)%Z /\ (2 * sizeof_DeviceSyncer < 2 ^ 64)%Z /\
  1 < Z.to_nat 2 /\
  exists bs,
    host_heap (makeSharedCudaHost_array sizeof_DeviceSyncer (fun storage => storage) 2
                 (idle_runtime [])).2 !! 1%N = Some bs /\
    DeviceSyncer_at bs 1 = Some Syncer.zeroed.
Proof.
  assert (H1 : (0 <= 2)%Z) by lia.
  assert (H2 : (2 * sizeof_DeviceSyncer < 2 ^ 64)%Z) by (vm_compute; reflexivity).
  assert (H3 : 1 < Z.to_nat 2) by (vm_compute; lia).
  assert (H4 : makeSharedCudaHost_array sizeof_DeviceSyncer (fun storage => storage) 2
                 (idle_runtime []) =
               (Ok (mkMemory 1%N CudaHostDeleter),
                (makeSharedCudaHost_array sizeof_DeviceSyncer (fun storage => storage) 2
                   (idle_runtime [])).2))
    by (vm_compute; reflexivity).
  split; [apply idle_runtime_well_formed|].
  split; [exact H1|split; [exact H2|split; [exact H3|]]].
  exact (makeCudaHost_DeviceSyncer 2 (fun storage => storage) (idle_runtime []) _
           (mkMemory 1%N CudaHostDeleter) 1 (idle_runtime_well_formed _) H1 H2
           (fun bs => eq_refl) eq_refl (or_introl H4) H3).
Defined.

(** ** Captured or not *)
















End GpuUtils.
